(** * mini-html language server: the validation pass of [server.ts]

    A shallow embedding of [validateTextDocument], [validateHeadContent],
    [validateBodyContent] and [validateNesting], with the fragment of
    JavaScript strings and regular expressions these functions use, and of
    the handler [onDidChangeContent] that runs a pass on the regex objects
    earlier passes left. *)

From Stdlib Require Import String Ascii NArith ZArith Lia Bool Arith List.
Import ListNotations.

Set Implicit Arguments.

(** ** JavaScript strings

    A JavaScript string is a sequence of UTF-16 code units. *)

Module JS.

Definition jsstring := list N.

(** An ASCII literal of the source, as code units. *)
Definition str (s : string) : jsstring :=
  List.map N_of_ascii (list_ascii_of_string s).

Definition ch (a : ascii) : N := N_of_ascii a.

Fixpoint eqb (a b : jsstring) : bool :=
  match a, b with
  | [], [] => true
  | x :: a', y :: b' => N.eqb x y && eqb a' b'
  | _, _ => false
  end.

(** WhiteSpace and LineTerminator of ECMAScript: what [trim] strips and
    what the class [\s] accepts. *)
Definition isWhiteSpace (c : N) : bool :=
  (N.leb 9 c && N.leb c 13) || N.eqb c 32 || N.eqb c 160 || N.eqb c 5760
  || (N.leb 8192 c && N.leb c 8202) || N.eqb c 8232 || N.eqb c 8233
  || N.eqb c 8239 || N.eqb c 8287 || N.eqb c 12288 || N.eqb c 65279.

Fixpoint trimStart (s : jsstring) : jsstring :=
  match s with
  | c :: s' => if isWhiteSpace c then trimStart s' else s
  | [] => []
  end.

Definition trimEnd (s : jsstring) : jsstring := rev (trimStart (rev s)).

Definition trim (s : jsstring) : jsstring := trimEnd (trimStart s).

Fixpoint startsWith (s p : jsstring) : bool :=
  match p, s with
  | [], _ => true
  | y :: p', x :: s' => N.eqb x y && startsWith s' p'
  | _ :: _, [] => false
  end.

Definition endsWith (s p : jsstring) : bool := startsWith (rev s) (rev p).

(** [s.split('\n')]: always at least one piece. *)
Fixpoint split_nl (s : jsstring) : list jsstring :=
  match s with
  | [] => [[]]
  | c :: s' =>
      if N.eqb c 10 then [] :: split_nl s'
      else match split_nl s' with
           | l :: ls => (c :: l) :: ls
           | [] => [[c]]
           end
  end.

(** [s.indexOf(p)], from the start of [s]; [-1] when [p] does not occur. *)
Fixpoint indexOf (s p : jsstring) : Z :=
  if startsWith s p then 0%Z
  else match s with
       | [] => (-1)%Z
       | _ :: s' => let i := indexOf s' p in
                    if Z.eqb i (-1) then (-1)%Z else (i + 1)%Z
       end.

Definition includes (s p : jsstring) : bool := negb (Z.eqb (indexOf s p) (-1)).

(** [s.substring(0, e)]: a negative end is taken as 0, one past the length
    as the length. *)
Definition substring0 (s : jsstring) (e : Z) : jsstring :=
  firstn (Z.to_nat (Z.max 0 e)) s.

(** [toLowerCase] on the code units a tag name can hold (ASCII letters and
    digits, see [tagName_capture_alnum]); other code units are left alone. *)
Definition lower (c : N) : N :=
  if N.leb 65 c && N.leb c 90 then (c + 32)%N else c.

Definition toLowerCase (s : jsstring) : jsstring := List.map lower s.

End JS.

Import JS.

(** ** Regular expressions

    The constructs the literals of [server.ts] use.  Every literal carries
    the [i] flag and none the [u] flag; a star is always over a single
    character class. *)

Module RegExp.

Inductive regex :=
| Eps                                   (* empty pattern *)
| Chr (c : N)                           (* a pattern character *)
| Cls (p : N -> bool)                   (* a character class *)
| Star (greedy : bool) (p : N -> bool)  (* [p*] and [p*?] *)
| Opt (r : regex)                       (* [r?] *)
| Seq (r1 r2 : regex)
| Group (r : regex).                    (* the capture group 1 *)

Definition seq (rs : list regex) : regex := fold_right Seq Eps rs.

(** The characters of a literal word, in sequence. *)
Definition lit (s : string) : regex := seq (List.map Chr (str s)).

(** Canonicalize of ECMAScript without the [u] flag: the upper-case mapping,
    except that a code unit from 128 up is never mapped below 128.  All
    pattern characters here are ASCII, so only the ASCII part of the mapping
    can make two canonical forms meet. *)
Definition canonicalize (c : N) : N :=
  if N.leb 97 c && N.leb c 122 then (c - 32)%N else c.

Definition chr_eq_i (c x : N) : bool := N.eqb (canonicalize x) (canonicalize c).

(** Character classes of the literals (the [i] flag adds nothing to them). *)
Definition ws : N -> bool := isWhiteSpace.                      (* \s *)
Definition not_gt (c : N) : bool := negb (N.eqb c 62).          (* [^>] *)
Definition any (_ : N) : bool := true.                          (* [\s\S] *)
Definition alpha (c : N) : bool :=                              (* [a-zA-Z] *)
  (N.leb 97 c && N.leb c 122) || (N.leb 65 c && N.leb c 90).
Definition alnum (c : N) : bool :=                              (* [a-zA-Z0-9] *)
  alpha c || (N.leb 48 c && N.leb c 57).

Section Matcher.

Variable R : Type.

(** A continuation receives the rest of the input and the capture. *)
Definition cont := jsstring -> option jsstring -> option R.

(** [p*]: the longest run first, giving characters back on failure. *)
Fixpoint star_greedy (p : N -> bool) (s : jsstring) (k : jsstring -> option R)
  : option R :=
  match s with
  | x :: s' =>
      if p x then
        match star_greedy p s' k with
        | Some r => Some r
        | None => k s
        end
      else k s
  | [] => k s
  end.

(** [p*?]: the shortest run first, taking one more character on failure. *)
Fixpoint star_lazy (p : N -> bool) (s : jsstring) (k : jsstring -> option R)
  : option R :=
  match k s with
  | Some r => Some r
  | None =>
      match s with
      | x :: s' => if p x then star_lazy p s' k else None
      | [] => None
      end
  end.

(** The backtracking matcher, in continuation-passing style. *)
Fixpoint rmatch (r : regex) (s : jsstring) (cap : option jsstring) (k : cont)
  : option R :=
  match r with
  | Eps => k s cap
  | Chr c =>
      match s with
      | x :: s' => if chr_eq_i c x then k s' cap else None
      | [] => None
      end
  | Cls p =>
      match s with
      | x :: s' => if p x then k s' cap else None
      | [] => None
      end
  | Star true p => star_greedy p s (fun s' => k s' cap)
  | Star false p => star_lazy p s (fun s' => k s' cap)
  | Opt r1 =>
      match rmatch r1 s cap k with
      | Some res => Some res
      | None => k s cap
      end
  | Seq r1 r2 => rmatch r1 s cap (fun s' cap' => rmatch r2 s' cap' k)
  | Group r1 =>
      rmatch r1 s cap
        (fun s' _ => k s' (Some (firstn (length s - length s') s)))
  end.

End Matcher.

(** A match: the matched text ([m[0]]), the capture ([m[1]]) and the index. *)
Record rmatch_result := MkMatch {
  m0 : jsstring;
  m1 : option jsstring;
  index : nat
}.

(** One attempt, at the start of [s]. *)
Definition match_here (r : regex) (s : jsstring) : option rmatch_result :=
  match rmatch r s None (fun s' cap => Some (s', cap)) with
  | Some (s', cap) => Some (MkMatch (firstn (length s - length s') s) cap 0)
  | None => None
  end.

Definition shift (m : rmatch_result) : rmatch_result :=
  MkMatch (m0 m) (m1 m) (S (index m)).

(** The first position of [s] at which [r] matches. *)
Fixpoint search (r : regex) (s : jsstring) : option rmatch_result :=
  match match_here r s with
  | Some m => Some m
  | None =>
      match s with
      | [] => None
      | _ :: s' => option_map shift (search r s')
      end
  end.

(** [RegExp.prototype.exec] of a global regex: the search starts at
    [lastIndex]; the result carries the new [lastIndex]. *)
Definition exec (r : regex) (s : jsstring) (lastIndex : nat)
  : option (rmatch_result * nat) :=
  if Nat.ltb (length s) lastIndex then None
  else match search r (skipn lastIndex s) with
       | Some m =>
           let i := (lastIndex + index m)%nat in
           Some (MkMatch (m0 m) (m1 m) i, (i + length (m0 m))%nat)
       | None => None
       end.

(** All matches of a global regex, left to right: after a match the scan
    resumes at its end ([skip] counts the characters still to pass), after
    an empty match one character further. *)
Fixpoint match_all_from (r : regex) (s : jsstring) (skip : nat)
  : list jsstring :=
  match skip with
  | S n =>
      match s with
      | _ :: s' => match_all_from r s' n
      | [] => []
      end
  | O =>
      match match_here r s with
      | Some m =>
          m0 m :: match s with
                  | _ :: s' => match_all_from r s' (length (m0 m) - 1)
                  | [] => []
                  end
      | None =>
          match s with
          | _ :: s' => match_all_from r s' 0
          | [] => []
          end
      end
  end.

Definition match_all (r : regex) (s : jsstring) : list jsstring :=
  match_all_from r s 0.

(** [s.match(r)] for a global [r]: [null] when nothing matches. *)
Definition match_g (r : regex) (s : jsstring) : option (list jsstring) :=
  match match_all r s with
  | [] => None
  | ms => Some ms
  end.

(** [s.match(r)] for a regex without the [g] flag. *)
Definition match_1 (r : regex) (s : jsstring) : option rmatch_result :=
  search r s.

End RegExp.

Import RegExp.

(** ** The regex literals of [server.ts] *)

(** [<\s*NAME[^>]*>] *)
Definition openTag (name : string) : list regex :=
  [Chr (ch "<"); Star true ws] ++ [lit name] ++ [Star true not_gt; Chr (ch ">")].

(** [<\s*\/\s*NAME\s*>] *)
Definition closeTag (name : string) : list regex :=
  [Chr (ch "<"); Star true ws; Chr (ch "/"); Star true ws] ++ [lit name]
  ++ [Star true ws; Chr (ch ">")].

(** [<\s*NAME[^>]*>([\s\S]*?)<\s*\/\s*NAME\s*>] *)
Definition pairRegexG (name : string) : regex :=
  seq (openTag name ++ [Group (Star false any)] ++ closeTag name).

(** [<\s*NAME[^>]*>[\s\S]*?<\s*\/\s*NAME\s*>] *)
Definition pairRegex (name : string) : regex :=
  seq (openTag name ++ [Star false any] ++ closeTag name).

(** line 89 *)
Definition htmlRegex : regex := pairRegexG "html".
(** lines 98, 99 *)
Definition headRegex : regex := pairRegex "head".
Definition bodyRegex : regex := pairRegex "body".
(** lines 211, 215 *)
Definition titleRegex : regex := pairRegexG "title".
(** lines 233 and 237, 268, 271 *)
Definition spanRegex : regex := pairRegex "span".
Definition spanRegexG : regex := pairRegexG "span".
(** line 240 *)
Definition divOpenRegex : regex := seq (openTag "div").
(** lines 258, 261 *)
Definition divRegexG : regex := pairRegexG "div".

(** The tag-token pattern of lines 152 and 180: [<], [\s*], [\/?], [\s*],
    the group [[a-zA-Z][a-zA-Z0-9]*], then [[^>]*], [\/?], [\s*], [>]. *)
Definition tagTokenRegex : regex :=
  seq [Chr (ch "<"); Star true ws; Opt (Chr (ch "/")); Star true ws;
       Group (Seq (Cls alpha) (Star true alnum));
       Star true not_gt; Opt (Chr (ch "/")); Star true ws; Chr (ch ">")].

(** The tag-name pattern of lines 157 and 185: the tag-token pattern up to
    and with its group. *)
Definition tagNameRegex : regex :=
  seq [Chr (ch "<"); Star true ws; Opt (Chr (ch "/")); Star true ws;
       Group (Seq (Cls alpha) (Star true alnum))].

(** ** Diagnostics *)

Inductive DiagnosticSeverity := Error | Warning | Information | Hint.

Record Position := MkPosition { line : Z; character : Z }.

Record Range := MkRange { start : Position; end_ : Position }.

Record Diagnostic := MkDiagnostic {
  severity : DiagnosticSeverity;
  range : Range;
  message : string
}.

(** The shape of every diagnostic the server builds: severity Error and a
    range within one line. *)
Definition mkError (l c0 c1 : Z) (msg : string) : Diagnostic :=
  MkDiagnostic Error (MkRange (MkPosition l c0) (MkPosition l c1)) msg.

Definition msg_start : string := "Document must start with <html>".
Definition msg_end : string := "Document must end with </html>".
Definition msg_head_count : string := "HTML must contain exactly one <head> element".
Definition msg_body_count : string := "HTML must contain exactly one <body> element".
Definition msg_head : string := "<head> may contain only <title> or <meta> elements".
Definition msg_body : string := "<body> may contain only <div> or <span> elements".
Definition msg_title : string := "<title> can contain only text".
Definition msg_span : string := "<span> cannot contain <div> elements".

(** ** Control: the diagnostics array, exceptions, loops

    The functions push onto one shared array.  A step ends normally, or
    throws (a [TypeError], when [m[1]] of a match is [undefined] and is used
    as a string), or the model runs out of fuel.  The array keeps what was
    pushed before a throw. *)

Inductive result :=
| Done (diagnostics : list Diagnostic)
| Thrown (diagnostics : list Diagnostic)
| Diverged.

Definition bind (r : result) (f : list Diagnostic -> result) : result :=
  match r with
  | Done ds => f ds
  | Thrown ds => Thrown ds
  | Diverged => Diverged
  end.

Definition push (diagnostics : list Diagnostic) (d : Diagnostic)
  : list Diagnostic := diagnostics ++ [d].

(** [for (const x of l) body] *)
Fixpoint for_each (A : Type) (body : A -> list Diagnostic -> result)
  (l : list A) (diagnostics : list Diagnostic) : result :=
  match l with
  | [] => Done diagnostics
  | x :: l' => bind (body x diagnostics) (for_each body l')
  end.

(** [if (ms) for (const x of ms) body], for the result of a global match. *)
Definition for_matches (body : jsstring -> list Diagnostic -> result)
  (ms : option (list jsstring)) (diagnostics : list Diagnostic) : result :=
  match ms with
  | Some l => for_each body l diagnostics
  | None => Done diagnostics
  end.

(** [fullText.substring(0, errorPos).split('\n').length - 1] *)
Definition line_of (fullText : jsstring) (errorPos : Z) : Z :=
  Z.of_nat (length (split_nl (substring0 fullText errorPos))) - 1.

Definition len (s : jsstring) : Z := Z.of_nat (length s).

(** ** validateHeadContent, validateBodyContent *)

(** The body of the loops of lines 155 and 183; [allowed] is the test on the
    lower-cased name. *)
Definition check_element (allowed : jsstring -> bool) (msg : string)
  (fullText : jsstring) (element : jsstring) (diagnostics : list Diagnostic)
  : result :=
  match match_1 tagNameRegex element with
  | Some tagName =>
      match m1 tagName with
      | Some n =>
          let name := toLowerCase n in
          if negb (allowed name) && negb (includes element (str "/>")) then
            let errorPos := indexOf fullText element in
            let line := line_of fullText errorPos in
            Done (push diagnostics (mkError line 0 (len element) msg))
          else Done diagnostics
      | None => Thrown diagnostics
      end
  | None => Done diagnostics
  end.

Definition head_allowed (name : jsstring) : bool :=
  JS.eqb name (str "title") || JS.eqb name (str "meta").

Definition body_allowed (name : jsstring) : bool :=
  JS.eqb name (str "div") || JS.eqb name (str "span").

Definition validateHeadContent (headContent fullText : jsstring)
  (diagnostics : list Diagnostic) : result :=
  let elements := match_g tagTokenRegex headContent in
  for_matches (check_element head_allowed msg_head fullText) elements
    diagnostics.

(** Rule 4, the first half of [validateBodyContent]. *)
Definition bodyElements (bodyContent fullText : jsstring)
  (diagnostics : list Diagnostic) : result :=
  let elements := match_g tagTokenRegex bodyContent in
  for_matches (check_element body_allowed msg_body fullText) elements
    diagnostics.

(** ** validateNesting *)

(** Rule 5, the body of the loop of line 214. *)
Definition check_title (fullText : jsstring) (titleMatch : jsstring)
  (diagnostics : list Diagnostic) : result :=
  match match_1 titleRegex titleMatch with
  | Some innerContent =>
      match m1 innerContent with
      | Some inner =>
          if includes inner (str "<") then
            let errorPos := indexOf fullText titleMatch in
            let line := line_of fullText errorPos in
            Done (push diagnostics (mkError line 0 (len titleMatch) msg_title))
          else Done diagnostics
      | None => Thrown diagnostics
      end
  | None => Done diagnostics
  end.

(** Rule 6, the body of the loop of line 236. *)
Definition check_span (fullText : jsstring) (spanMatch : jsstring)
  (diagnostics : list Diagnostic) : result :=
  match match_1 spanRegexG spanMatch with
  | Some innerContent =>
      match m1 innerContent with
      | Some inner =>
          match match_g divOpenRegex inner with
          | Some divMatches =>
              let errorPos := indexOf fullText spanMatch in
              let line := line_of fullText errorPos in
              Done (push diagnostics (mkError line 0 (len spanMatch) msg_span))
          | None => Done diagnostics
          end
      | None => Thrown diagnostics
      end
  | None => Done diagnostics
  end.

(** The body of the loops of lines 260 and 270: [recur] is the recursive
    call on [innerContent[1]]. *)
Definition descend (r : regex) (recur : jsstring -> list Diagnostic -> result)
  (m : jsstring) (diagnostics : list Diagnostic) : result :=
  match match_1 r m with
  | Some innerContent =>
      match m1 innerContent with
      | Some inner => recur inner diagnostics
      | None => Thrown diagnostics
      end
  | None => Done diagnostics
  end.

Fixpoint validateNesting (fuel : nat) (content fullText : jsstring)
  (diagnostics : list Diagnostic) (context : list string) : result :=
  match fuel with
  | O => Diverged
  | S fuel' =>
      let titleMatches := match_g titleRegex content in
      bind (for_matches (check_title fullText) titleMatches diagnostics)
        (fun diagnostics =>
      let spanMatches := match_g spanRegex content in
      bind (for_matches (check_span fullText) spanMatches diagnostics)
        (fun diagnostics =>
      let divMatches := match_g divRegexG content in
      bind (for_matches
              (descend divRegexG
                 (fun inner ds =>
                    validateNesting fuel' inner fullText ds (context ++ ["div"%string])))
              divMatches diagnostics)
        (fun diagnostics =>
      let spanMatchesRecursive := match_g spanRegexG content in
      for_matches
        (descend spanRegexG
           (fun inner ds =>
              validateNesting fuel' inner fullText ds (context ++ ["span"%string])))
        spanMatchesRecursive diagnostics)))
  end.

Definition validateBodyContent (fuel : nat) (bodyContent fullText : jsstring)
  (diagnostics : list Diagnostic) : result :=
  bind (bodyElements bodyContent fullText diagnostics)
    (fun diagnostics => validateNesting fuel bodyContent fullText diagnostics []).

(** ** validateTextDocument *)

(** Rule 1, lines 64 to 86. *)
Definition rule1_start (text : jsstring) (diagnostics : list Diagnostic)
  : list Diagnostic :=
  if negb (startsWith (trim text) (str "<html>")) then
    push diagnostics (mkError 0 0 6 msg_start)
  else diagnostics.

Definition rule1_end (text : jsstring) (diagnostics : list Diagnostic)
  : list Diagnostic :=
  let lines := split_nl text in
  if negb (endsWith (trim text) (str "</html>")) then
    let lastLine := (length lines - 1)%nat in
    let lineLength :=
      match nth_error lines lastLine with
      | Some l => len l
      | None => 0%Z
      end in
    push diagnostics
      (MkDiagnostic Error
         (MkRange (MkPosition (Z.of_nat lastLine) (Z.max 0 (lineLength - 7)))
                  (MkPosition (Z.of_nat lastLine) lineLength))
         msg_end)
  else diagnostics.

Definition count (ms : option (list jsstring)) : nat :=
  match ms with
  | Some l => length l
  | None => 0
  end.

(** Lines 104 to 128: the cardinality check for [tag] (["<head"], ["<body"]). *)
Definition check_count (tag : string) (msg : string) (n : nat)
  (content text : jsstring) (diagnostics : list Diagnostic)
  : list Diagnostic :=
  if negb (Nat.eqb n 1) then
    let errorPos :=
      if negb (Z.eqb (indexOf content (str tag)) (-1))
      then indexOf text (str tag) else 0%Z in
    let line := line_of text errorPos in
    push diagnostics (mkError line 0 10 msg)
  else diagnostics.

(** Lines 131 and 135: [if (ms && ms.length === 1) validate(ms[0], ...)]. *)
Definition when_single (validate : jsstring -> list Diagnostic -> result)
  (ms : option (list jsstring)) (diagnostics : list Diagnostic) : result :=
  match ms with
  | Some [m] => validate m diagnostics
  | _ => Done diagnostics
  end.

(** The body of the [while] loop, lines 93 to 137. *)
Definition html_match (fuel : nat) (text : jsstring) (m : rmatch_result)
  (diagnostics : list Diagnostic) : result :=
  match m1 m with
  | None => Thrown diagnostics
  | Some content =>
      let headMatches := match_g headRegex content in
      let bodyMatches := match_g bodyRegex content in
      let headCount := count headMatches in
      let bodyCount := count bodyMatches in
      let diagnostics :=
        check_count "<head" msg_head_count headCount content text diagnostics in
      let diagnostics :=
        check_count "<body" msg_body_count bodyCount content text diagnostics in
      bind (when_single (fun h ds => validateHeadContent h text ds)
              headMatches diagnostics)
        (when_single (fun b ds => validateBodyContent fuel b text ds)
           bodyMatches)
  end.

(** [while ((match = htmlRegex.exec(text)) !== null)], with the [lastIndex]
    of the regex object, which is created at 0 in each pass. *)
Fixpoint html_loop (fuel : nat) (text : jsstring) (lastIndex : nat)
  (diagnostics : list Diagnostic) : result :=
  match fuel with
  | O => Diverged
  | S fuel' =>
      match exec htmlRegex text lastIndex with
      | None => Done diagnostics
      | Some (m, lastIndex') =>
          bind (html_match fuel' text m diagnostics)
            (html_loop fuel' text lastIndex')
      end
  end.

(** The [try] block, lines 56 to 138, on the empty array of line 53. *)
Definition try_block (fuel : nat) (text : jsstring) : result :=
  let diagnostics := rule1_start text [] in
  let diagnostics := rule1_end text diagnostics in
  html_loop fuel text 0 diagnostics.

Record TextDocument := MkTextDocument {
  uri : string;
  version : Z;
  getText : jsstring
}.

Record PublishDiagnosticsParams := MkPublish {
  p_uri : string;
  p_version : Z;
  p_diagnostics : list Diagnostic
}.

(** Lines 139 to 147, on the outcome of the [try] block: the [catch]
    clause logs the exception and execution goes on to
    [connection.sendDiagnostics], which is handed the array as the block
    left it, whether the block ended or threw.  [None] only when the fuel
    did not suffice. *)
Definition sendDiagnostics (textDocument : TextDocument) (block : result)
  : option PublishDiagnosticsParams :=
  match block with
  | Done diagnostics | Thrown diagnostics =>
      Some (MkPublish (uri textDocument) (version textDocument) diagnostics)
  | Diverged => None
  end.

(** [validateTextDocument]: what is handed to [connection.sendDiagnostics]. *)
Definition validateTextDocument (fuel : nat) (textDocument : TextDocument)
  : option PublishDiagnosticsParams :=
  let text := getText textDocument in
  sendDiagnostics textDocument (try_block fuel text).

(** The diagnostics of a pass over [text]. *)
Definition validate (fuel : nat) (text : jsstring) : option (list Diagnostic) :=
  option_map p_diagnostics
    (validateTextDocument fuel (MkTextDocument "file:///a.mhtml" 1 text)).

(** ** The regex object of the html loop

    [htmlRegex] is used with [exec], which reads and writes the
    [lastIndex] of the regex object.  The object is created by the literal
    of line 90, inside the function: each pass has its own, with
    [lastIndex] 0.  [heap] holds the regex objects created so far, those of
    earlier passes included.  (The other patterns are used with
    [String.prototype.match], which does not read [lastIndex].) *)

Record RegExpObject := MkRegExpObject {
  re_source : regex;
  re_lastIndex : nat
}.

Definition Heap := list RegExpObject.

(** Evaluating a regex literal: a new object with [lastIndex] 0. *)
Definition new_RegExp (r : regex) (heap : Heap) : nat * Heap :=
  (length heap, heap ++ [MkRegExpObject r 0]).

Fixpoint set_lastIndex (ref i : nat) (heap : Heap) : Heap :=
  match heap, ref with
  | [], _ => []
  | o :: heap', O => MkRegExpObject (re_source o) i :: heap'
  | o :: heap', S ref' => o :: set_lastIndex ref' i heap'
  end.

(** [re.exec(s)] on the object at [ref]: a match moves [lastIndex] behind
    it, a failure sets [lastIndex] to 0. *)
Definition exec_obj (ref : nat) (s : jsstring) (heap : Heap)
  : option rmatch_result * Heap :=
  match nth_error heap ref with
  | Some o =>
      match exec (re_source o) s (re_lastIndex o) with
      | Some (m, lastIndex') => (Some m, set_lastIndex ref lastIndex' heap)
      | None => (None, set_lastIndex ref 0 heap)
      end
  | None => (None, heap)
  end.

(** The [while] loop of line 92 on the regex object at [re]. *)
Fixpoint html_loop_obj (fuel : nat) (text : jsstring) (re : nat) (heap : Heap)
  (diagnostics : list Diagnostic) : result * Heap :=
  match fuel with
  | O => (Diverged, heap)
  | S fuel' =>
      match exec_obj re text heap with
      | (None, heap') => (Done diagnostics, heap')
      | (Some m, heap') =>
          match html_match fuel' text m diagnostics with
          | Done diagnostics' => html_loop_obj fuel' text re heap' diagnostics'
          | Thrown diagnostics' => (Thrown diagnostics', heap')
          | Diverged => (Diverged, heap')
          end
      end
  end.

(** [documents.onDidChangeContent], line 48: a pass of
    [validateTextDocument] over the changed document, run on the heap that
    earlier passes left; what is sent, and the heap afterwards. *)
Definition onDidChangeContent (fuel : nat) (document : TextDocument)
  (heap : Heap) : option PublishDiagnosticsParams * Heap :=
  let text := getText document in
  let diagnostics := rule1_start text [] in
  let diagnostics := rule1_end text diagnostics in
  let (re, heap) := new_RegExp htmlRegex heap in
  let (block, heap) := html_loop_obj fuel text re heap diagnostics in
  (sendDiagnostics document block, heap).

Definition wellFormed : jsstring :=
  str "<html><head><title>T</title></head><body><div><span>x</span></div></body></html>".

(** * The vocabulary of the properties *)

(** ** What a match can be

    [derives r s s' cap cap']: [r] can consume a prefix of [s] and leave
    [s'], taking the capture from [cap] to [cap']. *)

Inductive derives : regex -> jsstring -> jsstring ->
                    option jsstring -> option jsstring -> Prop :=
| D_Eps s cap : derives Eps s s cap cap
| D_Chr c x s cap : chr_eq_i c x = true -> derives (Chr c) (x :: s) s cap cap
| D_Cls p x s cap : p x = true -> derives (Cls p) (x :: s) s cap cap
| D_Star g p run s cap :
    forallb p run = true -> derives (Star g p) (run ++ s) s cap cap
| D_Opt_some r s s' cap cap' :
    derives r s s' cap cap' -> derives (Opt r) s s' cap cap'
| D_Opt_none r s cap : derives (Opt r) s s cap cap
| D_Seq r1 r2 s s1 s2 cap cap1 cap2 :
    derives r1 s s1 cap cap1 -> derives r2 s1 s2 cap1 cap2 ->
    derives (Seq r1 r2) s s2 cap cap2
| D_Group r s s' cap cap0 :
    derives r s s' cap cap0 ->
    derives (Group r) s s' cap (Some (firstn (length s - length s') s)).

(** The least number of characters a pattern consumes. *)
Fixpoint minlen (r : regex) : nat :=
  match r with
  | Eps => 0
  | Chr _ => 1
  | Cls _ => 1
  | Star _ _ => 0
  | Opt _ => 0
  | Seq r1 r2 => minlen r1 + minlen r2
  | Group r1 => minlen r1
  end.

(** The pattern holds a capture group. *)
Fixpoint has_group (r : regex) : bool :=
  match r with
  | Opt r1 => has_group r1
  | Seq r1 r2 => has_group r1 || has_group r2
  | Group _ => true
  | _ => false
  end.

(** [m] occurs in [s]. *)
Definition substring_of (m s : jsstring) : Prop := exists a b, s = a ++ m ++ b.

(** [c] lies inside [m], with something before and something after. *)
Definition strictly_inside (c m : jsstring) : Prop :=
  exists a b, m = a ++ c ++ b /\ a <> [] /\ b <> [].

(** ** Runs of the matcher *)

(** What a finished run returns: the rest of the input and the capture. *)
Definition found : Type := (jsstring * option jsstring)%type.

Section Runs.

Variable rest : jsstring.

(** How a run on [s ++ rest] and the run on [s] alone correspond: both
    fail, or the first ends at or before [rest] and the second ends at the
    same place. *)
Definition sim_res (full trunc : option found) : Prop :=
  match full with
  | None => trunc = None
  | Some (e, c) => forall t, e = t ++ rest -> trunc = Some (t, c)
  end.

(** A continuation ends within the input it is given. *)
Definition mono (k : cont found) : Prop :=
  forall u cap (e : jsstring) c, k u cap = Some (e, c) -> length e <= length u.

(** Two continuations correspond on every input. *)
Definition sim (k k' : cont found) : Prop :=
  forall t cap, sim_res (k (t ++ rest) cap) (k' t cap).

End Runs.

(** The pattern without its group. *)
Fixpoint ungroup (r : regex) : regex :=
  match r with
  | Group r1 => ungroup r1
  | Seq r1 r2 => Seq (ungroup r1) (ungroup r2)
  | Opt r1 => Opt (ungroup r1)
  | _ => r
  end.

(** Two runs fail together or end at the same place. *)
Definition same_end (o1 o2 : option found) : Prop :=
  match o1, o2 with
  | Some (e1, _), Some (e2, _) => e1 = e2
  | None, None => True
  | _, _ => False
  end.

(** ** What the validators emit *)

(** A step that ends normally and only appends diagnostics that satisfy [P]. *)
Definition appends (P : Diagnostic -> Prop) (ds : list Diagnostic) (r : result)
  : Prop :=
  exists new, r = Done (ds ++ new) /\ Forall P new.

(** [tagName[1]] of lines 157 and 185. *)
Definition tag_name_of (element : jsstring) : option jsstring :=
  match match_1 tagNameRegex element with
  | Some tagName => m1 tagName
  | None => None
  end.

(** The test of lines 161 and 189. *)
Definition flagged (allowed : jsstring -> bool) (element : jsstring) : bool :=
  match tag_name_of element with
  | Some n => negb (allowed (toLowerCase n)) && negb (includes element (str "/>"))
  | None => false
  end.

(** The diagnostic for a token: the line of its first occurrence in the
    document, columns 0 to its length. *)
Definition element_diag (msg : string) (fullText element : jsstring)
  : Diagnostic :=
  mkError (line_of fullText (indexOf fullText element)) 0 (len element) msg.

(** [innerContent[1]]: the capture of [r] matched on the matched text [m]. *)
Definition inner_of (r : regex) (m : jsstring) : option jsstring :=
  match match_1 r m with
  | Some innerContent => m1 innerContent
  | None => None
  end.

(** The tests of lines 216 and 241. *)
Definition title_violation (titleMatch : jsstring) : bool :=
  match inner_of titleRegex titleMatch with
  | Some inner => includes inner (str "<")
  | None => false
  end.

Definition span_violation (spanMatch : jsstring) : bool :=
  match inner_of spanRegexG spanMatch with
  | Some inner =>
      match match_all divOpenRegex inner with
      | [] => false
      | _ => true
      end
  | None => false
  end.

(** The diagnostic for a matched pair: the line of the first occurrence of
    the matched text in the document, columns 0 to its length. *)
Definition title_diag (fullText titleMatch : jsstring) : Diagnostic :=
  mkError (line_of fullText (indexOf fullText titleMatch)) 0 (len titleMatch)
    msg_title.

Definition span_diag (fullText spanMatch : jsstring) : Diagnostic :=
  mkError (line_of fullText (indexOf fullText spanMatch)) 0 (len spanMatch)
    msg_span.

(** The rule-5 and the rule-6 diagnostics of one fragment. *)
Definition title_part (fullText content : jsstring) : list Diagnostic :=
  map (title_diag fullText) (filter title_violation (match_all titleRegex content)).

Definition span_part (fullText content : jsstring) : list Diagnostic :=
  map (span_diag fullText) (filter span_violation (match_all spanRegex content)).

(** The recursive calls of one level: first over the div pairs, then over
    the span pairs. *)
Definition descents (fuel : nat) (content fullText : jsstring)
  (context : list string) (ds : list Diagnostic) : result :=
  bind (for_matches
          (descend divRegexG
             (fun inner ds =>
                validateNesting fuel inner fullText ds (context ++ ["div"%string])))
          (match_g divRegexG content) ds)
    (for_matches
       (descend spanRegexG
          (fun inner ds =>
             validateNesting fuel inner fullText ds (context ++ ["span"%string])))
       (match_g spanRegexG content)).

(** The diagnostics by their messages. *)
Definition nesting_msg (d : Diagnostic) : Prop :=
  severity d = Error /\ (message d = msg_title \/ message d = msg_span).

Definition head_msg (d : Diagnostic) : Prop := message d = msg_head.

Definition body_msg (d : Diagnostic) : Prop :=
  message d = msg_body \/ message d = msg_title \/ message d = msg_span.

(** A step that, when it ends, has kept the array and what was in it. *)
Definition extends (ds : list Diagnostic) (r : result) : Prop :=
  match r with
  | Done out | Thrown out => exists new, out = ds ++ new
  | Diverged => True
  end.

(** ** Texts of the examples *)

Definition twoHeads : jsstring :=
  str "<html><head><title>T</title></head><head><meta></head><body><div><span>x</span></div></body></html>".

Definition bodyP : jsstring := str "<p>hi</p>".

Definition bodyPDoc : jsstring :=
  str "<html><head><title>T</title></head><body><p>hi</p></body></html>".

Definition titleBold : jsstring := str "<title><b>bold</b></title>".

Definition spanDiv : jsstring := str "<span><div>x</div></span>".

(** A body block whose title starts at column 6. *)
Definition bodyTitle : jsstring :=
  str "<body><title><b>bold</b></title></body>".

(** A head block before the html element, on the second line. *)
Definition headOutside : jsstring := 10%N :: str "<head></head><html></html>".

Definition has_message (msg : string) (d : Diagnostic) : bool :=
  String.eqb (message d) msg.

(** The rule-1-end diagnostic: on the last line, from 7 characters before
    its end (not below column 0) to its end. *)
Definition end_diag (text : jsstring) : Diagnostic :=
  let lines := split_nl text in
  let lastLine := (Z.of_nat (length lines) - 1)%Z in
  let l := len (last lines []) in
  MkDiagnostic Error
    (MkRange (MkPosition lastLine (Z.max 0 (l - 7)%Z)) (MkPosition lastLine l))
    msg_end.

(** The cardinality diagnostic for [tag] as lines 105 to 114 place it: the
    document-wide first occurrence of [tag] when the captured content holds
    [tag], else offset 0. *)
Definition count_diag (tag msg : string) (content text : jsstring) : Diagnostic :=
  let errorPos :=
    if includes content (str tag) then indexOf text (str tag) else 0%Z in
  mkError (line_of text errorPos) 0 10 msg.

(** The fragments the recursion of [validateNesting] reaches from a
    fragment: the fragment itself, and what is reached from the inner text
    of one of its div pairs or span pairs. *)
Inductive reaches : jsstring -> jsstring -> Prop :=
| reaches_here c : reaches c c
| reaches_div content m inner c :
    In m (match_all divRegexG content) ->
    inner_of divRegexG m = Some inner ->
    reaches inner c -> reaches content c
| reaches_span content m inner c :
    In m (match_all spanRegexG content) ->
    inner_of spanRegexG m = Some inner ->
    reaches inner c -> reaches content c.


(** ** Tokens and valid nesting *)

(** The pattern starts with the character [<]. *)
Definition first_is_lt (r : regex) : bool :=
  match r with
  | Seq (Chr c) _ => N.eqb c 60
  | _ => false
  end.

(** Text without [<]. *)
Definition plain (s : jsstring) : Prop := Forall (fun c => c <> 60%N) s.

(** The tags of valid markup, its tokens and their text. *)
Inductive tag := div | span | body.

Definition tag_name (t : tag) : string :=
  match t with
  | div => "div"
  | span => "span"
  | body => "body"
  end.

Inductive token := TOpen (t : tag) | TClose (t : tag) | TText (s : jsstring).

Definition render_token (k : token) : jsstring :=
  match k with
  | TOpen t => str "<" ++ str (tag_name t) ++ str ">"
  | TClose t => str "</" ++ str (tag_name t) ++ str ">"
  | TText s => s
  end.

Definition render (ks : list token) : jsstring := concat (map render_token ks).

Definition tag_eqb (a b : tag) : bool :=
  match a, b with
  | div, div | span, span | body, body => true
  | _, _ => false
  end.

Definition plain_token (k : token) : Prop :=
  match k with
  | TText s => plain s
  | _ => True
  end.

(** What follows the [<] of a tag. *)
Definition tag_body (k : token) : jsstring :=
  match k with
  | TOpen t => str (tag_name t) ++ str ">"
  | TClose t => str "/" ++ str (tag_name t) ++ str ">"
  | TText s => []
  end.

Definition is_tag (k : token) : bool :=
  match k with
  | TText _ => false
  | _ => true
  end.

(** The text up to the first closing tag of [t], and what follows it. *)
Fixpoint split_close (t : tag) (ks : list token)
  : option (list token * list token) :=
  match ks with
  | [] => None
  | k :: ks' =>
      if match k with TClose t' => tag_eqb t t' | _ => false end
      then Some ([], ks')
      else match split_close t ks' with
           | Some (pre, post) => Some (k :: pre, post)
           | None => None
           end
  end.

(** The continuation at the end of a pattern. *)
Definition kfin : cont (jsstring * option jsstring) :=
  fun s' cap => Some (s', cap).

(** A tag-pair pattern, with its group or without. *)
Definition pairR (g : bool) (name : string) : regex :=
  if g then pairRegexG name else pairRegex name.

(** From a span opening tag to the first span closing tag behind it there
    is no div opening tag. *)
Definition spans_hold_no_div (ks : list token) : Prop :=
  forall a pre b,
    ks = a ++ TOpen span :: pre ++ TClose span :: b ->
    ~ In (TClose span) pre -> ~ In (TOpen div) pre.

(** The content of a span: text and spans. *)
Inductive span_content :=
| SEnd
| SText (s : jsstring) (rest : span_content)
| SSpan (inner rest : span_content).

(** The content of the body or of a div: text, spans and divs. *)
Inductive div_content :=
| DEnd
| DText (s : jsstring) (rest : div_content)
| DSpan (inner : span_content) (rest : div_content)
| DDiv (inner rest : div_content).

Fixpoint span_tokens (c : span_content) : list token :=
  match c with
  | SEnd => []
  | SText s rest => TText s :: span_tokens rest
  | SSpan inner rest =>
      TOpen span :: span_tokens inner ++ TClose span :: span_tokens rest
  end.

Fixpoint div_tokens (c : div_content) : list token :=
  match c with
  | DEnd => []
  | DText s rest => TText s :: div_tokens rest
  | DSpan inner rest =>
      TOpen span :: span_tokens inner ++ TClose span :: div_tokens rest
  | DDiv inner rest =>
      TOpen div :: div_tokens inner ++ TClose div :: div_tokens rest
  end.

(** The markup of a content. *)
Definition markup (c : div_content) : jsstring := render (div_tokens c).

Definition plainb (s : jsstring) : bool :=
  forallb (fun c => negb (N.eqb c 60)) s.

(** No text of the content holds a [<]. *)
Fixpoint span_plain (c : span_content) : bool :=
  match c with
  | SEnd => true
  | SText s rest => plainb s && span_plain rest
  | SSpan inner rest => span_plain inner && span_plain rest
  end.

Fixpoint div_plain (c : div_content) : bool :=
  match c with
  | DEnd => true
  | DText s rest => plainb s && div_plain rest
  | DSpan inner rest => span_plain inner && div_plain rest
  | DDiv inner rest => div_plain inner && div_plain rest
  end.

(** The nesting depth of a content. *)
Fixpoint span_depth (c : span_content) : nat :=
  match c with
  | SEnd => 0
  | SText _ rest => span_depth rest
  | SSpan inner rest => Nat.max (S (span_depth inner)) (span_depth rest)
  end.

Fixpoint depth (c : div_content) : nat :=
  match c with
  | DEnd => 0
  | DText _ rest => depth rest
  | DSpan inner rest => Nat.max (S (span_depth inner)) (depth rest)
  | DDiv inner rest => Nat.max (S (depth inner)) (depth rest)
  end.

(** [n] divs around two spans around a text. *)
Fixpoint deep (n : nat) : div_content :=
  match n with
  | O => DSpan (SSpan (SText (str "x") SEnd) SEnd) DEnd
  | S n' => DDiv (deep n') DEnd
  end.

(** Every span opening tag is followed by a span closing tag. *)
Definition closes_spans (ks : list token) : Prop :=
  forall a r, ks = a ++ TOpen span :: r -> In (TClose span) r.

(** The body element around a content, as [validateBodyContent] receives
    it. *)
Definition body_tokens (c : div_content) : list token :=
  TOpen body :: div_tokens c ++ [TClose body].

(** ** The diagnostics of a pass *)

(** The messages of rules 2 to 6. *)
Definition later_msg (d : Diagnostic) : Prop :=
  In (message d)
     [msg_head_count; msg_body_count; msg_head; msg_body; msg_title; msg_span].

(** What rule 1 reports on a text. *)
Definition rule1_part (text : jsstring) : list Diagnostic :=
  (if startsWith (trim text) (str "<html>") then []
   else [mkError 0 0 6 msg_start])
  ++ (if endsWith (trim text) (str "</html>") then [] else [end_diag text]).

(** Only white space. *)
Definition blank (s : jsstring) : Prop := Forall (fun c => isWhiteSpace c = true) s.

(** A diagnostic lies in the document [text]: severity Error, on one line,
    which is a line of the text, with its columns in order. *)
Definition well_placed (text : jsstring) (d : Diagnostic) : Prop :=
  severity d = Error /\
  line (start (range d)) = line (end_ (range d)) /\
  (0 <= line (start (range d)) <= Z.of_nat (length (split_nl text)) - 1)%Z /\
  (0 <= character (start (range d)) <= character (end_ (range d)))%Z.

(** [e] occurs in [s] at offset [i] and at no offset before. *)
Definition first_at (s e : jsstring) (i : nat) : Prop :=
  (exists a b, s = a ++ e ++ b /\ length a = i) /\
  forall j, j < i -> startsWith (skipn j s) e = false.

(** The line of offset [i] of [text]: the number of line feeds among the
    first [i] code units. *)
Definition lines_before (text : jsstring) (i : nat) : Z :=
  Z.of_nat (count_occ N.eq_dec (firstn i text) 10%N).

(** The column of the offset behind [s], which starts at column [col]: the
    number of code units since the last line feed. *)
Fixpoint column_from (s : jsstring) (col : nat) : nat :=
  match s with
  | [] => col
  | c :: s' => if N.eqb c 10 then column_from s' 0 else column_from s' (S col)
  end.

Definition position_of (text : jsstring) (i : nat) : Position :=
  MkPosition (lines_before text i) (Z.of_nat (column_from (firstn i text) 0)).

(** The range of [d] is the place of the [n] code units at offset [i]. *)
Definition covers (text : jsstring) (i n : nat) (d : Diagnostic) : Prop :=
  range d = MkRange (position_of text i) (position_of text (i + n)).

(** What rules 3 to 6 flag in the document [text], with the message of the
    rule.  [content] is a part of the document (the capture of an html
    pair); rule 3 flags a tag token of a head block of [content], rule 4 one
    of a body block, when its name is not allowed there and it holds no
    [/>]; rules 5 and 6 flag a title pair whose inner text holds [<] and a
    span pair whose inner text holds a div opening tag, in a fragment that
    the recursion reaches from a body block of [content]. *)
Inductive flagged_text (text : jsstring) : string -> jsstring -> Prop :=
| flagged_head content h e :
    substring_of content text -> In h (match_all headRegex content) ->
    In e (match_all tagTokenRegex h) -> flagged head_allowed e = true ->
    flagged_text text msg_head e
| flagged_body content b e :
    substring_of content text -> In b (match_all bodyRegex content) ->
    In e (match_all tagTokenRegex b) -> flagged body_allowed e = true ->
    flagged_text text msg_body e
| flagged_title content b c e :
    substring_of content text -> In b (match_all bodyRegex content) ->
    reaches b c ->
    In e (match_all titleRegex c) -> title_violation e = true ->
    flagged_text text msg_title e
| flagged_span content b c e :
    substring_of content text -> In b (match_all bodyRegex content) ->
    reaches b c ->
    In e (match_all spanRegex c) -> span_violation e = true ->
    flagged_text text msg_span e.

(** A diagnostic of rules 3 to 6 as a pass places it: for a flagged text
    [e], which occurs in the document, on the line of the first occurrence
    of [e], from column 0 to the length of [e]. *)
Definition located (text : jsstring) (d : Diagnostic) : Prop :=
  exists msg e i,
    flagged_text text msg e /\
    first_at text e i /\
    d = mkError (lines_before text i) 0 (Z.of_nat (length e)) msg.

(** Where the diagnostics of a pass come from. *)
Inductive origin (text : jsstring) : Diagnostic -> Prop :=
| origin_start : origin text (mkError 0 0 6 msg_start)
| origin_end : origin text (end_diag text)
| origin_head_count content :
    substring_of content text ->
    origin text (count_diag "<head" msg_head_count content text)
| origin_body_count content :
    substring_of content text ->
    origin text (count_diag "<body" msg_body_count content text)
| origin_located d : located text d -> origin text d.

(** ** Closing tags in a fragment *)

(** Somewhere in [s] the closing-tag pattern of [name] can match. *)
Definition closes (name : string) (s : jsstring) : Prop :=
  exists a t t' c c', s = a ++ t /\ derives (seq (closeTag name)) t t' c c'.

(** ** Results as lists *)

(** A result with [ds] in front of its diagnostics. *)
Definition onto (ds : list Diagnostic) (r : result) : result :=
  match r with
  | Done out => Done (ds ++ out)
  | Thrown out => Thrown (ds ++ out)
  | Diverged => Diverged
  end.

(** The diagnostics a result holds. *)
Definition diags_of (r : result) : list Diagnostic :=
  match r with
  | Done out | Thrown out => out
  | Diverged => []
  end.

(** What the recursive call on the inner text of the pair [m] reports. *)
Definition inner_diags (fuel : nat) (fullText : jsstring) (r : regex)
  (m : jsstring) : list Diagnostic :=
  match inner_of r m with
  | Some inner => diags_of (validateNesting fuel inner fullText [] [])
  | None => []
  end.

(** A rule-6 diagnostic. *)
Definition span_only (d : Diagnostic) : Prop := message d = msg_span.


(** * Properties *)

(** ** The matcher reports only what the pattern derives *)

Lemma star_greedy_sound (R : Type) p s (k : jsstring -> option R) res :
  star_greedy p s k = Some res ->
  exists run s', s = run ++ s' /\ forallb p run = true /\ k s' = Some res.
Proof.
  induction s as [|x s IH]; simpl; intros H.
  - exists [], []. auto.
  - destruct (p x) eqn:Hp.
    + destruct (star_greedy p s k) eqn:Hg.
      * inversion H; subst. destruct (IH eq_refl) as (run & s' & -> & Hr & Hk).
        exists (x :: run), s'. simpl. rewrite Hp, Hr. auto.
      * exists [], (x :: s). auto.
    + exists [], (x :: s). auto.
Qed.

Lemma star_lazy_sound (R : Type) p s (k : jsstring -> option R) res :
  star_lazy p s k = Some res ->
  exists run s', s = run ++ s' /\ forallb p run = true /\ k s' = Some res.
Proof.
  induction s as [|x s IH]; simpl; intros H.
  - destruct (k []) eqn:Hk; [|discriminate]. exists [], []. rewrite Hk. auto.
  - destruct (k (x :: s)) eqn:Hk.
    + exists [], (x :: s). rewrite Hk. auto.
    + destruct (p x) eqn:Hp; [|discriminate].
      destruct (IH H) as (run & s' & -> & Hr & Hk').
      exists (x :: run), s'. simpl. rewrite Hp, Hr. auto.
Qed.

Lemma rmatch_sound (R : Type) r : forall s cap (k : cont R) res,
  rmatch r s cap k = Some res ->
  exists s' cap', derives r s s' cap cap' /\ k s' cap' = Some res.
Proof.
  induction r as [|c|p|g p|r IH|r1 IH1 r2 IH2|r IH]; simpl; intros s cap k res H.
  - exists s, cap. split; [constructor|auto].
  - destruct s as [|x s]; [discriminate|].
    destruct (chr_eq_i c x) eqn:E; [|discriminate].
    exists s, cap. split; [constructor; auto|auto].
  - destruct s as [|x s]; [discriminate|].
    destruct (p x) eqn:E; [|discriminate].
    exists s, cap. split; [constructor; auto|auto].
  - destruct g.
    + apply star_greedy_sound in H. destruct H as (run & s' & -> & Hr & Hk).
      exists s', cap. split; [constructor; auto|auto].
    + apply star_lazy_sound in H. destruct H as (run & s' & -> & Hr & Hk).
      exists s', cap. split; [constructor; auto|auto].
  - destruct (rmatch r s cap k) eqn:E.
    + inversion H; subst. apply IH in E. destruct E as (s' & cap' & Hd & Hk).
      exists s', cap'. split; [apply D_Opt_some; auto|auto].
    + exists s, cap. split; [apply D_Opt_none|auto].
  - apply IH1 in H. destruct H as (s1 & cap1 & Hd1 & H).
    apply IH2 in H. destruct H as (s2 & cap2 & Hd2 & H).
    exists s2, cap2. split; [econstructor; eauto|auto].
  - apply IH in H. destruct H as (s' & cap0 & Hd & H).
    eexists s', _. split; [econstructor; eauto|exact H].
Qed.

Lemma derives_suffix r s s' cap cap' :
  derives r s s' cap cap' ->
  exists pre, s = pre ++ s' /\ minlen r <= length pre.
Proof.
  induction 1; simpl.
  - exists []. auto.
  - exists [x]. auto.
  - exists [x]. auto.
  - exists run. split; [auto|lia].
  - destruct IHderives as (pre & -> & _). exists pre. split; [auto|lia].
  - exists []. auto.
  - destruct IHderives1 as (p1 & -> & H1). destruct IHderives2 as (p2 & -> & H2).
    exists (p1 ++ p2). rewrite <- app_assoc, length_app. split; [auto|lia].
  - exact IHderives.
Qed.

Lemma derives_no_group r s s' cap cap' :
  derives r s s' cap cap' -> has_group r = false -> cap' = cap.
Proof.
  induction 1; simpl; intros Hg; auto; try discriminate.
  apply orb_false_iff in Hg. destruct Hg as [H1 H2].
  rewrite IHderives2, IHderives1; auto.
Qed.

Lemma firstn_app_exact (A : Type) (a b : list A) :
  firstn (length (a ++ b) - length b) (a ++ b) = a.
Proof.
  rewrite length_app. replace (length a + length b - length b) with (length a) by lia.
  rewrite firstn_app, Nat.sub_diag, firstn_all. simpl. apply app_nil_r.
Qed.

(** The capture after a match: the one before it, or a piece of what was
    consumed. *)
Lemma derives_capture r s s' cap cap' :
  derives r s s' cap cap' ->
  cap' = cap \/
  exists a c b, cap' = Some c /\ s = a ++ c ++ b ++ s'.
Proof.
  induction 1; auto.
  - destruct IHderives2 as [->|(a & c & b & -> & ->)].
    + destruct IHderives1 as [->|(a & c & b & -> & ->)]; auto.
      right. apply derives_suffix in H0. destruct H0 as (pre & -> & _).
      exists a, c, (b ++ pre). split; auto. now rewrite <- !app_assoc.
    + right. apply derives_suffix in H. destruct H as (pre & -> & _).
      exists (pre ++ a), c, b. split; auto. now rewrite <- !app_assoc.
  - right. apply derives_suffix in H. destruct H as (pre & -> & _).
    exists [], pre, []. rewrite firstn_app_exact. auto.
Qed.

(** ** One attempt, a search, a global match *)

Lemma match_here_sound r s m :
  match_here r s = Some m ->
  exists s', derives r s s' None (m1 m) /\ s = m0 m ++ s' /\ index m = 0.
Proof.
  unfold match_here. intros H.
  destruct (rmatch r s None (fun s' cap => Some (s', cap))) as [[s' cap]|] eqn:E;
    [|discriminate].
  inversion H; subst; clear H. simpl.
  apply rmatch_sound in E. destruct E as (s1 & cap1 & Hd & Hk).
  inversion Hk; subst. exists s'. split; auto.
  destruct (derives_suffix Hd) as (pre & -> & _).
  rewrite firstn_app_exact. auto.
Qed.

Lemma search_sound r : forall s m,
  search r s = Some m ->
  exists s', derives r (skipn (index m) s) s' None (m1 m) /\
             skipn (index m) s = m0 m ++ s' /\ index m <= length s.
Proof.
  induction s as [|x s IH]; simpl; intros m H.
  - destruct (match_here r []) eqn:E; [|discriminate]. inversion H; subst.
    apply match_here_sound in E. destruct E as (s' & Hd & Hs & Hi).
    rewrite Hi. simpl. exists s'. auto with arith.
  - destruct (match_here r (x :: s)) eqn:E.
    + inversion H; subst. apply match_here_sound in E.
      destruct E as (s' & Hd & Hs & Hi). rewrite Hi. simpl. exists s'.
      auto with arith.
    + destruct (search r s) as [m'|] eqn:E'; [|discriminate].
      inversion H; subst. simpl. destruct (IH _ eq_refl) as (s' & Hd & Hs & Hi).
      exists s'. auto with arith.
Qed.

Lemma substring_of_length m s : substring_of m s -> length m <= length s.
Proof. intros (a & b & ->). rewrite !length_app. lia. Qed.

Lemma substring_of_trans a b c :
  substring_of a b -> substring_of b c -> substring_of a c.
Proof.
  intros (x & y & ->) (u & v & ->). exists (u ++ x), (y ++ v).
  now rewrite <- !app_assoc.
Qed.

Lemma substring_of_cons m x s : substring_of m s -> substring_of m (x :: s).
Proof. intros (a & b & ->). exists (x :: a), b. auto. Qed.

Lemma match_all_from_sound r : forall s skip m,
  In m (match_all_from r s skip) ->
  exists t res, match_here r t = Some res /\ m0 res = m /\
                exists a, s = a ++ t.
Proof.
  induction s as [|x s IH]; intros skip m H.
  - destruct skip; simpl in H; [|contradiction].
    destruct (match_here r []) as [res|] eqn:E; [|contradiction].
    destruct H as [<-|[]]. exists [], res. split; auto. split; auto. now exists [].
  - destruct skip; simpl in H.
    + destruct (match_here r (x :: s)) as [res|] eqn:E.
      * destruct H as [<-|H].
        -- exists (x :: s), res. split; auto. split; auto. now exists [].
        -- apply IH in H. destruct H as (t & res' & ? & ? & a & ->).
           exists t, res'. split; auto. split; auto. now exists (x :: a).
      * apply IH in H. destruct H as (t & res' & ? & ? & a & ->).
        exists t, res'. split; auto. split; auto. now exists (x :: a).
    + apply IH in H. destruct H as (t & res' & ? & ? & a & ->).
      exists t, res'. split; auto. split; auto. now exists (x :: a).
Qed.

Lemma match_all_substring r s m :
  In m (match_all r s) -> substring_of m s.
Proof.
  intros H. apply match_all_from_sound in H.
  destruct H as (t & res & Hm & <- & a & ->).
  apply match_here_sound in Hm. destruct Hm as (s' & _ & -> & _).
  exists a, s'. auto.
Qed.

Lemma match_g_Some r s ms : match_g r s = Some ms -> ms = match_all r s.
Proof.
  unfold match_g. destruct (match_all r s); [discriminate|]. congruence.
Qed.

Lemma match_g_None r s : match_g r s = None -> match_all r s = [].
Proof. unfold match_g. destruct (match_all r s); [auto|discriminate]. Qed.

(** ** Captures of the literals *)

Ltac inv H := inversion H; subst; clear H.

Lemma derives_seq_app l1 : forall l2 s s' cap cap',
  derives (seq (l1 ++ l2)) s s' cap cap' ->
  exists s1 cap1, derives (seq l1) s s1 cap cap1 /\
                  derives (seq l2) s1 s' cap1 cap'.
Proof.
  induction l1 as [|r l1 IH]; simpl; intros l2 s s' cap cap' H.
  - exists s, cap. split; [constructor|auto].
  - inv H. apply IH in H7. destruct H7 as (s2 & cap2 & Ha & Hb).
    exists s2, cap2. split; [econstructor; eauto|auto].
Qed.

Lemma lit_no_group name : has_group (lit name) = false.
Proof. unfold lit. induction (str name); simpl; auto. Qed.

Lemma openTag_no_group name : has_group (seq (openTag name)) = false.
Proof. simpl. now rewrite lit_no_group. Qed.

Lemma closeTag_no_group name : has_group (seq (closeTag name)) = false.
Proof. simpl. now rewrite lit_no_group. Qed.

Lemma strictly_inside_length c m : strictly_inside c m -> length c < length m.
Proof.
  intros (a & b & -> & Ha & Hb). rewrite !length_app.
  destruct a; [congruence|]. simpl. lia.
Qed.

Lemma strictly_inside_substring c m : strictly_inside c m -> substring_of c m.
Proof. intros (a & b & -> & _). now exists a, b. Qed.

Lemma length_pos_not_nil (A : Type) (l : list A) : 1 <= length l -> l <> [].
Proof. destruct l; simpl; [lia|congruence]. Qed.

(** A tag-pair match has its capture, between the opening and the closing
    tag. *)
Lemma pairRegexG_capture name s s' cap' :
  derives (pairRegexG name) s s' None cap' ->
  exists a c b, cap' = Some c /\ s = a ++ c ++ b ++ s' /\ a <> [] /\ b <> [].
Proof.
  unfold pairRegexG. intros H.
  apply derives_seq_app in H. destruct H as (s1 & cap1 & Hopen & H).
  apply derives_seq_app in H. destruct H as (s2 & cap2 & Hgrp & Hclose).
  simpl in Hgrp.
  repeat match goal with
         | H : derives (Seq _ _) _ _ _ _ |- _ => inv H
         | H : derives Eps _ _ _ _ |- _ => inv H
         | H : derives (Group _) _ _ _ _ |- _ => inv H
         end.
  pose proof (derives_no_group Hclose (closeTag_no_group name)) as ->.
  apply derives_suffix in Hopen. destruct Hopen as (a & -> & Ha).
  apply derives_suffix in Hclose. destruct Hclose as (b & -> & Hb).
  match goal with
  | H : derives (Star _ _) _ _ _ _ |- _ =>
      apply derives_suffix in H; destruct H as (c & -> & _)
  end.
  exists a, c, b. rewrite firstn_app_exact.
  split; [auto|]. split; [auto|].
  simpl in Ha, Hb. split; apply length_pos_not_nil; lia.
Qed.

Lemma match_1_pair name m res :
  match_1 (pairRegexG name) m = Some res ->
  exists inner, m1 res = Some inner /\ strictly_inside inner m.
Proof.
  intros H. apply search_sound in H. destruct H as (s' & Hd & Hs & _).
  apply pairRegexG_capture in Hd.
  destruct Hd as (a & c & b & Hc & Hs' & Ha & Hb).
  exists c. split; auto.
  exists (firstn (index res) m ++ a), (b ++ s').
  rewrite <- (firstn_skipn (index res) m) at 1. rewrite Hs'.
  rewrite <- !app_assoc. split; auto. split.
  - destruct a; [congruence|]. destruct (firstn (index res) m); discriminate.
  - destruct b; [congruence|]. discriminate.
Qed.

Lemma exec_html text lastIndex m lastIndex' :
  exec htmlRegex text lastIndex = Some (m, lastIndex') ->
  (exists content, m1 m = Some content /\ strictly_inside content text /\
                   lastIndex + length content < lastIndex') /\
  lastIndex < lastIndex' <= length text.
Proof.
  unfold exec. destruct (Nat.ltb (length text) lastIndex) eqn:E; [discriminate|].
  apply Nat.ltb_ge in E.
  destruct (search htmlRegex (skipn lastIndex text)) as [res|] eqn:Hs; [|discriminate].
  intros H. inv H. simpl.
  pose proof (match_1_pair "html" _ Hs) as (c & Hc & a & b & Hm & Ha & Hb).
  apply search_sound in Hs. destruct Hs as (s' & Hd & Hs & Hi).
  assert (Hl : length (skipn (index res) (skipn lastIndex text))
               = length (m0 res) + length s') by (rewrite Hs, length_app; auto).
  rewrite !length_skipn in Hl. rewrite length_skipn in Hi.
  pose proof (pairRegexG_capture Hd) as (a' & c' & b' & Hc' & Hs' & Ha' & _).
  split.
  - exists c. split; auto. split.
    + exists (firstn lastIndex text ++ a), b.
      rewrite <- (firstn_skipn lastIndex text) at 1. rewrite Hm.
      rewrite <- !app_assoc. split; auto. split; auto.
      destruct a; [congruence|]. destruct (firstn lastIndex text); discriminate.
    + rewrite Hc in Hc'. inv Hc'. rewrite Hs in Hs'.
      rewrite !app_assoc in Hs'. apply app_inv_tail in Hs'.
      rewrite Hs', !length_app. destruct a'; [congruence|]. simpl. lia.
  - apply derives_suffix in Hd. destruct Hd as (pre & Hp & Hlen).
    rewrite Hs in Hp. apply app_inv_tail in Hp. subst pre.
    simpl in Hlen. lia.
Qed.

Lemma alnum_alpha c : alpha c = true -> alnum c = true.
Proof. unfold alnum. now intros ->. Qed.

(** The tag name of a token: non-empty, ASCII letters and digits. *)
Lemma tagNameRegex_capture s s' cap' :
  derives tagNameRegex s s' None cap' ->
  exists c, cap' = Some c /\ c <> [] /\ forallb alnum c = true.
Proof.
  unfold tagNameRegex. simpl. intros H.
  repeat match goal with
         | H : derives (Seq _ _) _ _ _ _ |- _ => inv H
         | H : derives Eps _ _ _ _ |- _ => inv H
         | H : derives (Group _) _ _ _ _ |- _ => inv H
         | H : derives (Cls _) _ _ _ _ |- _ => inv H
         | H : derives (Star _ alnum) _ _ _ _ |- _ => inv H
         end.
  eexists. split; [reflexivity|].
  change (x :: run ++ s') with ((x :: run) ++ s').
  rewrite firstn_app_exact. split; [discriminate|].
  simpl. match goal with H : alpha x = true |- _ => rewrite (alnum_alpha _ H) end.
  auto.
Qed.

Lemma tagName_capture_alnum element tagName :
  match_1 tagNameRegex element = Some tagName ->
  exists n, m1 tagName = Some n /\ n <> [] /\ forallb alnum n = true.
Proof.
  intros H. apply search_sound in H. destruct H as (s' & Hd & _).
  now apply tagNameRegex_capture in Hd.
Qed.

Lemma search_here r s m : match_here r s = Some m -> search r s = Some m.
Proof. intros H. destruct s; simpl; now rewrite H. Qed.

(** ** Matching a matched text again

    The validators match a pattern globally, then match each matched text
    with the pattern once more for its capture.  The second match is the
    first one again: a match does not depend on what follows it. *)

Section Truncation.

Variable rest : jsstring.

Lemma star_greedy_end p (K : jsstring -> option found) :
  (forall u e c, K u = Some (e, c) -> length e <= length u) ->
  forall u e c, star_greedy p u K = Some (e, c) ->
  K u = Some (e, c) \/ length e < length u.
Proof.
  intros HK. induction u as [|x u IH]; simpl; intros e c H; auto.
  destruct (p x); auto.
  destruct (star_greedy p u K) as [[e' c']|] eqn:E; auto.
  inv H. right. destruct (IH _ _ eq_refl) as [H|H]; [apply HK in H|]; lia.
Qed.

Lemma star_greedy_none p (K : jsstring -> option found) u :
  star_greedy p u K = None -> K u = None.
Proof.
  destruct u as [|x u]; simpl; auto. destruct (p x); auto.
  destruct (star_greedy p u K); [discriminate|auto].
Qed.

Lemma trunc_star_greedy p (K K' : jsstring -> option found) :
  (forall u e c, K u = Some (e, c) -> length e <= length u) ->
  (forall t, sim_res rest (K (t ++ rest)) (K' t)) ->
  forall s, sim_res rest (star_greedy p (s ++ rest) K) (star_greedy p s K').
Proof.
  intros HK Hs. induction s as [|x s IH].
  - simpl. specialize (Hs []). simpl in Hs.
    destruct (star_greedy p rest K) as [[e c]|] eqn:E; simpl.
    + intros t ->. apply star_greedy_end in E; auto.
      destruct E as [E|E]; [|rewrite length_app in E; lia].
      rewrite E in Hs. now apply Hs.
    + apply star_greedy_none in E. now rewrite E in Hs.
  - simpl. destruct (p x); [|apply (Hs (x :: s))].
    destruct (star_greedy p (s ++ rest) K) as [[e c]|] eqn:E; simpl in IH |- *.
    + intros t Ht. now rewrite (IH t Ht).
    + rewrite IH. apply (Hs (x :: s)).
Qed.

Lemma star_lazy_end p (K : jsstring -> option found) :
  (forall u e c, K u = Some (e, c) -> length e <= length u) ->
  forall u e c, star_lazy p u K = Some (e, c) ->
  K u = Some (e, c) \/ length e < length u.
Proof.
  intros HK u e c H. destruct u as [|x u]; simpl in H.
  - destruct (K []); [auto|discriminate].
  - destruct (K (x :: u)); [auto|]. destruct (p x); [|discriminate].
    right. apply star_lazy_sound in H. destruct H as (run & s' & -> & _ & Hk).
    apply HK in Hk. simpl. rewrite length_app. lia.
Qed.

Lemma star_lazy_none p (K : jsstring -> option found) u :
  star_lazy p u K = None -> K u = None.
Proof.
  destruct u as [|x u]; simpl.
  - destruct (K []); [discriminate|auto].
  - destruct (K (x :: u)); [discriminate|auto].
Qed.

Lemma trunc_star_lazy p (K K' : jsstring -> option found) :
  (forall u e c, K u = Some (e, c) -> length e <= length u) ->
  (forall t, sim_res rest (K (t ++ rest)) (K' t)) ->
  forall s, sim_res rest (star_lazy p (s ++ rest) K) (star_lazy p s K').
Proof.
  intros HK Hs. induction s as [|x s IH].
  - specialize (Hs []). simpl in Hs.
    change (sim_res rest (star_lazy p rest K)
              (match K' [] with Some r => Some r | None => None end)).
    destruct (star_lazy p rest K) as [[e c]|] eqn:E; simpl.
    + intros t ->. apply star_lazy_end in E; auto.
      destruct E as [E|E]; [|rewrite length_app in E; lia].
      rewrite E in Hs. now rewrite (Hs t eq_refl).
    + apply star_lazy_none in E. rewrite E in Hs. simpl in Hs. now rewrite Hs.
  - simpl. specialize (Hs (x :: s)) as Hx. simpl in Hx.
    destruct (K (x :: s ++ rest)) as [[e c]|] eqn:E; simpl in Hx |- *.
    + intros t Ht. now rewrite (Hx t Ht).
    + rewrite Hx. destruct (p x); [exact IH|reflexivity].
Qed.

Lemma rmatch_mono r (k : cont found) : mono k ->
  mono (fun s' c => rmatch r s' c k).
Proof.
  intros Hk u cap e c H. apply rmatch_sound in H.
  destruct H as (s' & cap' & Hd & H). apply Hk in H.
  apply derives_suffix in Hd. destruct Hd as (pre & -> & _).
  rewrite length_app. lia.
Qed.

Lemma rmatch_consumes r (k : cont found) u cap e c :
  mono k -> rmatch r u cap k = Some (e, c) -> length e + minlen r <= length u.
Proof.
  intros Hk H. apply rmatch_sound in H.
  destruct H as (s' & cap' & Hd & H). apply Hk in H.
  apply derives_suffix in Hd. destruct Hd as (pre & -> & Hp).
  rewrite length_app. lia.
Qed.

Lemma trunc_rmatch r : forall s cap (k k' : cont found),
  mono k -> sim rest k k' ->
  sim_res rest (rmatch r (s ++ rest) cap k) (rmatch r s cap k').
Proof.
  induction r as [|c|p|g p|r IH|r1 IH1 r2 IH2|r IH]; intros s cap k k' Hm Hs.
  - apply Hs.
  - destruct s as [|x s].
    + simpl app. destruct (rmatch (Chr c) rest cap k) as [[e c']|] eqn:E;
        simpl; auto.
      intros t ->. apply rmatch_consumes in E; auto.
      simpl in E. rewrite length_app in E. lia.
    + simpl. destruct (chr_eq_i c x); simpl; auto; apply Hs.
  - destruct s as [|x s].
    + simpl app. destruct (rmatch (Cls p) rest cap k) as [[e c']|] eqn:E;
        simpl; auto.
      intros t ->. apply rmatch_consumes in E; auto.
      simpl in E. rewrite length_app in E. lia.
    + simpl. destruct (p x); simpl; auto; apply Hs.
  - destruct g; simpl.
    + apply trunc_star_greedy; [intros u e c; apply Hm|intros t; apply Hs].
    + apply trunc_star_lazy; [intros u e c; apply Hm|intros t; apply Hs].
  - simpl. specialize (IH s cap k k' Hm Hs).
    destruct (rmatch r (s ++ rest) cap k) as [[e c]|] eqn:E; simpl in IH |- *.
    + intros t Ht. now rewrite (IH t Ht).
    + rewrite IH. apply Hs.
  - simpl. apply IH1.
    + now apply rmatch_mono.
    + intros t cap'. now apply IH2.
  - simpl. apply IH.
    + intros u cap' e c. apply Hm.
    + intros t cap'.
      replace (firstn (length (s ++ rest) - length (t ++ rest)) (s ++ rest))
        with (firstn (length s - length t) s); [apply Hs|].
      rewrite !length_app.
      replace (length s + length rest - (length t + length rest))
        with (length s - length t) by lia.
      rewrite firstn_app.
      replace (length s - length t - length s) with 0 by lia.
      simpl. now rewrite app_nil_r.
Qed.

End Truncation.

(** A match at the start of [m ++ rest] with text [m] is the match at the
    start of [m] alone. *)
Lemma match_here_again r m rest res :
  match_here r (m ++ rest) = Some res -> m0 res = m ->
  match_here r m = Some res.
Proof.
  intros H Hm. unfold match_here in *.
  pose proof (@trunc_rmatch rest r m None (fun s' cap => Some (s', cap))
                (fun s' cap => Some (s', cap))) as Ht.
  destruct (rmatch r (m ++ rest) None (fun s' cap => Some (s', cap)))
    as [[e c]|] eqn:E; [|discriminate].
  injection H as Hres. rewrite <- Hres in Hm |- *. simpl in Hm. clear Hres.
  assert (He : e = rest).
  { apply rmatch_sound in E. destruct E as (s1 & c1 & Hd & Hk). inv Hk.
    apply derives_suffix in Hd. destruct Hd as (pre & Hp & _).
    rewrite Hp, firstn_app_exact in Hm. subst pre.
    now apply app_inv_head in Hp. }
  subst e.
  assert (Hr : rmatch r m None (fun s' cap => Some (s', cap)) = Some ([], c)).
  { assert (H1 : mono (fun s' cap => Some (s', cap)))
      by (intros u cap e c' Hk; inv Hk; lia).
    assert (H2 : sim rest (fun s' cap => Some (s', cap))
                   (fun s' cap => Some (s', cap)))
      by (intros t cap t' Hk; apply app_inv_tail in Hk; now subst).
    specialize (Ht H1 H2). unfold sim_res, found in Ht. rewrite E in Ht.
    exact (Ht [] eq_refl). }
  rewrite Hr. simpl. rewrite Nat.sub_0_r, firstn_all. now rewrite firstn_app_exact.
Qed.

(** Every text a global match reports, matched alone, is found at index 0
    in whole. *)
Lemma match_all_again r s m :
  In m (match_all r s) ->
  exists res, match_1 r m = Some res /\ m0 res = m /\ index res = 0.
Proof.
  intros H. apply match_all_from_sound in H.
  destruct H as (t & res & Hh & Hm & a & ->).
  pose proof (match_here_sound _ _ Hh) as (s' & _ & Hs & Hi).
  rewrite Hs, Hm in Hh. apply match_here_again in Hh; auto.
  exists res. split; [now apply search_here|auto].
Qed.

Lemma match_all_from_0_cons r x s :
  match_all_from r (x :: s) 0
  = match match_here r (x :: s) with
    | Some m => m0 m :: match_all_from r s (length (m0 m) - 1)
    | None => match_all_from r s 0
    end.
Proof. reflexivity. Qed.

Lemma same_end_star_greedy p (K1 K2 : jsstring -> option found) :
  (forall u, same_end (K1 u) (K2 u)) ->
  forall s, same_end (star_greedy p s K1) (star_greedy p s K2).
Proof.
  intros HK. induction s as [|x s IH]; simpl; auto.
  destruct (p x); auto.
  destruct (star_greedy p s K1) as [[e1 c1]|], (star_greedy p s K2) as [[e2 c2]|];
    simpl in IH; auto; contradiction.
Qed.

Lemma same_end_star_lazy p (K1 K2 : jsstring -> option found) :
  (forall u, same_end (K1 u) (K2 u)) ->
  forall s, same_end (star_lazy p s K1) (star_lazy p s K2).
Proof.
  intros HK. induction s as [|x s IH]; simpl.
  - specialize (HK []). destruct (K1 []) as [[e1 c1]|], (K2 []) as [[e2 c2]|];
      simpl in *; auto.
  - specialize (HK (x :: s)).
    destruct (K1 (x :: s)) as [[e1 c1]|], (K2 (x :: s)) as [[e2 c2]|];
      simpl in *; auto; try contradiction.
    destruct (p x); simpl; auto.
Qed.

Lemma same_end_ungroup r : forall s c1 c2 (k1 k2 : cont found),
  (forall u a b, same_end (k1 u a) (k2 u b)) ->
  same_end (rmatch (ungroup r) s c1 k1) (rmatch r s c2 k2).
Proof.
  induction r as [|c|p|g p|r IH|r1 IH1 r2 IH2|r IH]; intros s c1 c2 k1 k2 Hk; simpl.
  - apply Hk.
  - destruct s as [|x s]; simpl; auto. destruct (chr_eq_i c x); simpl; auto.
  - destruct s as [|x s]; simpl; auto. destruct (p x); simpl; auto.
  - destruct g; [apply same_end_star_greedy|apply same_end_star_lazy]; auto.
  - specialize (IH s c1 c2 k1 k2 Hk).
    destruct (rmatch (ungroup r) s c1 k1) as [[e1 a1]|],
             (rmatch r s c2 k2) as [[e2 a2]|]; simpl in IH |- *; auto;
      contradiction.
  - apply IH1. intros u a b. now apply IH2.
  - apply IH. intros u a b. apply Hk.
Qed.

Lemma ungroup_no_group r : has_group r = false -> ungroup r = r.
Proof.
  induction r; simpl; intros H; auto; try discriminate.
  - now rewrite IHr.
  - apply orb_false_iff in H. destruct H. now rewrite IHr1, IHr2.
Qed.

Lemma pairRegexG_ungroup name : ungroup (pairRegexG name) = pairRegex name.
Proof.
  unfold pairRegexG, pairRegex. simpl.
  now rewrite !(ungroup_no_group (lit name) (lit_no_group name)).
Qed.

(** With its group or without, a tag-pair pattern reports the same text. *)
Lemma match_here_group name s :
  match match_here (pairRegex name) s, match_here (pairRegexG name) s with
  | Some a, Some b => m0 a = m0 b
  | None, None => True
  | _, _ => False
  end.
Proof.
  unfold match_here. rewrite <- pairRegexG_ungroup.
  pose proof (@same_end_ungroup (pairRegexG name) s None None
                (fun s' cap => Some (s', cap)) (fun s' cap => Some (s', cap))) as H.
  unfold found in H.
  destruct (rmatch (ungroup (pairRegexG name)) s None (fun s' cap => Some (s', cap)))
    as [[e1 a1]|],
    (rmatch (pairRegexG name) s None (fun s' cap => Some (s', cap))) as [[e2 a2]|];
    simpl in H |- *; try (apply H; intros; reflexivity).
  rewrite (H ltac:(intros; reflexivity)). reflexivity.
Qed.

Lemma match_all_group name s :
  match_all (pairRegex name) s = match_all (pairRegexG name) s.
Proof.
  unfold match_all. generalize 0. induction s as [|x s IH]; intros skip.
  - destruct skip; reflexivity.
  - destruct skip; [|simpl; apply IH].
    rewrite !match_all_from_0_cons. pose proof (match_here_group name (x :: s)) as H.
    destruct (match_here (pairRegex name) (x :: s)),
             (match_here (pairRegexG name) (x :: s)); try contradiction; auto.
    now rewrite H, IH.
Qed.

(** ** Loops over matches *)

Lemma for_each_filter (A : Type) (body : A -> list Diagnostic -> result)
  (f : A -> bool) (g : A -> Diagnostic) :
  (forall x ds, body x ds = Done (if f x then push ds (g x) else ds)) ->
  forall l ds, for_each body l ds = Done (ds ++ map g (filter f l)).
Proof.
  intros Hb. induction l as [|x l IH]; simpl; intros ds.
  - now rewrite app_nil_r.
  - rewrite Hb. simpl. rewrite IH. destruct (f x); auto.
    unfold push. simpl. now rewrite <- app_assoc.
Qed.

Lemma for_matches_filter (body : jsstring -> list Diagnostic -> result)
  (f : jsstring -> bool) (g : jsstring -> Diagnostic) r s :
  (forall x ds, body x ds = Done (if f x then push ds (g x) else ds)) ->
  forall ds, for_matches body (match_g r s) ds
             = Done (ds ++ map g (filter f (match_all r s))).
Proof.
  intros Hb ds. destruct (match_g r s) as [ms|] eqn:E; simpl.
  - apply match_g_Some in E. subst. now apply for_each_filter.
  - apply match_g_None in E. rewrite E. simpl. now rewrite app_nil_r.
Qed.

Lemma appends_bind P ds r f :
  appends P ds r -> (forall ds', appends P ds' (f ds')) -> appends P ds (bind r f).
Proof.
  intros (n1 & -> & H1) Hf. simpl. destruct (Hf (ds ++ n1)) as (n2 & -> & H2).
  exists (n1 ++ n2). rewrite app_assoc. split; auto. now apply Forall_app.
Qed.

Lemma appends_weaken (P Q : Diagnostic -> Prop) ds r :
  (forall d, P d -> Q d) -> appends P ds r -> appends Q ds r.
Proof.
  intros H (n & -> & Hn). exists n. split; auto. eapply Forall_impl; eauto.
Qed.

Lemma appends_Done P ds : appends P ds (Done ds).
Proof. exists []. now rewrite app_nil_r. Qed.

Lemma for_each_appends (A : Type) P (body : A -> list Diagnostic -> result) l :
  (forall x, In x l -> forall ds, appends P ds (body x ds)) ->
  forall ds, appends P ds (for_each body l ds).
Proof.
  induction l as [|x l IH]; simpl; intros Hb ds.
  - apply appends_Done.
  - apply appends_bind; auto.
Qed.

Lemma for_matches_appends P (body : jsstring -> list Diagnostic -> result) r s :
  (forall x, In x (match_all r s) -> forall ds, appends P ds (body x ds)) ->
  forall ds, appends P ds (for_matches body (match_g r s) ds).
Proof.
  intros Hb ds. destruct (match_g r s) as [ms|] eqn:E; simpl.
  - apply match_g_Some in E. subst. now apply for_each_appends.
  - apply appends_Done.
Qed.

(** ** The content validators, token by token *)

Lemma check_element_spec allowed msg fullText element ds :
  check_element allowed msg fullText element ds
  = Done (if flagged allowed element
          then push ds (element_diag msg fullText element) else ds).
Proof.
  unfold check_element, flagged, tag_name_of.
  destruct (match_1 tagNameRegex element) as [tagName|] eqn:E; auto.
  destruct (tagName_capture_alnum _ E) as (n & -> & _).
  destruct (negb _ && negb _); auto.
Qed.

Lemma validateHeadContent_spec headContent fullText ds :
  validateHeadContent headContent fullText ds
  = Done (ds ++ map (element_diag msg_head fullText)
                  (filter (flagged head_allowed)
                     (match_all tagTokenRegex headContent))).
Proof.
  unfold validateHeadContent. apply for_matches_filter.
  intros. apply check_element_spec.
Qed.

Lemma bodyElements_spec bodyContent fullText ds :
  bodyElements bodyContent fullText ds
  = Done (ds ++ map (element_diag msg_body fullText)
                  (filter (flagged body_allowed)
                     (match_all tagTokenRegex bodyContent))).
Proof.
  unfold bodyElements. apply for_matches_filter.
  intros. apply check_element_spec.
Qed.

(** ** The nesting validator, level by level *)

(** Each match of a tag-pair pattern has its inner text: matched again with
    the group, its text gives a capture that lies strictly inside it. *)
Lemma pair_inner name content m :
  In m (match_all (pairRegexG name) content) ->
  exists inner, inner_of (pairRegexG name) m = Some inner /\
                strictly_inside inner m.
Proof.
  intros H. apply match_all_again in H. destruct H as (res & Hm & _).
  unfold inner_of. rewrite Hm. now apply match_1_pair in Hm.
Qed.

Lemma check_title_spec fullText titleMatch ds :
  check_title fullText titleMatch ds
  = Done (if title_violation titleMatch
          then push ds (title_diag fullText titleMatch) else ds).
Proof.
  unfold check_title, title_violation, inner_of.
  destruct (match_1 titleRegex titleMatch) as [res|] eqn:E; auto.
  destruct (match_1_pair "title" _ E) as (inner & -> & _).
  destruct (includes inner (str "<")); auto.
Qed.

Lemma check_span_spec fullText spanMatch ds :
  check_span fullText spanMatch ds
  = Done (if span_violation spanMatch
          then push ds (span_diag fullText spanMatch) else ds).
Proof.
  unfold check_span, span_violation, inner_of.
  destruct (match_1 spanRegexG spanMatch) as [res|] eqn:E; auto.
  destruct (match_1_pair "span" _ E) as (inner & -> & _).
  unfold match_g. destruct (match_all divOpenRegex inner); auto.
Qed.

Lemma validateNesting_S fuel content fullText ds context :
  validateNesting (S fuel) content fullText ds context
  = descents fuel content fullText context
      (ds ++ title_part fullText content ++ span_part fullText content).
Proof.
  cbn [validateNesting].
  rewrite (@for_matches_filter _ _ _ titleRegex content (check_title_spec fullText)).
  cbn [bind].
  rewrite (@for_matches_filter _ _ _ spanRegex content (check_span_spec fullText)).
  cbn [bind].
  unfold descents, title_part, span_part. now rewrite <- app_assoc.
Qed.

Lemma title_part_msgs fullText content :
  Forall nesting_msg (title_part fullText content).
Proof.
  unfold title_part. apply Forall_forall. intros d H.
  apply in_map_iff in H. destruct H as (m & <- & _). split; simpl; auto.
Qed.

Lemma span_part_msgs fullText content :
  Forall nesting_msg (span_part fullText content).
Proof.
  unfold span_part. apply Forall_forall. intros d H.
  apply in_map_iff in H. destruct H as (m & <- & _). split; simpl; auto.
Qed.

Lemma descend_appends P name recur m ds :
  (forall inner, strictly_inside inner m -> forall ds', appends P ds' (recur inner ds')) ->
  appends P ds (descend (pairRegexG name) recur m ds).
Proof.
  intros Hr. unfold descend.
  destruct (match_1 (pairRegexG name) m) as [res|] eqn:E; [|apply appends_Done].
  destruct (match_1_pair _ _ E) as (inner & -> & Hin). auto.
Qed.

(** With more fuel than the fragment is long, [validateNesting] ends
    normally and has only appended nesting diagnostics. *)
Lemma validateNesting_appends : forall fuel content fullText ds context,
  length content < fuel ->
  appends nesting_msg ds (validateNesting fuel content fullText ds context).
Proof.
  induction fuel as [|fuel IH]; intros content fullText ds context Hlen; [lia|].
  rewrite validateNesting_S.
  assert (Hrec : forall name ctx m, In m (match_all (pairRegexG name) content) ->
            forall ds', appends nesting_msg ds'
              (descend (pairRegexG name)
                 (fun inner ds0 => validateNesting fuel inner fullText ds0 ctx) m ds')).
  { intros name ctx m Hm ds'. apply descend_appends. intros inner Hin ds0.
    apply IH. apply strictly_inside_length in Hin.
    apply match_all_substring, substring_of_length in Hm. lia. }
  unfold descents.
  destruct (for_matches_appends (P := nesting_msg)
              (descend divRegexG
                 (fun inner ds0 => validateNesting fuel inner fullText ds0
                                     (context ++ ["div"%string])))
              divRegexG content (Hrec "div"%string _)
              (ds ++ title_part fullText content ++ span_part fullText content))
    as (n1 & -> & H1).
  simpl.
  destruct (for_matches_appends (P := nesting_msg)
              (descend spanRegexG
                 (fun inner ds0 => validateNesting fuel inner fullText ds0
                                     (context ++ ["span"%string])))
              spanRegexG content (Hrec "span"%string _)
              ((ds ++ title_part fullText content ++ span_part fullText content) ++ n1))
    as (n2 & -> & H2).
  exists ((title_part fullText content ++ span_part fullText content) ++ n1 ++ n2).
  split; [now rewrite <- !app_assoc|].
  apply Forall_app; split; [apply Forall_app; split|apply Forall_app; split];
    auto using title_part_msgs, span_part_msgs.
Qed.

(** ** Fuel

    The result does not depend on the fuel once the fuel exceeds the length
    of the text. *)

Lemma for_each_ext (A : Type) (body body' : A -> list Diagnostic -> result) l :
  (forall x, In x l -> forall ds, body x ds = body' x ds) ->
  forall ds, for_each body l ds = for_each body' l ds.
Proof.
  induction l as [|x l IH]; simpl; intros Hb ds; auto.
  rewrite Hb by auto. destruct (body' x ds); simpl; auto.
Qed.

Lemma for_matches_ext (body body' : jsstring -> list Diagnostic -> result) r s :
  (forall x, In x (match_all r s) -> forall ds, body x ds = body' x ds) ->
  forall ds, for_matches body (match_g r s) ds = for_matches body' (match_g r s) ds.
Proof.
  intros Hb ds. destruct (match_g r s) as [ms|] eqn:E; simpl; auto.
  apply match_g_Some in E. subst. now apply for_each_ext.
Qed.

Lemma descend_ext name recur recur' m ds :
  (forall inner, strictly_inside inner m -> forall ds', recur inner ds' = recur' inner ds') ->
  descend (pairRegexG name) recur m ds = descend (pairRegexG name) recur' m ds.
Proof.
  intros Hr. unfold descend.
  destruct (match_1 (pairRegexG name) m) as [res|] eqn:E; auto.
  destruct (match_1_pair _ _ E) as (inner & -> & Hin). auto.
Qed.

Lemma validateNesting_fuel : forall f1 f2 content fullText ds context,
  length content < f1 -> length content < f2 ->
  validateNesting f1 content fullText ds context
  = validateNesting f2 content fullText ds context.
Proof.
  induction f1 as [|f1 IH]; intros f2 content fullText ds context H1 H2; [lia|].
  destruct f2 as [|f2]; [lia|]. rewrite !validateNesting_S.
  assert (Hrec : forall name ctx m, In m (match_all (pairRegexG name) content) ->
            forall ds',
              descend (pairRegexG name)
                (fun inner ds0 => validateNesting f1 inner fullText ds0 ctx) m ds'
              = descend (pairRegexG name)
                (fun inner ds0 => validateNesting f2 inner fullText ds0 ctx) m ds').
  { intros name ctx m Hm ds'. apply descend_ext. intros inner Hin ds0.
    apply strictly_inside_length in Hin.
    apply match_all_substring, substring_of_length in Hm. apply IH; lia. }
  unfold descents.
  rewrite (for_matches_ext _ _ divRegexG content (Hrec "div"%string _)).
  destruct (for_matches _ (match_g divRegexG content) _); simpl; auto.
  apply (for_matches_ext _ _ spanRegexG content (Hrec "span"%string _)).
Qed.

(** ** One html match *)

Lemma check_count_app tag msg n content text ds :
  check_count tag msg n content text ds
  = ds ++ check_count tag msg n content text [].
Proof.
  unfold check_count. destruct (negb (n =? 1)); simpl; auto using app_nil_r.
Qed.

Lemma validateHeadContent_appends headContent fullText ds :
  appends head_msg ds (validateHeadContent headContent fullText ds).
Proof.
  rewrite validateHeadContent_spec. eexists. split; [reflexivity|].
  apply Forall_forall. intros d H. apply in_map_iff in H.
  destruct H as (e & <- & _). reflexivity.
Qed.

Lemma validateBodyContent_appends fuel bodyContent fullText ds :
  length bodyContent < fuel ->
  appends body_msg ds (validateBodyContent fuel bodyContent fullText ds).
Proof.
  intros Hlen. unfold validateBodyContent. apply appends_bind.
  - rewrite bodyElements_spec. eexists. split; [reflexivity|].
    apply Forall_forall. intros d H. apply in_map_iff in H.
    destruct H as (e & <- & _). left. reflexivity.
  - intros ds'. eapply appends_weaken; [|apply validateNesting_appends; auto].
    intros d (_ & [H|H]); right; auto.
Qed.

Lemma when_single_appends P validate r content ds :
  (forall m, In m (match_all r content) -> forall ds', appends P ds' (validate m ds')) ->
  appends P ds (when_single validate (match_g r content) ds).
Proof.
  intros Hv. unfold when_single.
  destruct (match_g r content) as [ms|] eqn:E; [|apply appends_Done].
  apply match_g_Some in E.
  destruct ms as [|m [|m' ms]]; try apply appends_Done.
  apply Hv. rewrite <- E. now left.
Qed.

(** The diagnostics of [html_match]: the cardinality ones, those of the head
    validator, those of the body validator. *)
Lemma html_match_spec fuel text m content ds :
  m1 m = Some content -> length content < fuel ->
  exists hp bp,
    html_match fuel text m ds
    = Done (ds
            ++ check_count "<head" msg_head_count
                 (count (match_g headRegex content)) content text []
            ++ check_count "<body" msg_body_count
                 (count (match_g bodyRegex content)) content text []
            ++ hp ++ bp)
    /\ Forall head_msg hp /\ Forall body_msg bp.
Proof.
  intros Hc Hlen. unfold html_match. rewrite Hc.
  rewrite (check_count_app "<body"), (check_count_app "<head").
  set (ds1 := (ds ++ _) ++ _).
  destruct (@when_single_appends head_msg
              (fun h ds0 => validateHeadContent h text ds0) headRegex content ds1)
    as (hp & -> & Hhp).
  { intros h _ ds'. apply validateHeadContent_appends. }
  simpl.
  destruct (@when_single_appends body_msg
              (fun b ds0 => validateBodyContent fuel b text ds0) bodyRegex content
              (ds1 ++ hp))
    as (bp & -> & Hbp).
  { intros b Hb ds'. apply validateBodyContent_appends.
    apply match_all_substring, substring_of_length in Hb. lia. }
  exists hp, bp. subst ds1. rewrite <- !app_assoc. auto.
Qed.

Lemma html_match_fuel f1 f2 text m content ds :
  m1 m = Some content -> length content < f1 -> length content < f2 ->
  html_match f1 text m ds = html_match f2 text m ds.
Proof.
  intros Hc H1 H2. unfold html_match. rewrite Hc.
  destruct (when_single _ (match_g headRegex content) _); simpl; auto.
  unfold when_single. destruct (match_g bodyRegex content) as [ms|] eqn:E; auto.
  apply match_g_Some in E. destruct ms as [|b [|b' ms]]; auto.
  assert (Hb : In b (match_all bodyRegex content)) by (rewrite <- E; now left).
  apply match_all_substring, substring_of_length in Hb.
  unfold validateBodyContent. destruct (bodyElements b text diagnostics); simpl; auto.
  apply validateNesting_fuel; lia.
Qed.

(** ** The loop over the html matches *)

Lemma html_loop_appends : forall fuel text lastIndex ds,
  lastIndex <= length text -> length text + 2 <= fuel + lastIndex ->
  appends (fun _ => True) ds (html_loop fuel text lastIndex ds).
Proof.
  induction fuel as [|fuel IH]; intros text lastIndex ds Hi Hf; [lia|].
  simpl. destruct (exec htmlRegex text lastIndex) as [[m li']|] eqn:E;
    [|apply appends_Done].
  destruct (exec_html _ _ E) as ((content & Hc & _ & Hin) & Hli).
  apply appends_bind.
  - destruct (@html_match_spec fuel text m content ds Hc) as (hp & bp & -> & _);
      [lia|].
    eexists. split; [reflexivity|]. apply Forall_forall. auto.
  - intros ds'. apply IH; lia.
Qed.

Lemma html_loop_fuel : forall f1 f2 text lastIndex ds,
  lastIndex <= length text ->
  length text + 2 <= f1 + lastIndex -> length text + 2 <= f2 + lastIndex ->
  html_loop f1 text lastIndex ds = html_loop f2 text lastIndex ds.
Proof.
  induction f1 as [|f1 IH]; intros f2 text lastIndex ds Hi H1 H2; [lia|].
  destruct f2 as [|f2]; [lia|]. simpl.
  destruct (exec htmlRegex text lastIndex) as [[m li']|] eqn:E; auto.
  destruct (exec_html _ _ E) as ((content & Hc & _ & Hin) & Hli).
  rewrite (@html_match_fuel f1 f2 text m content) by (auto; lia).
  destruct (html_match f2 text m ds); simpl; auto. apply IH; lia.
Qed.

(** The pass ends normally: nothing throws, the fuel suffices. *)
Lemma try_block_Done fuel text :
  length text + 2 <= fuel -> exists ds, try_block fuel text = Done ds.
Proof.
  intros Hf. unfold try_block.
  destruct (@html_loop_appends fuel text 0 (rule1_end text (rule1_start text [])))
    as (new & -> & _); [lia|lia|]. eauto.
Qed.

Lemma try_block_fuel f1 f2 text :
  length text + 2 <= f1 -> length text + 2 <= f2 ->
  try_block f1 text = try_block f2 text.
Proof. intros H1 H2. unfold try_block. apply html_loop_fuel; lia. Qed.

Lemma validate_Done fuel text ds :
  try_block fuel text = Done ds -> validate fuel text = Some ds.
Proof. unfold validate, validateTextDocument. simpl. now intros ->. Qed.

(** ** Results only grow *)

Lemma extends_bind ds r f :
  extends ds r -> (forall ds', extends ds' (f ds')) -> extends ds (bind r f).
Proof.
  destruct r as [out|out|]; simpl; auto.
  intros (n1 & ->) Hf. specialize (Hf (ds ++ n1)).
  destruct (f (ds ++ n1)); simpl in *; auto;
    destruct Hf as (n2 & ->); exists (n1 ++ n2); now rewrite app_assoc.
Qed.

Lemma extends_refl ds : extends ds (Done ds).
Proof. exists []. now rewrite app_nil_r. Qed.

Lemma for_each_extends (A : Type) (body : A -> list Diagnostic -> result) l :
  (forall x ds, extends ds (body x ds)) ->
  forall ds, extends ds (for_each body l ds).
Proof.
  intros Hb. induction l as [|x l IH]; simpl; intros ds.
  - apply extends_refl.
  - apply extends_bind; auto.
Qed.

Lemma for_matches_extends (body : jsstring -> list Diagnostic -> result) ms :
  (forall x ds, extends ds (body x ds)) ->
  forall ds, extends ds (for_matches body ms ds).
Proof.
  intros Hb ds. destruct ms; simpl; [now apply for_each_extends|apply extends_refl].
Qed.

Lemma descend_extends r recur m ds :
  (forall inner ds', extends ds' (recur inner ds')) ->
  extends ds (descend r recur m ds).
Proof.
  intros Hr. unfold descend. destruct (match_1 r m) as [res|]; [|apply extends_refl].
  destruct (m1 res); [apply Hr|]. exists []. now rewrite app_nil_r.
Qed.

Lemma validateNesting_extends : forall fuel content fullText ds context,
  extends ds (validateNesting fuel content fullText ds context).
Proof.
  induction fuel as [|fuel IH]; intros; simpl; auto.
  apply extends_bind.
  { apply for_matches_extends. intros x ds'. rewrite check_title_spec.
    destruct (title_violation x); [now exists [title_diag fullText x]|apply extends_refl]. }
  intros ds1. apply extends_bind.
  { apply for_matches_extends. intros x ds'. rewrite check_span_spec.
    destruct (span_violation x); [now exists [span_diag fullText x]|apply extends_refl]. }
  intros ds2. apply extends_bind.
  { apply for_matches_extends. intros x ds'. apply descend_extends. intros. apply IH. }
  intros ds3. apply for_matches_extends. intros x ds'. apply descend_extends.
  intros. apply IH.
Qed.

(** What a loop passes through: each element is run, and what it returned
    is kept in the final array. *)
Lemma for_each_In (A : Type) (body : A -> list Diagnostic -> result) l :
  (forall x ds, extends ds (body x ds)) ->
  forall ds out x, for_each body l ds = Done out -> In x l ->
  exists ds1 out1 suf, body x ds1 = Done out1 /\ out = out1 ++ suf.
Proof.
  intros Hb. induction l as [|y l IH]; simpl; intros ds out x H Hin; [contradiction|].
  destruct (body y ds) as [o|o|] eqn:E; simpl in H; try discriminate.
  destruct Hin as [->|Hin].
  - pose proof (for_each_extends body l Hb o) as He. rewrite H in He.
    destruct He as (suf & ->). now exists ds, o, suf.
  - eapply IH; eauto.
Qed.

(** ** C1 *)

(** C1 (as the code behaves): on the well-formed document
    [<html><head><title>T</title></head><body><div><span>x</span></div></body></html>]
    the pass does not return the empty list.  The content validators are
    handed the whole matched element ([headMatches[0]], [bodyMatches[0]]),
    not its inner text, so the tokens [<head>], [</head>], [<body>] and
    [</body>] are themselves flagged: four diagnostics. *)
Theorem C1_wellFormed_flagged : forall fuel,
  length wellFormed + 2 <= fuel ->
  validate fuel wellFormed
  = Some [mkError 0 0 6 msg_head; mkError 0 0 7 msg_head;
          mkError 0 0 6 msg_body; mkError 0 0 7 msg_body].
Proof.
  intros fuel Hf. apply validate_Done.
  rewrite (@try_block_fuel fuel 100 wellFormed Hf) by (vm_compute; lia).
  vm_compute. reflexivity.
Qed.

Lemma C1_wellFormed_flagged_witness :
  validate 100 wellFormed
  = Some [mkError 0 0 6 msg_head; mkError 0 0 7 msg_head;
          mkError 0 0 6 msg_body; mkError 0 0 7 msg_body].
Proof. apply (@C1_wellFormed_flagged 100). vm_compute. lia. Defined.

(** ** C2 *)

(** Neither the body content [<p>hi</p>] nor the body element around it
    gives exactly one diagnostic. *)
Lemma C2_counterexample :
  ~ (exists d, validateBodyContent 100 bodyP bodyPDoc [] = Done [d]) /\
  ~ (exists d, validateBodyContent 100 (str "<body><p>hi</p></body>") bodyPDoc []
               = Done [d]).
Proof. split; intros (d & H); vm_compute in H; discriminate. Qed.

Lemma validateNesting_quiet fuel content fullText ds context :
  match_all titleRegex content = [] ->
  match_all spanRegex content = [] ->
  match_all divRegexG content = [] ->
  match_all spanRegexG content = [] ->
  validateNesting (S fuel) content fullText ds context = Done ds.
Proof.
  intros Ht Hs Hd Hsg. rewrite validateNesting_S.
  unfold descents, title_part, span_part, match_g.
  rewrite Ht, Hs, Hd, Hsg. simpl. now rewrite app_nil_r.
Qed.

(** C2 (amended): the body content validator emits one diagnostic
    ["<body> may contain only <div> or <span> elements"] per disallowed
    token occurrence, opening or closing, in scan order (before anything the
    nesting validator adds); for the body content [<p>hi</p>] these are two,
    the first referencing the token [<p>], the second the token [</p>]. *)
Theorem C2_body_tokens :
  (forall fuel bodyContent fullText ds,
     length bodyContent < fuel ->
     exists nest,
       validateBodyContent fuel bodyContent fullText ds
       = Done (ds ++ map (element_diag msg_body fullText)
                       (filter (flagged body_allowed)
                          (match_all tagTokenRegex bodyContent))
                  ++ nest)
       /\ Forall nesting_msg nest) /\
  (forall fuel fullText,
     length bodyP < fuel ->
     validateBodyContent fuel bodyP fullText []
     = Done [element_diag msg_body fullText (str "<p>");
             element_diag msg_body fullText (str "</p>")]).
Proof.
  split.
  - intros fuel bodyContent fullText ds Hlen. unfold validateBodyContent.
    rewrite bodyElements_spec. simpl.
    destruct (@validateNesting_appends fuel bodyContent fullText
                (ds ++ map (element_diag msg_body fullText)
                        (filter (flagged body_allowed)
                           (match_all tagTokenRegex bodyContent))) [] Hlen)
      as (nest & -> & Hn).
    exists nest. now rewrite <- app_assoc.
  - intros fuel fullText Hlen. unfold validateBodyContent.
    rewrite bodyElements_spec. cbn [bind].
    destruct fuel as [|fuel]; [inversion Hlen|].
    rewrite validateNesting_quiet by (vm_compute; reflexivity).
    replace (match_all tagTokenRegex bodyP) with [str "<p>"; str "</p>"]
      by (vm_compute; reflexivity).
    replace (filter (flagged body_allowed) [str "<p>"; str "</p>"])
      with [str "<p>"; str "</p>"] by (vm_compute; reflexivity).
    reflexivity.
Qed.

Lemma C2_body_tokens_witness :
  (exists nest,
     validateBodyContent 100 bodyP bodyPDoc []
     = Done ([] ++ map (element_diag msg_body bodyPDoc)
                     (filter (flagged body_allowed)
                        (match_all tagTokenRegex bodyP))
                ++ nest)
     /\ Forall nesting_msg nest) /\
  validateBodyContent 100 bodyP bodyPDoc []
  = Done [element_diag msg_body bodyPDoc (str "<p>");
          element_diag msg_body bodyPDoc (str "</p>")].
Proof.
  split.
  - apply (proj1 C2_body_tokens 100 bodyP bodyPDoc []). vm_compute. lia.
  - apply (proj2 C2_body_tokens 100 bodyPDoc). vm_compute. lia.
Defined.

(** ** C3 *)

Lemma split_nl_not_nil s : split_nl s <> [].
Proof.
  destruct s as [|c s]; simpl; [discriminate|].
  destruct (N.eqb c 10); [discriminate|]. destruct (split_nl s); discriminate.
Qed.

Lemma nth_error_last (A : Type) (l : list A) d :
  l <> [] -> nth_error l (length l - 1) = Some (last l d).
Proof.
  intros H. destruct (exists_last H) as (l' & a & ->).
  rewrite last_last, length_app. simpl.
  replace (length l' + 1 - 1) with (length l') by lia.
  rewrite nth_error_app2 by lia. now rewrite Nat.sub_diag.
Qed.

Lemma rule1_end_spec text ds :
  rule1_end text ds
  = if endsWith (trim text) (str "</html>") then ds else push ds (end_diag text).
Proof.
  unfold rule1_end, end_diag.
  destruct (endsWith (trim text) (str "</html>")); simpl; auto.
  rewrite (@nth_error_last _ (split_nl text) []) by apply split_nl_not_nil.
  pose proof (split_nl_not_nil text) as Hn.
  destruct (split_nl text) as [|l ls] eqn:E; [congruence|].
  replace (Z.of_nat (length (l :: ls) - 1)) with (Z.of_nat (length (l :: ls)) - 1)%Z
    by (simpl length; lia).
  reflexivity.
Qed.



(** ** C4 *)

Lemma check_count_spec tag msg n content text :
  check_count tag msg n content text []
  = if Nat.eqb n 1 then [] else [count_diag tag msg content text].
Proof. unfold check_count, count_diag, includes. now destruct (Nat.eqb n 1). Qed.

Lemma filter_none (A : Type) (f : A -> bool) (P : A -> Prop) l :
  Forall P l -> (forall x, P x -> f x = false) -> filter f l = [].
Proof.
  intros H Hf. induction H as [|x l Hx _ IH]; simpl; auto.
  now rewrite (Hf _ Hx).
Qed.

(** A document with its first [<head] on line 1, outside the html element:
    the head cardinality diagnostic is on line 0, not on line 1. *)
Lemma C4_counterexample :
  includes headOutside (str "<head") = true /\
  line_of headOutside (indexOf headOutside (str "<head")) = 1%Z /\
  validate 100 headOutside
  = Some [mkError 0 0 6 msg_start;
          mkError 0 0 10 msg_head_count; mkError 0 0 10 msg_body_count] /\
  ~ In (mkError (line_of headOutside (indexOf headOutside (str "<head"))) 0 10
          msg_head_count)
       [mkError 0 0 6 msg_start;
        mkError 0 0 10 msg_head_count; mkError 0 0 10 msg_body_count].
Proof.
  split; [vm_compute; reflexivity|]. split; [vm_compute; reflexivity|].
  split; [vm_compute; reflexivity|].
  intros H. vm_compute in H. destruct H as [H|[H|[H|[]]]]; discriminate.
Qed.

(** C4 (amended): for each captured html content the head pairs and the body
    pairs are counted independently; a cardinality diagnostic for head
    (respectively body) is emitted if and only if that count differs from 1,
    as a 10-character range from column 0 on the line of the first [<head]
    (respectively [<body]) of the whole document when the captured content
    holds [<head] (respectively [<body]), else on line 0; a document with
    two head blocks and one body block yields exactly one head cardinality
    diagnostic and no body cardinality diagnostic. *)
Theorem C4_cardinality :
  (forall fuel text m content,
     m1 m = Some content -> length content < fuel ->
     exists out,
       html_match fuel text m [] = Done out /\
       filter (has_message msg_head_count) out
       = (if Nat.eqb (count (match_g headRegex content)) 1 then []
          else [count_diag "<head" msg_head_count content text]) /\
       filter (has_message msg_body_count) out
       = (if Nat.eqb (count (match_g bodyRegex content)) 1 then []
          else [count_diag "<body" msg_body_count content text])) /\
  (forall fuel,
     length twoHeads + 2 <= fuel ->
     exists out,
       validate fuel twoHeads = Some out /\
       filter (has_message msg_head_count) out = [mkError 0 0 10 msg_head_count] /\
       filter (has_message msg_body_count) out = []).
Proof.
  split.
  - intros fuel text m content Hc Hlen.
    destruct (@html_match_spec fuel text m content [] Hc Hlen)
      as (hp & bp & -> & Hhp & Hbp).
    eexists. split; [reflexivity|].
    rewrite !check_count_spec. simpl app. rewrite !filter_app.
    assert (Hh : forall msg, msg = msg_head_count \/ msg = msg_body_count ->
                 filter (has_message msg) hp = []).
    { intros msg Hm. apply (filter_none _ Hhp). unfold head_msg, has_message.
      intros d ->. destruct Hm as [->| ->]; reflexivity. }
    assert (Hb : forall msg, msg = msg_head_count \/ msg = msg_body_count ->
                 filter (has_message msg) bp = []).
    { intros msg Hm. apply (filter_none _ Hbp). unfold body_msg, has_message.
      intros d [-> |[-> | ->]]; destruct Hm as [->| ->]; reflexivity. }
    rewrite !Hh, !Hb by auto.
    destruct (Nat.eqb (count (match_g headRegex content)) 1);
      destruct (Nat.eqb (count (match_g bodyRegex content)) 1); auto.
  - intros fuel Hf. eexists. split.
    + apply validate_Done.
      rewrite (@try_block_fuel fuel 150 twoHeads Hf) by (vm_compute; lia).
      vm_compute. reflexivity.
    + split; reflexivity.
Qed.

Lemma C4_cardinality_witness :
  (exists out,
     html_match 1 (str "<html></html>")
       (MkMatch (str "<html></html>") (Some []) 0) [] = Done out /\
     filter (has_message msg_head_count) out
     = [count_diag "<head" msg_head_count [] (str "<html></html>")] /\
     filter (has_message msg_body_count) out
     = [count_diag "<body" msg_body_count [] (str "<html></html>")]) /\
  (exists out,
     validate 150 twoHeads = Some out /\
     filter (has_message msg_head_count) out = [mkError 0 0 10 msg_head_count] /\
     filter (has_message msg_body_count) out = []).
Proof.
  split.
  - apply (proj1 C4_cardinality 1 (str "<html></html>")
             (MkMatch (str "<html></html>") (Some []) 0) []).
    + reflexivity.
    + simpl. lia.
  - apply (proj2 C4_cardinality 150). vm_compute. lia.
Defined.

(** ** Fragments the recursion reaches *)

Lemma descents_extends fuel content fullText context ds :
  extends ds (descents fuel content fullText context ds).
Proof.
  unfold descents. apply extends_bind.
  - apply for_matches_extends. intros x ds'. apply descend_extends.
    intros. apply validateNesting_extends.
  - intros ds'. apply for_matches_extends. intros x ds''. apply descend_extends.
    intros. apply validateNesting_extends.
Qed.

(** A recursive call on the inner text of a pair of the fragment is run, and
    what it returned is kept. *)
Lemma for_matches_descend name recur content m inner ds out :
  (forall i ds', extends ds' (recur i ds')) ->
  for_matches (descend (pairRegexG name) recur)
    (match_g (pairRegexG name) content) ds = Done out ->
  In m (match_all (pairRegexG name) content) ->
  inner_of (pairRegexG name) m = Some inner ->
  exists ds1 out1 suf, recur inner ds1 = Done out1 /\ out = out1 ++ suf.
Proof.
  intros Hr H Hm Hi.
  destruct (match_g (pairRegexG name) content) as [ms|] eqn:E.
  - apply match_g_Some in E. subst ms. simpl in H.
    assert (Hb : forall x ds', extends ds' (descend (pairRegexG name) recur x ds'))
      by (intros; now apply descend_extends).
    destruct (@for_each_In _ _ _ Hb _ _ _ H Hm) as (ds1 & out1 & suf & Hd & ->).
    unfold descend in Hd. unfold inner_of in Hi.
    destruct (match_1 (pairRegexG name) m) as [res|]; [|discriminate].
    rewrite Hi in Hd. now exists ds1, out1, suf.
  - apply match_g_None in E. rewrite E in Hm. contradiction.
Qed.

Lemma descents_reach fuel content fullText context ds out name m inner :
  name = "div"%string \/ name = "span"%string ->
  descents fuel content fullText context ds = Done out ->
  In m (match_all (pairRegexG name) content) ->
  inner_of (pairRegexG name) m = Some inner ->
  exists ctx ds1 out1 suf,
    validateNesting fuel inner fullText ds1 ctx = Done out1 /\ out = out1 ++ suf.
Proof.
  intros Hname H Hm Hi. unfold descents in H.
  destruct (for_matches _ (match_g divRegexG content) ds) as [o1|o1|] eqn:E1;
    simpl in H; try discriminate.
  assert (Hr : forall ctx i ds', extends ds' (validateNesting fuel i fullText ds' ctx))
    by (intros; apply validateNesting_extends).
  destruct Hname as [-> | ->].
  - destruct (@for_matches_descend "div" _ content m inner _ _ (Hr _) E1 Hm Hi)
      as (ds1 & out1 & suf & Hd & ->).
    assert (He : extends (out1 ++ suf)
                   (for_matches
                      (descend spanRegexG
                         (fun inner0 ds0 => validateNesting fuel inner0 fullText ds0
                                              (context ++ ["span"%string])))
                      (match_g spanRegexG content) (out1 ++ suf))).
    { apply for_matches_extends. intros x ds'. apply descend_extends. apply Hr. }
    rewrite H in He. destruct He as (new & ->).
    exists (context ++ ["div"%string]), ds1, out1, (suf ++ new).
    split; auto. now rewrite app_assoc.
  - destruct (@for_matches_descend "span" _ content m inner _ _ (Hr _) H Hm Hi)
      as (ds1 & out1 & suf & Hd & ->).
    now exists (context ++ ["span"%string]), ds1, out1, suf.
Qed.

(** What a fragment that the recursion reaches gives rise to is in the
    array when the first call has returned. *)
Lemma nesting_reached : forall content c, reaches content c ->
  forall fuel fullText ds context out,
    validateNesting fuel content fullText ds context = Done out ->
    forall d, In d (title_part fullText c ++ span_part fullText c) -> In d out.
Proof.
  induction 1 as [c|content m' inner c Hm Hi Hr IH|content m' inner c Hm Hi Hr IH];
    intros fuel fullText ds context out Hv d Hd.
  - destruct fuel as [|fuel]; [discriminate|].
    rewrite validateNesting_S in Hv.
    pose proof (descents_extends fuel c fullText context
                  (ds ++ title_part fullText c ++ span_part fullText c)) as He.
    rewrite Hv in He. destruct He as (new & ->).
    apply in_or_app. left. apply in_or_app. now right.
  - destruct fuel as [|fuel]; [discriminate|].
    rewrite validateNesting_S in Hv.
    destruct (@descents_reach fuel content fullText context _ out "div" m' inner
                (or_introl eq_refl) Hv Hm Hi) as (ctx & ds1 & out1 & suf & Hd1 & ->).
    apply in_or_app. left. eapply IH; eauto.
  - destruct fuel as [|fuel]; [discriminate|].
    rewrite validateNesting_S in Hv.
    destruct (@descents_reach fuel content fullText context _ out "span" m' inner
                (or_intror eq_refl) Hv Hm Hi) as (ctx & ds1 & out1 & suf & Hd1 & ->).
    apply in_or_app. left. eapply IH; eauto.
Qed.

(** ** C7 *)

Lemma flagged_not_self_closing allowed element :
  flagged allowed element = true -> includes element (str "/>") = false.
Proof.
  unfold flagged. destruct (tag_name_of element); [|discriminate].
  intros H. apply andb_true_iff in H. destruct H as [_ H].
  now apply negb_true_iff in H.
Qed.

(** C7: in both content validators a token containing [/>] is exempt:
    checking such a token leaves the diagnostics as they are, whatever its
    tag name, and every head-content or body-content diagnostic of a run
    stands for a token without [/>]. *)
Theorem C7_self_closing_exempt :
  (forall fullText element ds,
     includes element (str "/>") = true ->
     check_element head_allowed msg_head fullText element ds = Done ds /\
     check_element body_allowed msg_body fullText element ds = Done ds) /\
  (forall headContent fullText ds,
     exists tokens,
       validateHeadContent headContent fullText ds
       = Done (ds ++ map (element_diag msg_head fullText) tokens) /\
       Forall (fun e => In e (match_all tagTokenRegex headContent) /\
                        includes e (str "/>") = false) tokens) /\
  (forall bodyContent fullText ds,
     exists tokens,
       bodyElements bodyContent fullText ds
       = Done (ds ++ map (element_diag msg_body fullText) tokens) /\
       Forall (fun e => In e (match_all tagTokenRegex bodyContent) /\
                        includes e (str "/>") = false) tokens).
Proof.
  split; [|split].
  - intros fullText element ds H. rewrite !check_element_spec.
    destruct (flagged head_allowed element) eqn:E1;
      [apply flagged_not_self_closing in E1; congruence|].
    destruct (flagged body_allowed element) eqn:E2;
      [apply flagged_not_self_closing in E2; congruence|]. auto.
  - intros headContent fullText ds. eexists. split; [apply validateHeadContent_spec|].
    apply Forall_forall. intros e He. apply filter_In in He. destruct He as [He Hf].
    split; auto. now apply flagged_not_self_closing in Hf.
  - intros bodyContent fullText ds. eexists. split; [apply bodyElements_spec|].
    apply Forall_forall. intros e He. apply filter_In in He. destruct He as [He Hf].
    split; auto. now apply flagged_not_self_closing in Hf.
Qed.

Lemma C7_self_closing_exempt_witness :
  check_element head_allowed msg_head (str "<p/>") (str "<p/>") [] = Done [] /\
  check_element body_allowed msg_body (str "<p/>") (str "<p/>") [] = Done [].
Proof.
  apply (proj1 C7_self_closing_exempt (str "<p/>") (str "<p/>") []).
  vm_compute. reflexivity.
Defined.

(** ** C8 *)




(** ** C10 *)

Lemma nth_error_set_lastIndex : forall heap ref o i,
  nth_error heap ref = Some o ->
  nth_error (set_lastIndex ref i heap) ref
  = Some (MkRegExpObject (re_source o) i).
Proof.
  induction heap as [|x heap IH]; intros [|ref] o i H; simpl in *;
    try discriminate.
  - now inv H.
  - now apply IH.
Qed.

(** The loop on the regex object does what the loop on its [lastIndex]
    does, whatever else the heap holds. *)
Lemma html_loop_obj_spec : forall fuel text re heap lastIndex ds,
  nth_error heap re = Some (MkRegExpObject htmlRegex lastIndex) ->
  fst (html_loop_obj fuel text re heap ds) = html_loop fuel text lastIndex ds.
Proof.
  induction fuel as [|fuel IH]; intros text re heap lastIndex ds H;
    [reflexivity|].
  cbn [html_loop_obj html_loop]. unfold exec_obj. rewrite H.
  cbn [re_source re_lastIndex].
  destruct (exec htmlRegex text lastIndex) as [[m lastIndex']|];
    [|reflexivity].
  destruct (html_match fuel text m ds) as [ds'|ds'|]; cbn [bind fst];
    [|reflexivity|reflexivity].
  apply IH. now rewrite (nth_error_set_lastIndex _ _ lastIndex' H).
Qed.

(** A pass on a heap sends what [validateTextDocument] gives for the
    document, whatever the heap holds. *)
Lemma onDidChangeContent_spec fuel document heap :
  fst (onDidChangeContent fuel document heap)
  = validateTextDocument fuel document.
Proof.
  unfold onDidChangeContent, validateTextDocument, try_block, new_RegExp.
  destruct (html_loop_obj fuel (getText document) (length heap)
              (heap ++ [MkRegExpObject htmlRegex 0])
              (rule1_end (getText document) (rule1_start (getText document) [])))
    as [block heap'] eqn:E.
  cbn [fst]. f_equal.
  change block with (fst (block, heap')). rewrite <- E.
  apply html_loop_obj_spec.
  rewrite nth_error_app2, Nat.sub_diag by lia. reflexivity.
Qed.

(** C10: the diagnostics of a pass are a function of the document text
    alone.  Two passes over documents with the same text send the same list
    of diagnostics, in the same order, whatever the URI and version of the
    documents, whatever regex objects earlier passes left on the heap, with
    whatever [lastIndex], and whatever fuel beyond the bound; so does a
    second pass run on the heap the first one left. *)
Theorem C10_deterministic : forall f1 f2 d1 d2 heap1 heap2,
  getText d1 = getText d2 ->
  length (getText d1) + 2 <= f1 -> length (getText d1) + 2 <= f2 ->
  exists ds,
    option_map p_diagnostics (fst (onDidChangeContent f1 d1 heap1)) = Some ds /\
    option_map p_diagnostics (fst (onDidChangeContent f2 d2 heap2)) = Some ds /\
    option_map p_diagnostics
      (fst (onDidChangeContent f2 d2 (snd (onDidChangeContent f1 d1 heap1))))
    = Some ds /\
    option_map p_diagnostics (validateTextDocument f1 d1) = Some ds /\
    option_map p_diagnostics (validateTextDocument f2 d2) = Some ds.
Proof.
  intros f1 f2 d1 d2 heap1 heap2 Ht H1 H2. rewrite !onDidChangeContent_spec.
  unfold validateTextDocument. rewrite <- Ht.
  rewrite (@try_block_fuel f2 f1 (getText d1)) by auto.
  destruct (try_block_Done (getText d1) H1) as (ds & ->). exists ds. auto.
Qed.

Lemma C10_deterministic_witness :
  exists ds,
    option_map p_diagnostics
      (fst (onDidChangeContent 100
              (MkTextDocument "file:///a.mhtml" 1 wellFormed) []))
    = Some ds /\
    option_map p_diagnostics
      (fst (onDidChangeContent 200
              (MkTextDocument "file:///b.mhtml" 7 wellFormed)
              [MkRegExpObject htmlRegex 5]))
    = Some ds /\
    option_map p_diagnostics
      (fst (onDidChangeContent 200
              (MkTextDocument "file:///b.mhtml" 7 wellFormed)
              (snd (onDidChangeContent 100
                      (MkTextDocument "file:///a.mhtml" 1 wellFormed) []))))
    = Some ds /\
    option_map p_diagnostics
      (validateTextDocument 100 (MkTextDocument "file:///a.mhtml" 1 wellFormed))
    = Some ds /\
    option_map p_diagnostics
      (validateTextDocument 200 (MkTextDocument "file:///b.mhtml" 7 wellFormed))
    = Some ds.
Proof.
  apply (@C10_deterministic 100 200
           (MkTextDocument "file:///a.mhtml" 1 wellFormed)
           (MkTextDocument "file:///b.mhtml" 7 wellFormed)
           [] [MkRegExpObject htmlRegex 5]).
  - reflexivity.
  - vm_compute. lia.
  - vm_compute. lia.
Defined.

(** ** C9: valid div/span nesting

    *** Scanning past text *)

Lemma chr_eq_i_lt c : chr_eq_i 60 c = true -> c = 60%N.
Proof.
  unfold chr_eq_i, canonicalize. simpl.
  destruct (N.leb 97 c && N.leb c 122) eqn:E; intros H; apply N.eqb_eq in H; auto.
  apply andb_true_iff in E. destruct E as [E1 E2].
  apply N.leb_le in E1. lia.
Qed.

Lemma rmatch_not_lt (R : Type) r c s cap (k : cont R) :
  first_is_lt r = true -> c <> 60%N -> rmatch r (c :: s) cap k = None.
Proof.
  destruct r as [| | | |?|r1 r2|?]; try discriminate.
  destruct r1; try discriminate. simpl. intros H Hc. apply N.eqb_eq in H. subst.
  destruct (chr_eq_i 60 c) eqn:E; auto. apply chr_eq_i_lt in E. congruence.
Qed.

Lemma rmatch_nil (R : Type) r cap (k : cont R) :
  first_is_lt r = true -> rmatch r [] cap k = None.
Proof.
  destruct r as [| | | |?|r1 r2|?]; try discriminate.
  destruct r1; try discriminate. reflexivity.
Qed.

Lemma match_here_not_lt r c s :
  first_is_lt r = true -> c <> 60%N -> match_here r (c :: s) = None.
Proof. intros H Hc. unfold match_here. now rewrite rmatch_not_lt. Qed.

Lemma match_here_nil r : first_is_lt r = true -> match_here r [] = None.
Proof. intros H. unfold match_here. now rewrite rmatch_nil. Qed.

Lemma match_all_from_skip r u s :
  match_all_from r (u ++ s) (length u) = match_all_from r s 0.
Proof. induction u as [|x u IH]; simpl; auto. Qed.

Lemma match_all_plain r u s :
  first_is_lt r = true -> plain u -> match_all r (u ++ s) = match_all r s.
Proof.
  intros Hr Hu. unfold match_all. induction Hu as [|x u Hx _ IH]; auto.
  change ((x :: u) ++ s) with (x :: u ++ s).
  now rewrite match_all_from_0_cons, match_here_not_lt.
Qed.

Lemma match_all_nil r : first_is_lt r = true -> match_all r [] = [].
Proof.
  intros H. unfold match_all. simpl. now rewrite match_here_nil.
Qed.

(** After a failed attempt at a [<] the scan goes on behind the tag. *)
Lemma match_all_miss r u s :
  first_is_lt r = true -> plain u -> match_here r (60%N :: u ++ s) = None ->
  match_all r (60%N :: u ++ s) = match_all r s.
Proof.
  intros Hr Hu Hm. unfold match_all. rewrite match_all_from_0_cons, Hm.
  now apply match_all_plain.
Qed.

(** After a match the scan goes on behind it. *)
Lemma match_all_hit r m s res :
  match_here r (m ++ s) = Some res -> m0 res = m -> m <> [] ->
  match_all r (m ++ s) = m :: match_all r s.
Proof.
  intros Hm H0 Hn. unfold match_all. destruct m as [|x u]; [congruence|].
  change ((x :: u) ++ s) with (x :: u ++ s) in *.
  rewrite match_all_from_0_cons, Hm, H0.
  replace (length (x :: u) - 1) with (length u) by (simpl; lia).
  now rewrite match_all_from_skip.
Qed.

Lemma star_lazy_plain (R : Type) u s (K : jsstring -> option R) :
  (forall c s', c <> 60%N -> K (c :: s') = None) -> plain u ->
  star_lazy any (u ++ s) K = star_lazy any s K.
Proof.
  intros HK Hu. induction Hu as [|x u Hx _ IH]; auto.
  change ((x :: u) ++ s) with (x :: u ++ s).
  destruct s as [|y s]; simpl; rewrite HK by auto; simpl; exact IH.
Qed.

(** *** Tokens *)

Lemma tag_eqb_eq a b : tag_eqb a b = true <-> a = b.
Proof. destruct a, b; simpl; split; congruence. Qed.

Lemma render_tag k : is_tag k = true -> render_token k = 60%N :: tag_body k.
Proof. destruct k as [[]|[]|s]; try discriminate; reflexivity. Qed.

Lemma tag_body_plain k : plain (tag_body k).
Proof. destruct k as [[]|[]|s]; simpl; repeat constructor; discriminate. Qed.

Lemma render_cons k ks : render (k :: ks) = render_token k ++ render ks.
Proof. reflexivity. Qed.

Lemma render_app a b : render (a ++ b) = render a ++ render b.
Proof. unfold render. now rewrite map_app, concat_app. Qed.

Lemma split_close_Some t : forall ks pre post,
  split_close t ks = Some (pre, post) ->
  ks = pre ++ TClose t :: post /\ ~ In (TClose t) pre.
Proof.
  induction ks as [|k ks IH]; simpl; intros pre post H; [discriminate|].
  destruct (match k with TClose t' => tag_eqb t t' | _ => false end) eqn:E.
  - inv H. destruct k; try discriminate. apply tag_eqb_eq in E. subst. auto.
  - destruct (split_close t ks) as [[p q]|]; [|discriminate]. inv H.
    destruct (IH _ _ eq_refl) as (-> & Hn). split; auto.
    intros [->|Hin]; [|auto]. simpl in E. destruct t; discriminate.
Qed.

Lemma split_close_first t : forall pre post,
  ~ In (TClose t) pre -> split_close t (pre ++ TClose t :: post) = Some (pre, post).
Proof.
  induction pre as [|k pre IH]; simpl; intros post Hn.
  - replace (tag_eqb t t) with true by (destruct t; reflexivity). reflexivity.
  - destruct (match k with TClose t' => tag_eqb t t' | _ => false end) eqn:E.
    + destruct k; try discriminate. apply tag_eqb_eq in E. subst.
      exfalso. apply Hn. now left.
    + rewrite IH; auto.
Qed.

Lemma split_close_None t : forall ks,
  split_close t ks = None -> ~ In (TClose t) ks.
Proof.
  induction ks as [|k ks IH]; simpl; intros H; [tauto|].
  destruct (match k with TClose t' => tag_eqb t t' | _ => false end) eqn:E;
    [discriminate|].
  destruct (split_close t ks) as [[p q]|]; [discriminate|].
  intros [->|Hin]; [|now apply IH]. simpl in E. destruct t; discriminate.
Qed.

(** *** The patterns on rendered tokens *)

Lemma closeTag_first name : first_is_lt (seq (closeTag name)) = true.
Proof. reflexivity. Qed.

Lemma pairRegexG_first name : first_is_lt (pairRegexG name) = true.
Proof. reflexivity. Qed.

Lemma pairRegex_first name : first_is_lt (pairRegex name) = true.
Proof. reflexivity. Qed.

(** The closing-tag pattern of [t] at a tag: it matches the closing tag of
    [t], in whole, and nothing else. *)
Lemma close_at_tag t k s cap :
  is_tag k = true ->
  rmatch (seq (closeTag (tag_name t))) (render_token k ++ s) cap kfin
  = if match k with TClose t' => tag_eqb t t' | _ => false end
    then Some (s, cap) else None.
Proof. destruct k as [[]|[]|u], t; try discriminate; reflexivity. Qed.

Lemma star_lazy_fail (R : Type) x s (K : jsstring -> option R) :
  K (x :: s) = None -> star_lazy any (x :: s) K = star_lazy any s K.
Proof. intros H. simpl. now rewrite H. Qed.

Lemma star_lazy_ok (R : Type) s (K : jsstring -> option R) r :
  K s = Some r -> star_lazy any s K = Some r.
Proof. intros H. destruct s; simpl; now rewrite H. Qed.

(** The lazy scan for the closing tag of [t] stops at the first one. *)
Lemma lazy_close t (capf : jsstring -> option jsstring) : forall ks,
  Forall plain_token ks ->
  star_lazy any (render ks)
    (fun s' => rmatch (seq (closeTag (tag_name t))) s' (capf s') kfin)
  = match split_close t ks with
    | Some (pre, post) => Some (render post, capf (render (TClose t :: post)))
    | None => None
    end.
Proof.
  set (K := fun s' => rmatch (seq (closeTag (tag_name t))) s' (capf s') kfin).
  assert (HK : forall c s', c <> 60%N -> K (c :: s') = None).
  { intros c s' Hc. unfold K. now apply rmatch_not_lt. }
  induction ks as [|k ks IH]; intros Hp.
  - reflexivity.
  - inv Hp. specialize (IH H2). rewrite render_cons.
    destruct (is_tag k) eqn:Etag.
    + destruct (match k with TClose t' => tag_eqb t t' | _ => false end) eqn:E.
      * rewrite (@star_lazy_ok _ _ K (render ks, capf (render_token k ++ render ks))).
        -- simpl. rewrite E. destruct k; try discriminate.
           apply tag_eqb_eq in E. now subst.
        -- unfold K. now rewrite close_at_tag, E.
      * rewrite (render_tag k Etag). change ((60%N :: tag_body k) ++ render ks)
          with (60%N :: tag_body k ++ render ks).
        rewrite star_lazy_fail.
        -- rewrite star_lazy_plain by auto using tag_body_plain. rewrite IH.
           simpl. rewrite E. now destruct (split_close t ks) as [[p q]|].
        -- unfold K. change (60%N :: tag_body k ++ render ks)
             with ((60%N :: tag_body k) ++ render ks).
           rewrite <- (render_tag k Etag). now rewrite close_at_tag, E.
    + destruct k; try discriminate. simpl in H1 |- *.
      rewrite star_lazy_plain by auto. rewrite IH.
      now destruct (split_close t ks) as [[p q]|].
Qed.

Lemma pairR_first g name : first_is_lt (pairR g name) = true.
Proof. now destruct g. Qed.

Lemma pairR_open g t s :
  rmatch (pairR g (tag_name t)) (render_token (TOpen t) ++ s) None kfin
  = star_lazy any s
      (fun s' => rmatch (seq (closeTag (tag_name t))) s'
                   (if g then Some (firstn (length s - length s') s) else None)
                   kfin).
Proof. destruct g, t; reflexivity. Qed.

Lemma pairR_other g t k s :
  is_tag k = true -> k <> TOpen t ->
  match_here (pairR g (tag_name t)) (render_token k ++ s) = None.
Proof.
  destruct k as [[]|[]|u], t, g; try discriminate; try congruence;
    intros; reflexivity.
Qed.

(** A tag-pair pattern at an opening tag of its name: the match runs to the
    first closing tag of that name, and the capture is what lies between. *)
Lemma match_here_pair g t ks :
  Forall plain_token ks ->
  match_here (pairR g (tag_name t)) (render (TOpen t :: ks))
  = match split_close t ks with
    | Some (pre, post) =>
        Some (MkMatch (render (TOpen t :: pre ++ [TClose t]))
                (if g then Some (render pre) else None) 0)
    | None => None
    end.
Proof.
  intros Hp. unfold match_here. rewrite render_cons.
  change (fun s' cap => Some (s', cap)) with kfin.
  rewrite pairR_open, (lazy_close t _ Hp).
  destruct (split_close t ks) as [[pre post]|] eqn:E; auto.
  apply split_close_Some in E. destruct E as (-> & _).
  f_equal. f_equal.
  - replace (render_token (TOpen t) ++ render (pre ++ TClose t :: post))
      with (render (TOpen t :: pre ++ [TClose t]) ++ render post).
    + apply firstn_app_exact.
    + rewrite !render_cons, !render_app, !render_cons. simpl render at 2.
      now rewrite app_nil_r, <- !app_assoc.
  - destruct g; auto. f_equal. rewrite render_app. apply firstn_app_exact.
Qed.

Lemma token_eq_dec (a b : token) : {a = b} + {a <> b}.
Proof.
  destruct a as [[]|[]|u], b as [[]|[]|v]; try (left; reflexivity);
    try (right; discriminate).
  destruct (list_eq_dec N.eq_dec u v); [left; congruence|right; congruence].
Qed.

Lemma match_all_miss_tag r k s :
  first_is_lt r = true -> is_tag k = true ->
  match_here r (render_token k ++ s) = None ->
  match_all r (render_token k ++ s) = match_all r s.
Proof.
  intros Hr Hk. rewrite (render_tag k Hk).
  change ((60%N :: tag_body k) ++ s) with (60%N :: tag_body k ++ s).
  intros Hh. apply match_all_miss; auto using tag_body_plain.
Qed.

Lemma render_pair_split t pre post :
  render (TOpen t :: pre ++ TClose t :: post)
  = render (TOpen t :: pre ++ [TClose t]) ++ render post.
Proof.
  rewrite !render_cons, !render_app, !render_cons. simpl render at 2.
  now rewrite app_nil_r, <- !app_assoc.
Qed.

Lemma render_open_not_nil t ks : render (TOpen t :: ks) <> [].
Proof. destruct t; discriminate. Qed.

(** The matches of a tag-pair pattern on rendered tokens: each runs from an
    opening tag of the name to the first closing tag of the name behind it. *)
Lemma pair_matches g t : forall n ks,
  length ks <= n -> Forall plain_token ks ->
  forall m, In m (match_all (pairR g (tag_name t)) (render ks)) ->
  exists a pre b,
    ks = a ++ TOpen t :: pre ++ TClose t :: b /\
    ~ In (TClose t) pre /\
    m = render (TOpen t :: pre ++ [TClose t]).
Proof.
  induction n as [|n IH]; intros ks Hn Hp m Hm.
  - destruct ks; [|simpl in Hn; lia].
    simpl in Hm. rewrite match_all_nil in Hm by apply pairR_first. contradiction.
  - destruct ks as [|k ks].
    { simpl in Hm. rewrite match_all_nil in Hm by apply pairR_first. contradiction. }
    simpl in Hn. inv Hp. rewrite render_cons in Hm.
    assert (Hskip : In m (match_all (pairR g (tag_name t)) (render ks)) ->
              exists a pre b,
                k :: ks = a ++ TOpen t :: pre ++ TClose t :: b /\
                ~ In (TClose t) pre /\ m = render (TOpen t :: pre ++ [TClose t])).
    { intros H. destruct (IH ks ltac:(lia) H2 m H) as (a & pre & b & -> & Hc & ->).
      now exists (k :: a), pre, b. }
    destruct (is_tag k) eqn:Etag.
    + destruct (token_eq_dec k (TOpen t)) as [->|Hne].
      * rewrite <- render_cons in Hm.
        pose proof (@match_here_pair g t ks H2) as Hh.
        destruct (split_close t ks) as [[pre post]|] eqn:E.
        -- apply split_close_Some in E. destruct E as (-> & Hc).
           rewrite render_pair_split in Hm, Hh.
           rewrite (match_all_hit _ _ Hh eq_refl (@render_open_not_nil t _)) in Hm.
           destruct Hm as [<-|Hm].
           ++ now exists [], pre, post.
           ++ apply Forall_app in H2. destruct H2 as [_ H2]. inv H2.
              destruct (IH post) with (m := m) as (a & pre' & b & -> & Hc' & ->); auto.
              { rewrite length_app in Hn. simpl in Hn. lia. }
              exists (TOpen t :: pre ++ TClose t :: a), pre', b.
              split; auto. simpl. now rewrite <- app_assoc.
        -- apply Hskip. rewrite render_cons in Hm, Hh.
           rewrite match_all_miss_tag in Hm; auto using pairR_first.
      * apply Hskip. pose proof (@pairR_other g t k (render ks) Etag Hne) as Hh.
        rewrite match_all_miss_tag in Hm; auto using pairR_first.
    + apply Hskip. destruct k; try discriminate. simpl in *.
      rewrite match_all_plain in Hm; auto using pairR_first.
Qed.

(** Matching a pair again on its own text gives the text between the tags. *)
Lemma inner_of_pair t pre :
  Forall plain_token pre -> ~ In (TClose t) pre ->
  inner_of (pairRegexG (tag_name t)) (render (TOpen t :: pre ++ [TClose t]))
  = Some (render pre).
Proof.
  intros Hp Hc. unfold inner_of, match_1.
  assert (Hp' : Forall plain_token (pre ++ [TClose t])).
  { apply Forall_app. split; auto. repeat constructor. }
  pose proof (@match_here_pair true t (pre ++ [TClose t]) Hp') as Hh.
  rewrite split_close_first in Hh by auto.
  change (pairR true (tag_name t)) with (pairRegexG (tag_name t)) in Hh.
  now rewrite (search_here _ _ Hh).
Qed.

Lemma descend_inner r recur m inner ds :
  inner_of r m = Some inner -> descend r recur m ds = recur inner ds.
Proof.
  unfold inner_of, descend. destruct (match_1 r m); [|discriminate].
  now intros ->.
Qed.

(** No title element, and no div opening tag where no token is one. *)
Lemma no_title : forall ks,
  Forall plain_token ks -> match_all titleRegex (render ks) = [].
Proof.
  induction ks as [|k ks IH]; intros Hp.
  - reflexivity.
  - inv Hp. rewrite render_cons. destruct (is_tag k) eqn:Etag.
    + assert (Hh : match_here titleRegex (render_token k ++ render ks) = None)
        by (destruct k as [[]|[]|u]; try discriminate; reflexivity).
      rewrite match_all_miss_tag; auto.
    + destruct k; try discriminate. simpl in *.
      rewrite match_all_plain; auto.
Qed.

Lemma no_div_open : forall ks,
  Forall plain_token ks -> ~ In (TOpen div) ks ->
  match_all divOpenRegex (render ks) = [].
Proof.
  induction ks as [|k ks IH]; intros Hp Hd.
  - reflexivity.
  - inv Hp. rewrite render_cons. simpl in Hd.
    assert (Hd' : ~ In (TOpen div) ks) by tauto.
    destruct (is_tag k) eqn:Etag.
    + assert (Hh : match_here divOpenRegex (render_token k ++ render ks) = None).
      { destruct k as [[]|[]|u]; try discriminate; try reflexivity.
        exfalso. apply Hd. now left. }
      rewrite match_all_miss_tag; auto.
    + destruct k; try discriminate. simpl in *.
      rewrite match_all_plain; auto.
Qed.

(** *** The validator on tokens *)

Lemma spans_hold_no_div_sub x sub y :
  spans_hold_no_div (x ++ sub ++ y) -> spans_hold_no_div sub.
Proof.
  intros H a pre b -> Hc. apply (H (x ++ a) pre (b ++ y)); auto.
  repeat (rewrite <- app_assoc; simpl). reflexivity.
Qed.

Lemma for_each_id (A : Type) (body : A -> list Diagnostic -> result) l ds :
  (forall x, In x l -> forall ds', body x ds' = Done ds') ->
  for_each body l ds = Done ds.
Proof.
  induction l as [|x l IH]; simpl; intros Hb; auto.
  rewrite Hb by auto. simpl. auto.
Qed.

Lemma for_matches_id (body : jsstring -> list Diagnostic -> result) r s ds :
  (forall x, In x (match_all r s) -> forall ds', body x ds' = Done ds') ->
  for_matches body (match_g r s) ds = Done ds.
Proof.
  intros Hb. destruct (match_g r s) as [ms|] eqn:E; simpl; auto.
  apply match_g_Some in E. subst. now apply for_each_id.
Qed.

Lemma length_render_inner t pre :
  length (render pre) < length (render (TOpen t :: pre ++ [TClose t])).
Proof.
  rewrite render_cons, render_app, !length_app. destruct t; simpl; lia.
Qed.

Lemma nesting_quiet : forall fuel ks fullText ds context,
  Forall plain_token ks -> spans_hold_no_div ks ->
  length (render ks) < fuel ->
  validateNesting fuel (render ks) fullText ds context = Done ds.
Proof.
  induction fuel as [|fuel IH]; intros ks fullText ds context Hp Hs Hlen; [lia|].
  rewrite validateNesting_S. unfold title_part, span_part.
  rewrite (no_title Hp). simpl app.
  assert (Hsub : forall a pre b t, ks = a ++ TOpen t :: pre ++ TClose t :: b ->
            Forall plain_token pre /\ spans_hold_no_div pre).
  { intros a pre b t ->. split.
    - apply Forall_app in Hp. destruct Hp as [_ Hp]. inv Hp.
      apply Forall_app in H2. tauto.
    - apply (@spans_hold_no_div_sub (a ++ [TOpen t]) pre (TClose t :: b)).
      now rewrite <- app_assoc. }
  rewrite (@filter_none _ span_violation (fun m => span_violation m = false)); auto.
  2:{ apply Forall_forall. intros m Hm.
      destruct (@pair_matches false span (length ks) ks (le_n _) Hp m Hm)
        as (a & pre & b & Hks & Hc & ->).
      destruct (Hsub _ _ _ _ Hks) as (Hpp & _).
      unfold span_violation.
      change spanRegexG with (pairRegexG (tag_name span)).
      rewrite (@inner_of_pair span pre Hpp Hc).
      rewrite no_div_open; auto. apply (Hs a pre b); auto. }
  simpl. rewrite app_nil_r.
  assert (Hrec : forall t ctx m, In m (match_all (pairRegexG (tag_name t)) (render ks)) ->
            forall ds',
              descend (pairRegexG (tag_name t))
                (fun inner ds0 => validateNesting fuel inner fullText ds0 ctx) m ds'
              = Done ds').
  { intros t ctx m Hm ds'.
    pose proof (match_all_substring _ _ _ Hm) as Hlen'.
    apply substring_of_length in Hlen'.
    destruct (@pair_matches true t (length ks) ks (le_n _) Hp m Hm)
      as (a & pre & b & Hks & Hc & ->).
    destruct (Hsub _ _ _ _ Hks) as (Hpp & Hss).
    rewrite (@descend_inner _ _ _ _ _ (@inner_of_pair t pre Hpp Hc)).
    apply IH; auto. pose proof (length_render_inner t pre). lia. }
  unfold descents.
  rewrite (@for_matches_id _ divRegexG (render ks) ds (Hrec div _)). simpl.
  apply (@for_matches_id _ spanRegexG (render ks) ds (Hrec span _)).
Qed.

(** *** Valid nesting *)

Lemma plainb_plain s : plainb s = true -> plain s.
Proof.
  unfold plainb, plain. intros H. apply Forall_forall. intros c Hc.
  rewrite forallb_forall in H. specialize (H c Hc).
  apply negb_true_iff, N.eqb_neq in H. exact H.
Qed.

Lemma span_tokens_plain c :
  span_plain c = true -> Forall plain_token (span_tokens c).
Proof.
  induction c as [|s rest IH|inner IHi rest IHr]; simpl; intros H.
  - constructor.
  - apply andb_true_iff in H. destruct H. constructor; auto.
    now apply plainb_plain.
  - apply andb_true_iff in H. destruct H. constructor; [exact I|].
    apply Forall_app. split; auto. constructor; [exact I|auto].
Qed.

Lemma div_tokens_plain c :
  div_plain c = true -> Forall plain_token (div_tokens c).
Proof.
  induction c as [|s rest IH|inner rest IHr|inner IHi rest IHr]; simpl; intros H.
  - constructor.
  - apply andb_true_iff in H. destruct H. constructor; auto.
    now apply plainb_plain.
  - apply andb_true_iff in H. destruct H. constructor; [exact I|].
    apply Forall_app. split; [now apply span_tokens_plain|].
    constructor; [exact I|auto].
  - apply andb_true_iff in H. destruct H. constructor; [exact I|].
    apply Forall_app. split; auto. constructor; [exact I|auto].
Qed.

Lemma span_tokens_no_div c : ~ In (TOpen div) (span_tokens c).
Proof.
  induction c as [|s rest IH|inner IHi rest IHr]; simpl.
  - tauto.
  - intros [H|H]; [discriminate|auto].
  - intros [H|H]; [discriminate|]. apply in_app_or in H.
    destruct H as [H|[H|H]]; [auto|discriminate|auto].
Qed.

(** Where an element of one split of a list lies in another split. *)
Lemma split_mid (A : Type) (x y : A) : forall a r c l,
  a ++ x :: r = c ++ y :: l ->
  (exists c2, c = a ++ x :: c2 /\ r = c2 ++ y :: l) \/
  (a = c /\ x = y /\ r = l) \/
  (exists a2, a = c ++ y :: a2 /\ l = a2 ++ x :: r).
Proof.
  induction a as [|z a IH]; intros r c l H.
  - destruct c as [|z' c]; simpl in H; inv H.
    + right. left. auto.
    + left. now exists c.
  - destruct c as [|z' c]; simpl in H; inv H.
    + right. right. now exists a.
    + destruct (IH _ _ _ H2) as [(c2 & -> & ->)|[(-> & -> & ->)|(a2 & -> & ->)]].
      * left. now exists c2.
      * right. left. auto.
      * right. right. now exists a2.
Qed.

Lemma first_occurrence (A : Type) (x : A) pre b c rest :
  pre ++ x :: b = c ++ rest -> ~ In x pre -> In x c ->
  exists b2, c = pre ++ x :: b2.
Proof.
  revert c. induction pre as [|z pre IH]; intros c H Hn Hc.
  - destruct c as [|z' c]; [contradiction|]. simpl in H. inv H. now exists c.
  - destruct c as [|z' c]; [contradiction|]. simpl in H. inv H.
    destruct Hc as [->|Hc]; [exfalso; apply Hn; now left|].
    destruct (IH c H2) as (b2 & ->); auto.
    + intros Hin. apply Hn. now right.
    + now exists b2.
Qed.

Lemma closes_nil : closes_spans [].
Proof. intros a r H. destruct a; discriminate. Qed.

Lemma closes_text s ks : closes_spans ks -> closes_spans (TText s :: ks).
Proof.
  intros Hk a r H. destruct a as [|z a]; simpl in H; inv H. eapply Hk; eauto.
Qed.

Lemma closes_wrap_span c ks :
  closes_spans ks -> closes_spans (TOpen span :: c ++ TClose span :: ks).
Proof.
  intros Hk a r H. destruct a as [|z a]; simpl in H; inv H.
  - apply in_or_app. right. now left.
  - symmetry in H2. apply split_mid in H2.
    destruct H2 as [(c2 & -> & ->)|[(_ & Hxy & _)|(a2 & -> & ->)]].
    + apply in_or_app. right. now left.
    + discriminate.
    + eapply Hk; eauto.
Qed.

Lemma closes_wrap t c ks :
  t <> span -> closes_spans c -> closes_spans ks ->
  closes_spans (TOpen t :: c ++ TClose t :: ks).
Proof.
  intros Ht Hc Hk a r H. destruct a as [|z a]; simpl in H; inv H; [congruence|].
  symmetry in H2. apply split_mid in H2.
  destruct H2 as [(c2 & -> & ->)|[(_ & Hxy & _)|(a2 & -> & ->)]].
  - apply in_or_app. left. eapply Hc; eauto.
  - discriminate.
  - eapply Hk; eauto.
Qed.

Lemma holds_nil : spans_hold_no_div [].
Proof. intros a pre b H. destruct a; discriminate. Qed.

Lemma holds_text s ks : spans_hold_no_div ks -> spans_hold_no_div (TText s :: ks).
Proof.
  intros Hk a pre b H. destruct a as [|z a]; simpl in H; inv H. eapply Hk; eauto.
Qed.

Lemma prefix_of_first (A : Type) (x : A) pre b c l :
  pre ++ x :: b = c ++ x :: l -> ~ In x pre -> exists r, c = pre ++ r.
Proof.
  intros H Hn. apply split_mid in H.
  destruct H as [(c2 & -> & _)|[(-> & _)|(a2 & -> & _)]].
  - now exists (x :: c2).
  - exists []. now rewrite app_nil_r.
  - exfalso. apply Hn. apply in_or_app. right. now left.
Qed.

Lemma holds_wrap_span c ks :
  ~ In (TOpen div) c -> spans_hold_no_div ks ->
  spans_hold_no_div (TOpen span :: c ++ TClose span :: ks).
Proof.
  intros Hc Hk a pre b H Hn Hd. destruct a as [|z a]; simpl in H; inv H.
  - symmetry in H1. destruct (@prefix_of_first _ _ _ _ _ _ H1 Hn) as (r & ->).
    apply Hc. apply in_or_app. now left.
  - symmetry in H2. apply split_mid in H2.
    destruct H2 as [(c2 & -> & H2)|[(_ & Hxy & _)|(a2 & -> & ->)]].
    + destruct (@prefix_of_first _ _ _ _ _ _ H2 Hn) as (r & ->).
      apply Hc. apply in_or_app. right. right. apply in_or_app. now left.
    + discriminate.
    + revert Hd. eapply Hk; eauto.
Qed.

Lemma holds_wrap t c ks :
  t <> span ->
  closes_spans c -> spans_hold_no_div c -> spans_hold_no_div ks ->
  spans_hold_no_div (TOpen t :: c ++ TClose t :: ks).
Proof.
  intros Ht Hcl Hc Hk a pre b H Hn Hd.
  destruct a as [|z a]; simpl in H; inv H; [congruence|].
  symmetry in H2. apply split_mid in H2.
  destruct H2 as [(c2 & -> & H2)|[(_ & Hxy & _)|(a2 & -> & ->)]].
  - assert (Hin : In (TClose span) c2) by (eapply Hcl; eauto).
    destruct (@first_occurrence _ _ _ _ _ _ H2 Hn Hin) as (b2 & ->).
    revert Hd. eapply Hc; eauto.
  - discriminate.
  - revert Hd. eapply Hk; eauto.
Qed.

Lemma span_closes c : closes_spans (span_tokens c).
Proof.
  induction c; simpl; auto using closes_nil, closes_text, closes_wrap_span.
Qed.

Lemma div_closes c : closes_spans (div_tokens c).
Proof.
  induction c; simpl;
    auto using closes_nil, closes_text, closes_wrap_span.
  apply closes_wrap; auto. discriminate.
Qed.

Lemma div_spans_hold c : spans_hold_no_div (div_tokens c).
Proof.
  induction c; simpl;
    auto using holds_nil, holds_text, holds_wrap_span, span_tokens_no_div.
  apply holds_wrap; auto using div_closes. discriminate.
Qed.

Lemma body_tokens_plain c :
  div_plain c = true -> Forall plain_token (body_tokens c).
Proof.
  intros H. constructor; [exact I|]. apply Forall_app. split.
  - now apply div_tokens_plain.
  - repeat constructor.
Qed.

Lemma body_spans_hold c : spans_hold_no_div (body_tokens c).
Proof.
  apply holds_wrap; auto using div_closes, div_spans_hold, holds_nil.
  discriminate.
Qed.

Lemma render_body_tokens c :
  render (body_tokens c) = str "<body>" ++ markup c ++ str "</body>".
Proof.
  unfold body_tokens, markup. rewrite render_cons, render_app. reflexivity.
Qed.

Lemma deep_plain n : div_plain (deep n) = true.
Proof. induction n; simpl; auto; try now rewrite IHn. Qed.

Lemma deep_depth n : depth (deep n) = n + 2.
Proof. induction n; simpl; auto; try (rewrite IHn; lia). Qed.

(** C9: the recursive nesting validator terminates on every input: with
    fuel beyond the length of the fragment it ends normally, with a result
    that no further fuel changes, because every recursive call is on the
    inner text of a pair matched in the fragment, which lies strictly inside
    that match and is strictly shorter than the fragment.  On valid div/span
    nesting of any depth, without title and with no [<] in its texts, alone
    or inside its body element, it ends without a diagnostic; [deep n] is
    such a nesting of depth [n + 2], for every [n]. *)
Theorem C9_nesting_terminates :
  (forall fuel content fullText ds context,
     length content < fuel ->
     exists out,
       validateNesting fuel content fullText ds context = Done out /\
       forall fuel', length content < fuel' ->
         validateNesting fuel' content fullText ds context = Done out) /\
  (forall content name m inner,
     In m (match_all (pairRegexG name) content) ->
     inner_of (pairRegexG name) m = Some inner ->
     substring_of m content /\ strictly_inside inner m /\
     length inner < length content) /\
  (forall c fuel fullText ds context,
     div_plain c = true ->
     length (markup c) + 13 < fuel ->
     validateNesting fuel (markup c) fullText ds context = Done ds /\
     validateNesting fuel (str "<body>" ++ markup c ++ str "</body>")
       fullText ds context = Done ds) /\
  (forall n, div_plain (deep n) = true /\ depth (deep n) = n + 2).
Proof.
  split; [|split; [|split]].
  - intros fuel content fullText ds context Hlen.
    destruct (@validateNesting_appends fuel content fullText ds context Hlen)
      as (new & Hr & _).
    exists (ds ++ new). split; auto. intros fuel' Hlen'.
    now rewrite (@validateNesting_fuel fuel' fuel) by auto.
  - intros content name m inner Hm Hi.
    pose proof (match_all_substring _ _ _ Hm) as Hsub.
    unfold inner_of in Hi.
    destruct (match_1 (pairRegexG name) m) as [res|] eqn:E; [|discriminate].
    destruct (match_1_pair _ _ E) as (inner' & Hi' & Hin).
    rewrite Hi in Hi'. inv Hi'. split; auto. split; auto.
    apply strictly_inside_length in Hin. apply substring_of_length in Hsub. lia.
  - intros c fuel fullText ds context Hp Hlen. split.
    + apply nesting_quiet; auto using div_tokens_plain, div_spans_hold.
      unfold markup in Hlen. lia.
    + rewrite <- render_body_tokens.
      apply nesting_quiet; auto using body_tokens_plain, body_spans_hold.
      rewrite render_body_tokens, !length_app. simpl. lia.
  - intros n. split; [apply deep_plain|apply deep_depth].
Qed.

Lemma C9_nesting_terminates_witness :
  (exists out,
     validateNesting 100 spanDiv spanDiv [] [] = Done out /\
     validateNesting 200 spanDiv spanDiv [] [] = Done out) /\
  (substring_of (str "<div>x</div>") spanDiv /\
   strictly_inside (str "x") (str "<div>x</div>") /\
   length (str "x") < length spanDiv) /\
  (validateNesting 100 (markup (deep 3)) (markup (deep 3)) [] [] = Done [] /\
   validateNesting 100 (str "<body>" ++ markup (deep 3) ++ str "</body>")
     (markup (deep 3)) [] [] = Done []).
Proof.
  split; [|split].
  - destruct (proj1 C9_nesting_terminates 100 spanDiv spanDiv [] [])
      as (out & H1 & H2).
    + vm_compute. lia.
    + exists out. split; [exact H1|]. apply H2. vm_compute. lia.
  - apply (proj1 (proj2 C9_nesting_terminates) spanDiv "div"%string
             (str "<div>x</div>") (str "x")).
    + vm_compute. auto.
    + vm_compute. reflexivity.
  - apply (proj1 (proj2 (proj2 C9_nesting_terminates)) (deep 3) 100).
    + reflexivity.
    + vm_compute. lia.
Defined.

(** * Further properties *)

(** ** The ancestor context *)

Lemma validateNesting_context : forall fuel content fullText ds context1 context2,
  validateNesting fuel content fullText ds context1
  = validateNesting fuel content fullText ds context2.
Proof.
  induction fuel as [|fuel IH]; intros content fullText ds c1 c2; [reflexivity|].
  rewrite !validateNesting_S. unfold descents.
  assert (Hrec : forall name ca cb m ds',
            descend (pairRegexG name)
              (fun inner ds0 => validateNesting fuel inner fullText ds0 ca) m ds'
            = descend (pairRegexG name)
              (fun inner ds0 => validateNesting fuel inner fullText ds0 cb) m ds').
  { intros name ca cb m ds'. apply descend_ext. intros inner _ ds0. apply IH. }
  rewrite (@for_matches_ext _ _ divRegexG content
             (fun m _ => Hrec "div"%string (c1 ++ ["div"%string]) (c2 ++ ["div"%string]) m)).
  destruct (for_matches _ (match_g divRegexG content) _); simpl; auto.
  apply (@for_matches_ext _ _ spanRegexG content
           (fun m _ => Hrec "span"%string (c1 ++ ["span"%string]) (c2 ++ ["span"%string]) m)).
Qed.

(** X1: the ancestor-context stack that [validateNesting] extends on every
    recursive call is never consulted: the result is the same for every
    context. *)
Theorem X1_context_unused : forall fuel content fullText ds context1 context2,
  validateNesting fuel content fullText ds context1
  = validateNesting fuel content fullText ds context2.
Proof. exact validateNesting_context. Qed.

(** ** The order of the diagnostics of a fragment *)

Lemma onto_onto a b r : onto a (onto b r) = onto (a ++ b) r.
Proof. destruct r; simpl; now rewrite ?app_assoc. Qed.

Lemma onto_nil r : onto [] r = r.
Proof. now destruct r. Qed.

Lemma bind_onto ds r f :
  (forall ds', f ds' = onto ds' (f [])) ->
  bind (onto ds r) f = onto ds (bind r f).
Proof.
  intros Hf. destruct r as [o|o|]; simpl; auto.
  rewrite Hf, (Hf o). now rewrite onto_onto.
Qed.

Lemma for_each_onto (A : Type) (body : A -> list Diagnostic -> result) l :
  (forall x, In x l -> forall ds, body x ds = onto ds (body x [])) ->
  forall ds, for_each body l ds = onto ds (for_each body l []).
Proof.
  induction l as [|x l IH]; intros Hb ds; simpl.
  - now rewrite app_nil_r.
  - rewrite (Hb x (or_introl eq_refl) ds). apply bind_onto.
    intros ds'. apply IH. intros y Hy. apply Hb. now right.
Qed.

Lemma for_matches_onto (body : jsstring -> list Diagnostic -> result) ms :
  (forall x ds, body x ds = onto ds (body x [])) ->
  forall ds, for_matches body ms ds = onto ds (for_matches body ms []).
Proof.
  intros Hb ds. destruct ms as [l|]; simpl.
  - apply for_each_onto. auto.
  - now rewrite app_nil_r.
Qed.

Lemma descend_onto r recur m ds :
  (forall inner ds', recur inner ds' = onto ds' (recur inner [])) ->
  descend r recur m ds = onto ds (descend r recur m []).
Proof.
  intros Hr. unfold descend. destruct (match_1 r m) as [res|]; simpl.
  - destruct (m1 res); simpl; [apply Hr|now rewrite app_nil_r].
  - now rewrite app_nil_r.
Qed.

(** What is in the array when [validateNesting] is called has no influence
    on what it adds. *)
Lemma validateNesting_onto : forall fuel content fullText ds context,
  validateNesting fuel content fullText ds context
  = onto ds (validateNesting fuel content fullText [] context).
Proof.
  induction fuel as [|fuel IH]; intros content fullText ds context; [reflexivity|].
  rewrite !validateNesting_S. unfold descents. simpl app.
  set (tp := title_part fullText content ++ span_part fullText content).
  set (fd := for_matches
               (descend divRegexG
                  (fun inner ds0 => validateNesting fuel inner fullText ds0
                                      (context ++ ["div"%string])))
               (match_g divRegexG content)).
  set (fs := for_matches
               (descend spanRegexG
                  (fun inner ds0 => validateNesting fuel inner fullText ds0
                                      (context ++ ["span"%string])))
               (match_g spanRegexG content)).
  assert (Hd : forall ds', fd ds' = onto ds' (fd [])).
  { apply for_matches_onto. intros x ds'. apply descend_onto. intros. apply IH. }
  assert (Hs : forall ds', fs ds' = onto ds' (fs [])).
  { apply for_matches_onto. intros x ds'. apply descend_onto. intros. apply IH. }
  rewrite (Hd (ds ++ tp)), (Hd tp).
  rewrite !bind_onto by exact Hs. now rewrite onto_onto.
Qed.

Lemma for_each_flat (A : Type) (body : A -> list Diagnostic -> result)
  (g : A -> list Diagnostic) l :
  (forall x, In x l -> forall ds, body x ds = Done (ds ++ g x)) ->
  forall ds, for_each body l ds = Done (ds ++ flat_map g l).
Proof.
  induction l as [|x l IH]; intros Hb ds; simpl.
  - now rewrite app_nil_r.
  - rewrite (Hb x (or_introl eq_refl)). simpl. rewrite IH.
    + now rewrite <- app_assoc.
    + intros y Hy. apply Hb. now right.
Qed.

Lemma for_matches_flat (body : jsstring -> list Diagnostic -> result)
  (g : jsstring -> list Diagnostic) r s :
  (forall x, In x (match_all r s) -> forall ds, body x ds = Done (ds ++ g x)) ->
  forall ds, for_matches body (match_g r s) ds
             = Done (ds ++ flat_map g (match_all r s)).
Proof.
  intros Hb ds. destruct (match_g r s) as [ms|] eqn:E; simpl.
  - apply match_g_Some in E. subst. now apply for_each_flat.
  - apply match_g_None in E. rewrite E. simpl. now rewrite app_nil_r.
Qed.

Lemma nesting_order : forall fuel content fullText ds context,
  length content < S fuel ->
  validateNesting (S fuel) content fullText ds context
  = Done (ds
          ++ title_part fullText content
          ++ span_part fullText content
          ++ flat_map (inner_diags fuel fullText divRegexG)
               (match_all divRegexG content)
          ++ flat_map (inner_diags fuel fullText spanRegexG)
               (match_all spanRegexG content)).
Proof.
  intros fuel content fullText ds context Hlen. rewrite validateNesting_S.
  assert (Hrec : forall name ctx m, In m (match_all (pairRegexG name) content) ->
            forall ds',
              descend (pairRegexG name)
                (fun inner ds0 => validateNesting fuel inner fullText ds0 ctx) m ds'
              = Done (ds' ++ inner_diags fuel fullText (pairRegexG name) m)).
  { intros name ctx m Hm ds'. unfold inner_diags.
    destruct (pair_inner name _ _ Hm) as (inner & Hi & Hin).
    rewrite (@descend_inner _ _ _ _ _ Hi), Hi.
    rewrite validateNesting_onto, (validateNesting_context _ _ _ _ ctx []).
    destruct (@validateNesting_appends fuel inner fullText [] [])
      as (new & -> & _); [|reflexivity].
    apply strictly_inside_length in Hin.
    apply match_all_substring, substring_of_length in Hm. lia. }
  unfold descents.
  rewrite (for_matches_flat _ _ divRegexG content (Hrec "div"%string _)). simpl.
  rewrite (for_matches_flat _ _ spanRegexG content (Hrec "span"%string _)).
  now rewrite <- !app_assoc.
Qed.


(** X10: the diagnostics [validateNesting] adds for a fragment do not depend
    on what the array holds, and come in this order: rule 5 for the title
    pairs of the fragment, rule 6 for its span pairs, then, pair by pair,
    all that the recursive call reports for the inner text of each div
    pair, then the same for each span pair. *)
Theorem X10_nesting_order : forall fuel content fullText ds context,
  length content < S fuel ->
  validateNesting (S fuel) content fullText ds context
  = Done (ds
          ++ title_part fullText content
          ++ span_part fullText content
          ++ flat_map (inner_diags fuel fullText divRegexG)
               (match_all divRegexG content)
          ++ flat_map (inner_diags fuel fullText spanRegexG)
               (match_all spanRegexG content)).
Proof. exact nesting_order. Qed.

Lemma X10_nesting_order_witness :
  validateNesting 100 spanDiv spanDiv [] []
  = Done ([]
          ++ title_part spanDiv spanDiv
          ++ span_part spanDiv spanDiv
          ++ flat_map (inner_diags 99 spanDiv divRegexG)
               (match_all divRegexG spanDiv)
          ++ flat_map (inner_diags 99 spanDiv spanRegexG)
               (match_all spanRegexG spanDiv)).
Proof. apply (@X10_nesting_order 99 spanDiv spanDiv [] []). vm_compute. lia. Defined.

Lemma reaches_substring content c : reaches content c -> substring_of c content.
Proof.
  induction 1 as [c|content m inner c Hm Hi Hr IH|content m inner c Hm Hi Hr IH].
  - exists [], []. now rewrite app_nil_r.
  - apply match_all_substring in Hm.
    destruct (match_1 divRegexG m) as [res|] eqn:E;
      [|unfold inner_of in Hi; rewrite E in Hi; discriminate].
    destruct (match_1_pair _ _ E) as (i & Hi' & Hin).
    unfold inner_of in Hi. rewrite E, Hi' in Hi. inv Hi.
    eapply substring_of_trans; [exact IH|].
    eapply substring_of_trans; [apply strictly_inside_substring; exact Hin|exact Hm].
  - apply match_all_substring in Hm.
    destruct (match_1 spanRegexG m) as [res|] eqn:E;
      [|unfold inner_of in Hi; rewrite E in Hi; discriminate].
    destruct (match_1_pair _ _ E) as (i & Hi' & Hin).
    unfold inner_of in Hi. rewrite E, Hi' in Hi. inv Hi.
    eapply substring_of_trans; [exact IH|].
    eapply substring_of_trans; [apply strictly_inside_substring; exact Hin|exact Hm].
Qed.

(** Every diagnostic [validateNesting] adds stems from a title pair or a
    span pair that fails its test, in a fragment the recursion reaches. *)
Lemma nesting_sources : forall fuel content fullText ds context,
  length content < fuel ->
  exists new,
    validateNesting fuel content fullText ds context = Done (ds ++ new) /\
    forall d, In d new ->
      exists c m, reaches content c /\
        ((In m (match_all titleRegex c) /\ title_violation m = true /\
          d = title_diag fullText m) \/
         (In m (match_all spanRegex c) /\ span_violation m = true /\
          d = span_diag fullText m)).
Proof.
  induction fuel as [|fuel IH]; intros content fullText ds context Hlen; [lia|].
  rewrite nesting_order by exact Hlen.
  eexists. split; [reflexivity|].
  assert (Hrec : forall name m d,
            name = "div"%string \/ name = "span"%string ->
            In m (match_all (pairRegexG name) content) ->
            In d (inner_diags fuel fullText (pairRegexG name) m) ->
            exists c m', reaches content c /\
              ((In m' (match_all titleRegex c) /\ title_violation m' = true /\
                d = title_diag fullText m') \/
               (In m' (match_all spanRegex c) /\ span_violation m' = true /\
                d = span_diag fullText m'))).
  { intros name m d Hname Hm Hd. unfold inner_diags in Hd.
    destruct (pair_inner name _ _ Hm) as (inner & Hi & Hin). rewrite Hi in Hd.
    destruct (IH inner fullText [] []) as (new & Hr & Hn).
    { apply strictly_inside_length in Hin.
      apply match_all_substring, substring_of_length in Hm. lia. }
    rewrite Hr in Hd. simpl in Hd.
    destruct (Hn d Hd) as (c & m' & Hreach & Hor). exists c, m'. split; auto.
    destruct Hname as [-> | ->];
      [eapply reaches_div|eapply reaches_span]; eauto. }
  intros d Hd. rewrite !in_app_iff in Hd. destruct Hd as [Hd|[Hd|[Hd|Hd]]].
  - unfold title_part in Hd. apply in_map_iff in Hd. destruct Hd as (m & <- & Hm).
    apply filter_In in Hm. exists content, m. split; [constructor|left; tauto].
  - unfold span_part in Hd. apply in_map_iff in Hd. destruct Hd as (m & <- & Hm).
    apply filter_In in Hm. exists content, m. split; [constructor|right; tauto].
  - apply in_flat_map in Hd. destruct Hd as (m & Hm & Hd).
    apply (Hrec "div"%string m d); auto.
  - apply in_flat_map in Hd. destruct Hd as (m & Hm & Hd).
    apply (Hrec "span"%string m d); auto.
Qed.

(** ** Rule 1, exactly *)

Lemma rule1_part_eq text : rule1_end text (rule1_start text []) = rule1_part text.
Proof.
  rewrite rule1_end_spec. unfold rule1_start, rule1_part, push.
  destruct (startsWith (trim text) (str "<html>"));
    destruct (endsWith (trim text) (str "</html>")); reflexivity.
Qed.

(** The loop over the html matches, for any property the diagnostics of a
    single match have. *)
Lemma html_loop_appends_P (P : Diagnostic -> Prop) text :
  (forall f m content ds,
     m1 m = Some content -> strictly_inside content text -> length content < f ->
     appends P ds (html_match f text m ds)) ->
  forall fuel lastIndex ds,
    lastIndex <= length text -> length text + 2 <= fuel + lastIndex ->
    appends P ds (html_loop fuel text lastIndex ds).
Proof.
  intros Hm. induction fuel as [|fuel IH]; intros lastIndex ds Hi Hf; [lia|].
  simpl. destruct (exec htmlRegex text lastIndex) as [[m li']|] eqn:E;
    [|apply appends_Done].
  destruct (exec_html _ _ E) as ((content & Hc & Hin & Hlen) & Hli).
  apply appends_bind.
  - apply (Hm fuel m content ds Hc Hin). lia.
  - intros ds'. apply IH; lia.
Qed.

Lemma html_match_later f text m content ds :
  m1 m = Some content -> length content < f ->
  appends later_msg ds (html_match f text m ds).
Proof.
  intros Hc Hlen.
  destruct (@html_match_spec f text m content ds Hc Hlen) as (hp & bp & -> & Hh & Hb).
  eexists. split; [reflexivity|]. rewrite !check_count_spec.
  repeat (apply Forall_app; split).
  - destruct (Nat.eqb _ 1); constructor; [|constructor]. unfold later_msg. simpl. auto.
  - destruct (Nat.eqb _ 1); constructor; [|constructor]. unfold later_msg. simpl. auto.
  - eapply Forall_impl; [|exact Hh]. intros d Hd. unfold later_msg, head_msg in *.
    rewrite Hd. simpl. auto.
  - eapply Forall_impl; [|exact Hb]. intros d Hd. unfold later_msg, body_msg in *.
    destruct Hd as [-> |[-> | ->]]; simpl; auto 10.
Qed.

Lemma later_msg_not_rule1 d :
  later_msg d -> message d <> msg_start /\ message d <> msg_end.
Proof.
  unfold later_msg. intros H. simpl in H.
  destruct H as [H|[H|[H|[H|[H|[H|[]]]]]]]; rewrite <- H; split; discriminate.
Qed.

Lemma pass_rule1_then_later fuel text :
  length text + 2 <= fuel ->
  exists rest,
    validate fuel text = Some (rule1_part text ++ rest) /\ Forall later_msg rest.
Proof.
  intros Hf.
  destruct (@html_loop_appends_P later_msg text
              (fun f m content ds Hc _ Hl => @html_match_later f text m content ds Hc Hl)
              fuel 0 (rule1_end text (rule1_start text [])))
    as (rest & Hr & Hrest); [lia|lia|].
  exists rest. split; auto.
  apply validate_Done. unfold try_block. now rewrite Hr, rule1_part_eq.
Qed.

(** X2: the output of a pass starts with the rule-1 diagnostics, the start
    one exactly when the trimmed text does not start with [<html>], then
    the end one exactly when it does not end with [</html>]; whatever
    follows them carries a message of rules 2 to 6, so neither rule-1
    diagnostic is reported otherwise or twice. *)
Theorem X2_rule1_exact : forall fuel text,
  length text + 2 <= fuel ->
  exists rest,
    validate fuel text = Some (rule1_part text ++ rest) /\
    Forall later_msg rest /\
    (forall d, In d rest -> message d <> msg_start /\ message d <> msg_end).
Proof.
  intros fuel text Hf.
  destruct (pass_rule1_then_later text Hf) as (rest & Hv & Hrest).
  exists rest. split; [auto|]. split; [auto|].
  intros d Hd. apply later_msg_not_rule1. rewrite Forall_forall in Hrest. auto.
Qed.

Lemma X2_rule1_exact_witness :
  exists rest,
    validate 100 headOutside = Some (rule1_part headOutside ++ rest) /\
    Forall later_msg rest.
Proof.
  destruct (@X2_rule1_exact 100 headOutside) as (rest & H1 & H2 & _).
  - vm_compute. lia.
  - exists rest. auto.
Defined.

(** ** Text around the root element, text without tags *)

Lemma startsWith_app p r : startsWith (p ++ r) p = true.
Proof. induction p as [|c p IH]; simpl; [now destruct r|]. now rewrite N.eqb_refl. Qed.

Lemma startsWith_prefix : forall p s,
  startsWith s p = true -> exists r, s = p ++ r.
Proof.
  induction p as [|c p IH]; intros s H.
  - now exists s.
  - destruct s as [|x s]; simpl in H; [discriminate|].
    apply andb_true_iff in H. destruct H as [Hx H]. apply N.eqb_eq in Hx. subst.
    destruct (IH _ H) as (r & ->). now exists r.
Qed.

Lemma endsWith_app a p : endsWith (a ++ p) p = true.
Proof. unfold endsWith. rewrite rev_app_distr. apply startsWith_app. Qed.

Lemma endsWith_suffix s p : endsWith s p = true -> exists a, s = a ++ p.
Proof.
  unfold endsWith. intros H. apply startsWith_prefix in H. destruct H as (r & H).
  exists (rev r). rewrite <- (rev_involutive s), H, rev_app_distr.
  now rewrite rev_involutive.
Qed.

Lemma trimStart_blank w s : blank w -> trimStart (w ++ s) = trimStart s.
Proof. induction 1 as [|c w Hc _ IH]; simpl; auto. now rewrite Hc. Qed.

Lemma trimStart_keep c s : isWhiteSpace c = false -> trimStart (c :: s) = c :: s.
Proof. intros H. simpl. now rewrite H. Qed.

Lemma blank_rev w : blank w -> blank (rev w).
Proof. unfold blank. intros H. now apply Forall_rev. Qed.

Lemma trimEnd_blank s w : blank w -> trimEnd (s ++ w) = trimEnd s.
Proof.
  intros H. unfold trimEnd. rewrite rev_app_distr.
  now rewrite trimStart_blank by now apply blank_rev.
Qed.

Lemma trimEnd_keep s c : isWhiteSpace c = false -> trimEnd (s ++ [c]) = s ++ [c].
Proof.
  intros H. unfold trimEnd. rewrite rev_app_distr. simpl.
  rewrite H. simpl. now rewrite rev_involutive.
Qed.

(** The root element with white space around it is what [trim] leaves. *)
Lemma trim_root w1 mid w2 :
  blank w1 -> blank w2 ->
  trim (w1 ++ str "<html>" ++ mid ++ str "</html>" ++ w2)
  = str "<html>" ++ mid ++ str "</html>".
Proof.
  intros H1 H2. unfold trim. rewrite trimStart_blank by auto.
  change (str "<html>" ++ mid ++ str "</html>" ++ w2)
    with (60%N :: (str "html>" ++ mid ++ str "</html>" ++ w2)).
  rewrite trimStart_keep by reflexivity.
  replace (60%N :: str "html>" ++ mid ++ str "</html>" ++ w2)
    with (((str "<html>" ++ mid ++ str "</html") ++ [62%N]) ++ w2).
  - rewrite trimEnd_blank by auto. rewrite trimEnd_keep by reflexivity.
    rewrite <- !app_assoc. reflexivity.
  - rewrite <- !app_assoc. reflexivity.
Qed.

(** X3: a text that is white space, [<html>], anything, [</html>], white
    space gets no rule-1 diagnostic: every diagnostic of the pass is one of
    rules 2 to 6. *)
Theorem X3_root_with_blanks : forall fuel w1 mid w2,
  blank w1 -> blank w2 ->
  length (w1 ++ str "<html>" ++ mid ++ str "</html>" ++ w2) + 2 <= fuel ->
  exists out,
    validate fuel (w1 ++ str "<html>" ++ mid ++ str "</html>" ++ w2) = Some out /\
    Forall later_msg out.
Proof.
  intros fuel w1 mid w2 H1 H2 Hf.
  destruct (pass_rule1_then_later _ Hf) as (rest & Hv & Hrest).
  exists rest. split; auto. rewrite Hv. unfold rule1_part.
  rewrite trim_root by auto. rewrite startsWith_app.
  rewrite (app_assoc (str "<html>") mid), endsWith_app. reflexivity.
Qed.

Lemma X3_root_with_blanks_witness :
  exists out,
    validate 100 ([32; 10] ++ str "<html>" ++ str "x" ++ str "</html>" ++ [10])%N
    = Some out /\
    Forall later_msg out.
Proof.
  apply (@X3_root_with_blanks 100 [32; 10]%N (str "x") [10%N]).
  - repeat constructor.
  - repeat constructor.
  - vm_compute. lia.
Defined.

Lemma In_trimStart c : forall s, In c (trimStart s) -> In c s.
Proof.
  induction s as [|x s IH]; simpl; auto.
  destruct (isWhiteSpace x); auto.
Qed.

Lemma In_trim c s : In c (trim s) -> In c s.
Proof.
  unfold trim, trimEnd. intros H. apply in_rev in H.
  apply In_trimStart in H. apply in_rev in H. now apply In_trimStart in H.
Qed.

Lemma plain_no_lt s : plain s -> ~ In 60%N s.
Proof. unfold plain. rewrite Forall_forall. intros H Hin. now apply (H _ Hin). Qed.

Lemma search_plain r : forall s,
  first_is_lt r = true -> plain s -> search r s = None.
Proof.
  intros s Hr Hs. induction Hs as [|c s Hc _ IH]; simpl.
  - now rewrite match_here_nil.
  - now rewrite match_here_not_lt, IH.
Qed.

(** X4: on a text without the character [<], the empty text included, the
    pass reports exactly the two rule-1 diagnostics, start then end. *)
Theorem X4_no_tag : forall fuel text,
  plain text -> 1 <= fuel ->
  validate fuel text = Some [mkError 0 0 6 msg_start; end_diag text].
Proof.
  intros fuel text Hp Hf. apply validate_Done. unfold try_block.
  rewrite rule1_part_eq. unfold rule1_part.
  destruct (startsWith (trim text) (str "<html>")) eqn:Es.
  { apply startsWith_prefix in Es. destruct Es as (r & Es).
    exfalso. apply (plain_no_lt Hp). apply In_trim. rewrite Es. now left. }
  destruct (endsWith (trim text) (str "</html>")) eqn:Ee.
  { apply endsWith_suffix in Ee. destruct Ee as (a & Ee).
    exfalso. apply (plain_no_lt Hp). apply In_trim. rewrite Ee.
    apply in_or_app. right. now left. }
  destruct fuel as [|fuel]; [lia|]. simpl html_loop. unfold exec.
  replace (Nat.ltb (length text) 0) with false by reflexivity.
  change (skipn 0 text) with text.
  now rewrite (search_plain htmlRegex (s := text) eq_refl Hp).
Qed.

Lemma X4_no_tag_witness :
  validate 1 [] = Some [mkError 0 0 6 msg_start; end_diag []].
Proof. apply (@X4_no_tag 1 []); [constructor|lia]. Defined.

(** ** Where diagnostics point *)

Lemma indexOf_range : forall s p, (-1 <= indexOf s p)%Z.
Proof.
  induction s as [|x s IH]; intros p; cbn [indexOf].
  - destruct (startsWith [] p); lia.
  - destruct (startsWith (x :: s) p); [lia|].
    specialize (IH p). destruct (Z.eqb_spec (indexOf s p) (-1)); lia.
Qed.

Lemma indexOf_none : forall s p,
  indexOf s p = (-1)%Z ->
  forall j, j <= length s -> startsWith (skipn j s) p = false.
Proof.
  induction s as [|x s IH]; intros p H j Hj.
  - cbn [indexOf] in H. simpl in Hj. destruct j; [|lia]. simpl skipn.
    destruct (startsWith [] p) eqn:E; [discriminate|auto].
  - cbn [indexOf] in H. destruct (startsWith (x :: s) p) eqn:E; [discriminate|].
    pose proof (indexOf_range s p).
    destruct (Z.eqb_spec (indexOf s p) (-1)) as [Hi|Hi]; [|lia].
    destruct j as [|j]; [exact E|]. simpl. apply IH; auto. simpl in Hj. lia.
Qed.

Lemma indexOf_first : forall s p,
  indexOf s p <> (-1)%Z ->
  exists i, indexOf s p = Z.of_nat i /\ first_at s p i.
Proof.
  induction s as [|x s IH]; intros p H.
  - cbn [indexOf] in *. destruct (startsWith [] p) eqn:E; [|congruence].
    apply startsWith_prefix in E. destruct E as (r & E).
    symmetry in E. apply app_eq_nil in E. destruct E as [-> ->].
    exists 0. split; auto. split; [now exists [], []|intros j Hj; lia].
  - cbn [indexOf] in *. destruct (startsWith (x :: s) p) eqn:E.
    + exists 0. split; auto. apply startsWith_prefix in E. destruct E as (r & E).
      split; [exists [], r; now rewrite E|intros j Hj; lia].
    + destruct (Z.eqb_spec (indexOf s p) (-1)) as [Hi|Hi]; [congruence|].
      destruct (IH p Hi) as (i & Hx & (a & b & Hs & Ha) & Hf).
      exists (S i). split; [rewrite Hx; lia|]. split.
      * exists (x :: a), b. rewrite Hs. simpl. auto.
      * intros j Hj. destruct j as [|j]; [exact E|]. simpl. apply Hf. lia.
Qed.

Lemma skipn_app_exact (A : Type) (a b : list A) : skipn (length a) (a ++ b) = b.
Proof. induction a; simpl; auto. Qed.

Lemma indexOf_substring s p : substring_of p s -> indexOf s p <> (-1)%Z.
Proof.
  intros (a & b & ->) H.
  pose proof (@indexOf_none _ _ H (length a)) as Hn.
  rewrite skipn_app_exact, startsWith_app in Hn.
  rewrite length_app in Hn. specialize (Hn ltac:(lia)). discriminate.
Qed.

Lemma length_split_cons c s :
  length (split_nl (c :: s))
  = if N.eqb c 10 then S (length (split_nl s)) else length (split_nl s).
Proof.
  simpl. pose proof (split_nl_not_nil s) as Hn.
  destruct (N.eqb c 10); [reflexivity|].
  destruct (split_nl s); [congruence|reflexivity].
Qed.

Lemma length_split_count s :
  length (split_nl s) = S (count_occ N.eq_dec s 10%N).
Proof.
  induction s as [|c s IH]; [reflexivity|].
  rewrite length_split_cons, IH. cbn [count_occ].
  destruct (N.eqb_spec c 10); destruct (N.eq_dec c 10); congruence.
Qed.

(** The line the validators compute for an offset is the number of line
    feeds before it. *)
Lemma line_of_count text i : line_of text (Z.of_nat i) = lines_before text i.
Proof.
  unfold line_of, substring0, lines_before.
  rewrite Z.max_r, Nat2Z.id by lia. rewrite length_split_count. lia.
Qed.

Lemma first_at_unique s e i j : first_at s e i -> first_at s e j -> i = j.
Proof.
  assert (H : forall i j, first_at s e i -> first_at s e j -> ~ i < j).
  { intros i' j' ((a & b & Hs & Ha) & _) (_ & Hj) Hlt.
    specialize (Hj i' Hlt). subst s. rewrite <- Ha in Hj.
    now rewrite skipn_app_exact, startsWith_app in Hj. }
  intros Hi Hj. pose proof (H _ _ Hi Hj). pose proof (H _ _ Hj Hi). lia.
Qed.

(** [indexOf] gives the first occurrence. *)
Lemma first_at_indexOf s e i : first_at s e i -> indexOf s e = Z.of_nat i.
Proof.
  intros Hf. assert (Hs : substring_of e s).
  { destruct Hf as ((a & b & Hs & _) & _). now exists a, b. }
  destruct (@indexOf_first s e (indexOf_substring Hs)) as (j & Hj & Hfj).
  now rewrite Hj, (first_at_unique Hf Hfj).
Qed.

Lemma flagged_text_substring text msg e :
  flagged_text text msg e -> substring_of e text.
Proof.
  intros [content h e' Hc Hh He _|content b e' Hc Hb He _
         |content b c e' Hc Hb Hr He _|content b c e' Hc Hb Hr He _];
    apply match_all_substring in He.
  - apply match_all_substring in Hh.
    eapply substring_of_trans; [exact He|].
    eapply substring_of_trans; [exact Hh|exact Hc].
  - apply match_all_substring in Hb.
    eapply substring_of_trans; [exact He|].
    eapply substring_of_trans; [exact Hb|exact Hc].
  - apply match_all_substring in Hb. apply reaches_substring in Hr.
    eapply substring_of_trans; [exact He|].
    eapply substring_of_trans; [exact Hr|].
    eapply substring_of_trans; [exact Hb|exact Hc].
  - apply match_all_substring in Hb. apply reaches_substring in Hr.
    eapply substring_of_trans; [exact He|].
    eapply substring_of_trans; [exact Hr|].
    eapply substring_of_trans; [exact Hb|exact Hc].
Qed.

(** A flagged text is looked up at its first occurrence. *)
Lemma located_diag text msg e :
  flagged_text text msg e ->
  located text (mkError (line_of text (indexOf text e)) 0 (len e) msg).
Proof.
  intros Hf.
  destruct (@indexOf_first text e (indexOf_substring (flagged_text_substring Hf)))
    as (i & Hi & Hfirst).
  exists msg, e, i. rewrite Hi, line_of_count. auto.
Qed.

Lemma html_match_origin f text m content ds :
  m1 m = Some content -> strictly_inside content text -> length content < f ->
  appends (origin text) ds (html_match f text m ds).
Proof.
  intros Hc Hin Hlen. apply strictly_inside_substring in Hin.
  unfold html_match. rewrite Hc.
  rewrite (check_count_app "<body"), (check_count_app "<head"), !check_count_spec.
  set (c1 := if Nat.eqb (count (match_g headRegex content)) 1 then []
             else [count_diag "<head" msg_head_count content text]).
  set (c2 := if Nat.eqb (count (match_g bodyRegex content)) 1 then []
             else [count_diag "<body" msg_body_count content text]).
  assert (Hc1 : Forall (origin text) c1).
  { unfold c1. destruct (Nat.eqb (count (match_g headRegex content)) 1);
      [constructor|].
    constructor; [now apply origin_head_count|constructor]. }
  assert (Hc2 : Forall (origin text) c2).
  { unfold c2. destruct (Nat.eqb (count (match_g bodyRegex content)) 1);
      [constructor|].
    constructor; [now apply origin_body_count|constructor]. }
  assert (Hsub : forall r x, In x (match_all r content) -> substring_of x text).
  { intros r x Hx. apply match_all_substring in Hx.
    eapply substring_of_trans; eauto. }
  destruct (@when_single_appends (origin text)
              (fun h ds0 => validateHeadContent h text ds0) headRegex content
              ((ds ++ c1) ++ c2)) as (hp & -> & Hhp).
  { intros h Hh ds'. rewrite validateHeadContent_spec. eexists. split; [reflexivity|].
    apply Forall_forall. intros d Hd. apply in_map_iff in Hd.
    destruct Hd as (e & <- & He). apply filter_In in He. destruct He as [He Hfl].
    apply origin_located, located_diag. eapply flagged_head; eauto. }
  simpl.
  destruct (@when_single_appends (origin text)
              (fun b ds0 => validateBodyContent f b text ds0) bodyRegex content
              (((ds ++ c1) ++ c2) ++ hp)) as (bp & -> & Hbp).
  { intros b Hb ds'. unfold validateBodyContent. apply appends_bind.
    - rewrite bodyElements_spec. eexists. split; [reflexivity|].
      apply Forall_forall. intros d Hd. apply in_map_iff in Hd.
      destruct Hd as (e & <- & He). apply filter_In in He. destruct He as [He Hfl].
      apply origin_located, located_diag. eapply flagged_body; eauto.
    - intros ds0.
      destruct (@nesting_sources f b text ds0 []) as (new & -> & Hn).
      { apply match_all_substring, substring_of_length in Hb. lia. }
      exists new. split; [reflexivity|]. apply Forall_forall. intros d Hd.
      destruct (Hn d Hd) as (c & x & Hr & [(Hx & Hv & ->)|(Hx & Hv & ->)]);
        apply origin_located, located_diag.
      + eapply flagged_title; eauto.
      + eapply flagged_span; eauto. }
  exists (c1 ++ c2 ++ hp ++ bp). split; [now rewrite <- !app_assoc|].
  repeat (apply Forall_app; split); auto.
Qed.

Lemma pass_origin fuel text :
  length text + 2 <= fuel ->
  exists out, validate fuel text = Some out /\ Forall (origin text) out.
Proof.
  intros Hf.
  destruct (@html_loop_appends_P (origin text) text
              (fun f m content ds Hc Hi Hl => @html_match_origin f text m content ds Hc Hi Hl)
              fuel 0 (rule1_end text (rule1_start text [])))
    as (rest & Hr & Hrest); [lia|lia|].
  eexists. split; [apply validate_Done; unfold try_block; exact Hr|].
  apply Forall_app. split; auto. rewrite rule1_part_eq. unfold rule1_part.
  destruct (startsWith (trim text) (str "<html>"));
    destruct (endsWith (trim text) (str "</html>")); simpl;
    repeat (apply Forall_cons || apply Forall_nil);
    (apply origin_start || apply origin_end).
Qed.

(** X5: every diagnostic of rules 3 to 6 that a pass reports stands for a
    text that its rule flags (a tag token of a head or body block with a
    name that is not allowed, a title pair or span pair that fails its test
    in a fragment reached from a body block) and that occurs in the
    document: the lookup [indexOf] never fails in a pass, the line is the
    number of line feeds before the first occurrence of the text in the
    whole document, the columns run from 0 to the length of the text. *)
Theorem X5_located : forall fuel text,
  length text + 2 <= fuel ->
  exists out,
    validate fuel text = Some out /\
    forall d, In d out ->
      In (message d) [msg_head; msg_body; msg_title; msg_span] ->
      located text d.
Proof.
  intros fuel text Hf. destruct (pass_origin text Hf) as (out & Hv & Ho).
  exists out. split; auto. intros d Hd Hm. rewrite Forall_forall in Ho.
  destruct (Ho d Hd) as [| |c Hc|c Hc|d' Hl]; auto;
    simpl in Hm; exfalso;
    destruct Hm as [Hm|[Hm|[Hm|[Hm|[]]]]]; discriminate.
Qed.

Lemma X5_located_witness : located wellFormed (mkError 0 0 6 msg_head).
Proof.
  destruct (@X5_located 100 wellFormed) as (out & Hv & Hl).
  - vm_compute. lia.
  - assert (Hv' : validate 100 wellFormed
                  = Some [mkError 0 0 6 msg_head; mkError 0 0 7 msg_head;
                          mkError 0 0 6 msg_body; mkError 0 0 7 msg_body])
      by (vm_compute; reflexivity).
    rewrite Hv in Hv'. injection Hv' as ->. apply Hl; simpl; auto.
Defined.

Lemma length_split_firstn : forall s n,
  1 <= length (split_nl (firstn n s)) <= length (split_nl s).
Proof.
  induction s as [|c s IH]; intros n.
  - rewrite firstn_nil. simpl. lia.
  - destruct n as [|n].
    + simpl firstn. rewrite length_split_cons. simpl.
      specialize (IH 0). destruct (N.eqb c 10); lia.
    + simpl firstn. rewrite !length_split_cons. specialize (IH n).
      destruct (N.eqb c 10); lia.
Qed.

(** A line computed by the validators is a line of the text, whatever the
    offset. *)
Lemma line_of_bounds text pos :
  (0 <= line_of text pos <= Z.of_nat (length (split_nl text)) - 1)%Z.
Proof.
  unfold line_of, substring0.
  pose proof (length_split_firstn text (Z.to_nat (Z.max 0 pos))). lia.
Qed.

Lemma origin_well_placed text d : origin text d -> well_placed text d.
Proof.
  pose proof (length_split_firstn text 0) as Hl.
  intros [| |c Hc|c Hc|d' (msg & e & i & _ & _ & ->)]; unfold well_placed; simpl.
  - repeat split; lia.
  - unfold len. repeat split; lia.
  - pose proof (line_of_bounds text
                  (if includes c (str "<head") then indexOf text (str "<head") else 0)).
    repeat split; lia.
  - pose proof (line_of_bounds text
                  (if includes c (str "<body") then indexOf text (str "<body") else 0)).
    repeat split; lia.
  - pose proof (line_of_bounds text (Z.of_nat i)) as Hb.
    rewrite line_of_count in Hb. repeat split; lia.
Qed.

(** X6: every diagnostic of a pass has severity Error and lies on a single
    line, which is a line of the document (from 0 to the number of line
    feeds of the text), with a start column that is not negative and not
    behind the end column. *)
Theorem X6_well_placed : forall fuel text,
  length text + 2 <= fuel ->
  exists out, validate fuel text = Some out /\ Forall (well_placed text) out.
Proof.
  intros fuel text Hf. destruct (pass_origin text Hf) as (out & Hv & Ho).
  exists out. split; auto. eapply Forall_impl; [|exact Ho].
  intros d. apply origin_well_placed.
Qed.

Lemma X6_well_placed_witness :
  exists out, validate 100 headOutside = Some out /\
              Forall (well_placed headOutside) out.
Proof. apply (@X6_well_placed 100 headOutside). vm_compute. lia. Defined.

(** ** A wrong count silences the content rules *)

Lemma when_single_skip validate ms ds :
  count ms <> 1 -> when_single validate ms ds = Done ds.
Proof.
  unfold when_single, count. destruct ms as [[|m [|m' ms]]|]; simpl; auto.
  congruence.
Qed.

Lemma html_match_parts fuel text m content ds :
  m1 m = Some content -> length content < fuel ->
  exists hp bp,
    html_match fuel text m ds
    = Done (ds
            ++ check_count "<head" msg_head_count
                 (count (match_g headRegex content)) content text []
            ++ check_count "<body" msg_body_count
                 (count (match_g bodyRegex content)) content text []
            ++ hp ++ bp)
    /\ Forall head_msg hp /\ Forall body_msg bp
    /\ (count (match_g headRegex content) <> 1 -> hp = [])
    /\ (count (match_g bodyRegex content) <> 1 -> bp = []).
Proof.
  intros Hc Hlen. unfold html_match. rewrite Hc.
  rewrite (check_count_app "<body"), (check_count_app "<head").
  set (ds1 := (ds ++ _) ++ _).
  assert (Hh : exists hp,
             when_single (fun h ds0 => validateHeadContent h text ds0)
               (match_g headRegex content) ds1 = Done (ds1 ++ hp)
             /\ Forall head_msg hp
             /\ (count (match_g headRegex content) <> 1 -> hp = [])).
  { destruct (Nat.eq_dec (count (match_g headRegex content)) 1) as [E|E].
    - destruct (@when_single_appends head_msg
                  (fun h ds0 => validateHeadContent h text ds0) headRegex content ds1)
        as (hp & Hr & Hhp).
      { intros h _ ds'. apply validateHeadContent_appends. }
      exists hp. split; auto. split; auto. congruence.
    - exists []. rewrite when_single_skip, app_nil_r by auto. auto. }
  destruct Hh as (hp & -> & Hhp & Hh0). simpl.
  assert (Hb : exists bp,
             when_single (fun b ds0 => validateBodyContent fuel b text ds0)
               (match_g bodyRegex content) (ds1 ++ hp) = Done ((ds1 ++ hp) ++ bp)
             /\ Forall body_msg bp
             /\ (count (match_g bodyRegex content) <> 1 -> bp = [])).
  { destruct (Nat.eq_dec (count (match_g bodyRegex content)) 1) as [E|E].
    - destruct (@when_single_appends body_msg
                  (fun b ds0 => validateBodyContent fuel b text ds0) bodyRegex content
                  (ds1 ++ hp))
        as (bp & Hr & Hbp).
      { intros b Hb ds'. apply validateBodyContent_appends.
        apply match_all_substring, substring_of_length in Hb. lia. }
      exists bp. split; auto. split; auto. congruence.
    - exists []. rewrite when_single_skip, app_nil_r by auto. auto. }
  destruct Hb as (bp & -> & Hbp & Hb0).
  exists hp, bp. subst ds1. rewrite <- !app_assoc. auto.
Qed.

(** X7: in an html block whose head count is not 1 the head content is not
    checked: no rule-3 diagnostic is emitted for it; and when the body count
    is not 1 no diagnostic of rules 4, 5 and 6 is emitted. *)
Theorem X7_wrong_count_silences : forall fuel text m content,
  m1 m = Some content -> length content < fuel ->
  exists out,
    html_match fuel text m [] = Done out /\
    (count (match_g headRegex content) <> 1 ->
     forall d, In d out -> message d <> msg_head) /\
    (count (match_g bodyRegex content) <> 1 ->
     forall d, In d out ->
       message d <> msg_body /\ message d <> msg_title /\ message d <> msg_span).
Proof.
  intros fuel text m content Hc Hlen.
  destruct (@html_match_parts fuel text m content [] Hc Hlen)
    as (hp & bp & -> & Hhp & Hbp & Hh0 & Hb0).
  eexists. split; [reflexivity|]. rewrite !check_count_spec. simpl app.
  rewrite Forall_forall in Hhp, Hbp.
  assert (Hcnt : forall d,
            In d ((if Nat.eqb (count (match_g headRegex content)) 1 then []
                   else [count_diag "<head" msg_head_count content text])
                  ++ (if Nat.eqb (count (match_g bodyRegex content)) 1 then []
                      else [count_diag "<body" msg_body_count content text])) ->
            message d = msg_head_count \/ message d = msg_body_count).
  { intros d Hd. apply in_app_or in Hd.
    destruct (Nat.eqb (count (match_g headRegex content)) 1);
      destruct (Nat.eqb (count (match_g bodyRegex content)) 1);
      simpl in Hd; destruct Hd as [Hd|Hd]; try contradiction;
      destruct Hd as [<-|[]]; auto. }
  split.
  - intros Hn d Hd. rewrite (Hh0 Hn) in Hd. simpl app in Hd.
    rewrite app_assoc in Hd. apply in_app_or in Hd. destruct Hd as [Hd|Hd].
    + destruct (Hcnt d Hd) as [-> | ->]; discriminate.
    + destruct (Hbp d Hd) as [-> |[-> | ->]]; discriminate.
  - intros Hn d Hd. rewrite (Hb0 Hn), app_nil_r in Hd.
    rewrite app_assoc in Hd. apply in_app_or in Hd. destruct Hd as [Hd|Hd].
    + destruct (Hcnt d Hd) as [-> | ->]; repeat split; discriminate.
    + rewrite (Hhp d Hd). repeat split; discriminate.
Qed.

Lemma X7_wrong_count_silences_witness :
  exists out,
    html_match 100 twoHeads
      (MkMatch twoHeads
         (Some (str "<head><p></p></head><head><meta></head><p>x</p>")) 0) []
    = Done out /\
    (forall d, In d out -> message d <> msg_head) /\
    (forall d, In d out ->
       message d <> msg_body /\ message d <> msg_title /\ message d <> msg_span).
Proof.
  destruct (@X7_wrong_count_silences 100 twoHeads
              (MkMatch twoHeads
                 (Some (str "<head><p></p></head><head><meta></head><p>x</p>")) 0)
              (str "<head><p></p></head><head><meta></head><p>x</p>"))
    as (out & Hr & Hh & Hb).
  - reflexivity.
  - vm_compute. lia.
  - exists out. split; [exact Hr|]. split.
    + apply Hh. vm_compute. lia.
    + apply Hb. vm_compute. lia.
Defined.

(** ** The matcher finds what the pattern derives *)

Lemma derives_extend r s s' c c' :
  derives r s s' c c' -> forall x, derives r (s ++ x) (s' ++ x) c c'.
Proof.
  induction 1; intros y; simpl; try (constructor; auto; fail).
  - rewrite <- app_assoc. now constructor.
  - econstructor; eauto.
  - pose proof (derives_suffix H) as (pre & Hp & _).
    replace (Some (firstn (length s - length s') s))
      with (Some (firstn (length (s ++ y) - length (s' ++ y)) (s ++ y))).
    + eapply D_Group. apply IHderives.
    + f_equal. subst s. rewrite <- app_assoc. now rewrite !firstn_app_exact.
Qed.

Lemma star_greedy_complete (R : Type) p (K : jsstring -> option R) s' :
  K s' <> None ->
  forall run, forallb p run = true -> star_greedy p (run ++ s') K <> None.
Proof.
  intros HK. induction run as [|x run IH]; simpl; intros Hr.
  - destruct s' as [|y s0]; simpl; auto. destruct (p y); auto.
    destruct (star_greedy p s0 K); [discriminate|auto].
  - apply andb_true_iff in Hr. destruct Hr as [Hx Hr]. rewrite Hx.
    specialize (IH Hr). destruct (star_greedy p (run ++ s') K); [discriminate|].
    congruence.
Qed.

Lemma star_lazy_complete (R : Type) p (K : jsstring -> option R) s' :
  K s' <> None ->
  forall run, forallb p run = true -> star_lazy p (run ++ s') K <> None.
Proof.
  intros HK. induction run as [|x run IH]; simpl; intros Hr.
  - destruct s' as [|y s0]; simpl.
    + destruct (K []); [discriminate|congruence].
    + destruct (K (y :: s0)); [discriminate|congruence].
  - apply andb_true_iff in Hr. destruct Hr as [Hx Hr]. rewrite Hx.
    destruct (K (x :: run ++ s')); [discriminate|auto].
Qed.

(** When the pattern can consume a prefix and the continuation accepts what
    is left, the matcher finds a match. *)
Lemma rmatch_complete r s s' c c' :
  derives r s s' c c' ->
  forall (R : Type) (k : cont R) cap,
    (forall cap', k s' cap' <> None) -> rmatch r s cap k <> None.
Proof.
  induction 1; intros R k capk Hk; simpl.
  - apply Hk.
  - rewrite H. apply Hk.
  - rewrite H. apply Hk.
  - destruct g; [apply star_greedy_complete|apply star_lazy_complete]; auto.
  - specialize (IHderives R k capk Hk).
    destruct (rmatch r s capk k); [discriminate|congruence].
  - destruct (rmatch r s capk k); [discriminate|apply Hk].
  - apply IHderives1. intros cap'. now apply IHderives2.
  - apply IHderives. intros cap'. apply Hk.
Qed.

Lemma rmatch_seq_app_inv (R : Type) l1 : forall l2 s cap (k : cont R) res,
  rmatch (seq (l1 ++ l2)) s cap k = Some res ->
  exists s1 cap1, derives (seq l1) s s1 cap cap1 /\
                  rmatch (seq l2) s1 cap1 k = Some res.
Proof.
  induction l1 as [|r l1 IH]; intros l2 s cap k res H.
  - exists s, cap. split; [constructor|exact H].
  - change (seq ((r :: l1) ++ l2)) with (Seq r (seq (l1 ++ l2))) in H.
    cbn [rmatch] in H. apply rmatch_sound in H.
    destruct H as (s1 & cap1 & Hd & H). apply IH in H.
    destruct H as (s2 & cap2 & Hd2 & H).
    exists s2, cap2. split; [econstructor; eauto|exact H].
Qed.

(** The lazy star stops at the first place its continuation accepts. *)
Lemma star_lazy_minimal (R : Type) p (K : jsstring -> option R) : forall s res,
  star_lazy p s K = Some res ->
  exists run s',
    s = run ++ s' /\ K s' = Some res /\
    forall r1 r2, run = r1 ++ r2 -> r2 <> [] -> K (r2 ++ s') = None.
Proof.
  induction s as [|x s IH]; simpl; intros res H.
  - destruct (K []) eqn:E; [|discriminate]. exists [], []. rewrite E. split; auto.
    split; auto. intros r1 r2 Hr Hn. symmetry in Hr. apply app_eq_nil in Hr. tauto.
  - destruct (K (x :: s)) eqn:E.
    + exists [], (x :: s). rewrite E. split; auto. split; auto.
      intros r1 r2 Hr Hn. symmetry in Hr. apply app_eq_nil in Hr. tauto.
    + destruct (p x); [|discriminate].
      destruct (IH _ H) as (run & s' & -> & HK & Hmin).
      exists (x :: run), s'. split; auto. split; auto.
      intros r1 r2 Hr Hn. destruct r1 as [|y r1]; simpl in Hr.
      * subst r2. exact E.
      * injection Hr as _ Hr. eauto.
Qed.

(** ** How deep the recursion goes *)

Lemma closes_sub name c s : substring_of c s -> closes name c -> closes name s.
Proof.
  intros (x & y & ->) (a & t & t' & c1 & c2 & -> & Hd).
  exists (x ++ a), (t ++ y), (t' ++ y), c1, c2. split.
  - now rewrite <- !app_assoc.
  - now apply derives_extend.
Qed.

(** A pair of [name] in a fragment holds a closing tag of [name]. *)
Lemma pair_closes name s m :
  In m (match_all (pairRegexG name) s) -> closes name s.
Proof.
  intros H. apply match_all_from_sound in H.
  destruct H as (t & res & Hh & _ & a & ->).
  apply match_here_sound in Hh. destruct Hh as (s' & Hd & _).
  unfold pairRegexG in Hd.
  apply derives_seq_app in Hd. destruct Hd as (s1 & cap1 & Hopen & Hd).
  apply derives_seq_app in Hd. destruct Hd as (s2 & cap2 & Hgrp & Hclose).
  apply derives_suffix in Hopen. destruct Hopen as (p1 & -> & _).
  apply derives_suffix in Hgrp. destruct Hgrp as (p2 & -> & _).
  exists (a ++ p1 ++ p2), s2, s', cap2, (m1 res). split; auto.
  now rewrite <- !app_assoc.
Qed.

Lemma no_pairs name c : ~ closes name c -> match_all (pairRegexG name) c = [].
Proof.
  intros H. destruct (match_all (pairRegexG name) c) as [|m ms] eqn:E; auto.
  exfalso. apply H. apply (@pair_closes name c m). rewrite E. now left.
Qed.

Lemma search_match_here r : forall s res,
  search r s = Some res ->
  exists a t res0, s = a ++ t /\ match_here r t = Some res0 /\
                   m1 res0 = m1 res /\ m0 res0 = m0 res.
Proof.
  induction s as [|x s IH]; simpl; intros res H.
  - destruct (match_here r []) eqn:E; [|discriminate]. inv H.
    now exists [], [], res.
  - destruct (match_here r (x :: s)) eqn:E.
    + inv H. now exists [], (x :: s), res.
    + destruct (search r s) as [m'|] eqn:E'; [|discriminate]. inv H.
      destruct (IH _ eq_refl) as (a & t & res0 & -> & Hh & H1 & H0).
      now exists (x :: a), t, res0.
Qed.

(** The inner text of a pair of [name] holds no closing tag of [name]: the
    match ended at the first one. *)
Lemma inner_no_close name m inner :
  inner_of (pairRegexG name) m = Some inner -> ~ closes name inner.
Proof.
  unfold inner_of, match_1. intros H.
  destruct (search (pairRegexG name) m) as [res|] eqn:E; [|discriminate].
  apply search_match_here in E. destruct E as (a & t & res0 & -> & Hh & H1 & _).
  rewrite <- H1 in H. clear H1 res.
  unfold match_here in Hh.
  destruct (rmatch (pairRegexG name) t None (fun s' cap => Some (s', cap)))
    as [[e cap]|] eqn:E; [|discriminate].
  inv Hh. simpl in H. subst cap. unfold pairRegexG in E.
  apply rmatch_seq_app_inv in E. destruct E as (s1 & cap1 & _ & E).
  change (seq ([Group (Star false any)] ++ closeTag name))
    with (Seq (Group (Star false any)) (seq (closeTag name))) in E.
  cbn [rmatch] in E. apply star_lazy_minimal in E.
  destruct E as (run & s' & -> & HK & Hmin).
  assert (Hcap : Some inner = Some run).
  { apply rmatch_sound in HK. destruct HK as (s2 & cap2 & Hd & Hk). inv Hk.
    rewrite (derives_no_group Hd (closeTag_no_group name)).
    now rewrite firstn_app_exact. }
  inv Hcap. intros (a1 & t1 & t' & c1 & c2 & -> & Hd).
  assert (Hn : t1 <> []).
  { apply derives_suffix in Hd. destruct Hd as (pre & -> & Hp).
    simpl in Hp. destruct pre; simpl in Hp; [lia|discriminate]. }
  specialize (Hmin a1 t1 eq_refl Hn).
  revert Hmin. apply (rmatch_complete (derives_extend Hd s')). discriminate.
Qed.

Lemma descend_ext_inner r recur recur' m ds :
  (forall inner, inner_of r m = Some inner ->
                 forall ds', recur inner ds' = recur' inner ds') ->
  descend r recur m ds = descend r recur' m ds.
Proof.
  intros Hr. unfold descend, inner_of in *.
  destruct (match_1 r m) as [res|]; auto. destruct (m1 res); auto.
Qed.

Lemma inner_sub name m inner :
  inner_of (pairRegexG name) m = Some inner -> substring_of inner m.
Proof.
  unfold inner_of. intros H.
  destruct (match_1 (pairRegexG name) m) as [res|] eqn:E; [|discriminate].
  destruct (match_1_pair _ _ E) as (i & Hi & Hin). rewrite H in Hi. inv Hi.
  now apply strictly_inside_substring.
Qed.

(** A fragment without closing div tag and without closing span tag is
    checked without a recursive call. *)
Lemma nesting_leaf fuel c fullText ds context :
  ~ closes "div" c -> ~ closes "span" c ->
  validateNesting (S fuel) c fullText ds context
  = Done (ds ++ title_part fullText c ++ span_part fullText c).
Proof.
  intros Hd Hs. rewrite validateNesting_S. unfold descents, match_g.
  change divRegexG with (pairRegexG "div"). change spanRegexG with (pairRegexG "span").
  now rewrite !no_pairs by auto.
Qed.

(** The inner text of a pair found in a fragment without closing tag of one
    of the two names has no closing tag of either name. *)
Lemma inner_leaf name x c m inner :
  (name = "div"%string /\ x = "span"%string \/
   name = "span"%string /\ x = "div"%string \/ x = name) ->
  ~ closes name c ->
  In m (match_all (pairRegexG x) c) ->
  inner_of (pairRegexG x) m = Some inner ->
  ~ closes "div" inner /\ ~ closes "span" inner.
Proof.
  intros Hx Hc Hm Hi.
  assert (Hsub : substring_of inner c).
  { eapply substring_of_trans; [eapply inner_sub; eauto|].
    now apply match_all_substring in Hm. }
  assert (H1 : ~ closes x inner) by (eapply inner_no_close; eauto).
  assert (H2 : ~ closes name inner) by (intros H; apply Hc; eapply closes_sub; eauto).
  destruct Hx as [[-> ->]|[[-> ->]| ->]]; auto.
  exfalso. apply Hc. eapply pair_closes; eauto.
Qed.

Lemma nesting_level1 name c fullText :
  name = "div"%string \/ name = "span"%string ->
  ~ closes name c ->
  forall fuel ds context,
    validateNesting (S (S fuel)) c fullText ds context
    = validateNesting 2 c fullText ds context.
Proof.
  intros Hname Hc fuel ds context. rewrite !validateNesting_S.
  assert (Hrec : forall x ctx,
            x = "div"%string \/ x = "span"%string ->
            forall m, In m (match_all (pairRegexG x) c) ->
            forall ds',
              descend (pairRegexG x)
                (fun inner ds0 => validateNesting (S fuel) inner fullText ds0 ctx) m ds'
              = descend (pairRegexG x)
                (fun inner ds0 => validateNesting 1 inner fullText ds0 ctx) m ds').
  { intros x ctx Hx m Hm ds'. apply descend_ext_inner. intros inner Hi ds0.
    destruct (@inner_leaf name x c m inner) as (Hd & Hs); auto.
    { destruct Hname as [-> | ->], Hx as [-> | ->]; auto. }
    now rewrite !nesting_leaf. }
  unfold descents.
  rewrite (for_matches_ext _ _ divRegexG c
             (Hrec "div"%string (context ++ ["div"%string]) (or_introl eq_refl))).
  destruct (for_matches _ (match_g divRegexG c) _); simpl; auto.
  apply (for_matches_ext _ _ spanRegexG c
           (Hrec "span"%string (context ++ ["span"%string]) (or_intror eq_refl))).
Qed.

Lemma nesting_level0 c fullText fuel ds context :
  validateNesting (S (S (S fuel))) c fullText ds context
  = validateNesting 3 c fullText ds context.
Proof.
  rewrite !validateNesting_S.
  assert (Hrec : forall x ctx,
            x = "div"%string \/ x = "span"%string ->
            forall m, In m (match_all (pairRegexG x) c) ->
            forall ds',
              descend (pairRegexG x)
                (fun inner ds0 => validateNesting (S (S fuel)) inner fullText ds0 ctx) m ds'
              = descend (pairRegexG x)
                (fun inner ds0 => validateNesting 2 inner fullText ds0 ctx) m ds').
  { intros x ctx Hx m Hm ds'. apply descend_ext_inner. intros inner Hi ds0.
    apply (@nesting_level1 x); auto. eapply inner_no_close; eauto. }
  unfold descents.
  rewrite (for_matches_ext _ _ divRegexG c
             (Hrec "div"%string (context ++ ["div"%string]) (or_introl eq_refl))).
  destruct (for_matches _ (match_g divRegexG c) _); simpl; auto.
  apply (for_matches_ext _ _ spanRegexG c
           (Hrec "span"%string (context ++ ["span"%string]) (or_intror eq_refl))).
Qed.

(** X8: the recursion of [validateNesting] never goes deeper than two
    levels below the first call, whatever the fragment: a tag pair is
    matched up to the first closing tag of its name, so the inner text of a
    pair found in the inner text of a pair holds no div pair and no span
    pair; three units of fuel give the result of every larger fuel. *)
Theorem X8_recursion_depth :
  (forall content fullText ds context,
     exists out,
       validateNesting 3 content fullText ds context = Done out /\
       forall fuel, 3 <= fuel ->
         validateNesting fuel content fullText ds context = Done out) /\
  (forall content x m inner y m' inner',
     (x = "div"%string \/ x = "span"%string) ->
     (y = "div"%string \/ y = "span"%string) ->
     In m (match_all (pairRegexG x) content) ->
     inner_of (pairRegexG x) m = Some inner ->
     In m' (match_all (pairRegexG y) inner) ->
     inner_of (pairRegexG y) m' = Some inner' ->
     match_all divRegexG inner' = [] /\ match_all spanRegexG inner' = []).
Proof.
  split.
  - intros content fullText ds context.
    assert (H3 : forall fuel, 3 <= fuel ->
              validateNesting fuel content fullText ds context
              = validateNesting 3 content fullText ds context).
    { intros fuel Hf. destruct fuel as [|[|[|fuel]]]; try lia.
      apply nesting_level0. }
    destruct (@validateNesting_appends (3 + length content) content fullText ds context)
      as (new & Hr & _); [lia|].
    rewrite H3 in Hr by lia. exists (ds ++ new). split; auto.
    intros fuel Hf. now rewrite H3.
  - intros content x m inner y m' inner' Hx Hy Hm Hi Hm' Hi'.
    assert (Hn : ~ closes x inner) by (eapply inner_no_close; eauto).
    destruct (@inner_leaf x y inner m' inner') as (Hd & Hs); auto.
    { destruct Hx as [-> | ->], Hy as [-> | ->]; auto. }
    split; [apply (@no_pairs "div")|apply (@no_pairs "span")]; auto.
Qed.

Lemma X8_recursion_depth_witness :
  (exists out,
     validateNesting 3 (markup (deep 5)) [] [] [] = Done out /\
     validateNesting 100 (markup (deep 5)) [] [] [] = Done out) /\
  (match_all divRegexG (str "x<div>") = [] /\
   match_all spanRegexG (str "x<div>") = []).
Proof.
  split.
  - destruct (proj1 X8_recursion_depth (markup (deep 5)) [] [] [])
      as (out & H3 & Hall).
    exists out. split; [exact H3|]. apply Hall. lia.
  - apply (proj2 X8_recursion_depth
             (str "<div><span>x<div></span></div>")
             "div"%string (str "<div><span>x<div></span></div>")
             (str "<span>x<div></span>")
             "span"%string (str "<span>x<div></span>") (str "x<div>")).
    + now left.
    + now right.
    + vm_compute. auto.
    + vm_compute. reflexivity.
    + vm_compute. auto.
    + vm_compute. reflexivity.
Defined.

(** ** Rule 5 is a rule of the body *)

Lemma match_all_none r : forall s,
  match_all r s = [] -> forall a t, s = a ++ t -> match_here r t = None.
Proof.
  unfold match_all. induction s as [|x s IH]; intros H a t Hs.
  - symmetry in Hs. apply app_eq_nil in Hs. destruct Hs as [-> ->].
    simpl in H. destruct (match_here r []); [discriminate|auto].
  - rewrite match_all_from_0_cons in H.
    destruct (match_here r (x :: s)) eqn:E; [discriminate|].
    destruct a as [|y a]; simpl in Hs.
    + now subst t.
    + injection Hs as _ Hs. eauto.
Qed.

Lemma match_here_extend r t y :
  match_here r t <> None -> match_here r (t ++ y) <> None.
Proof.
  unfold match_here. intros H.
  destruct (rmatch r t None (fun s' cap => Some (s', cap))) as [[e c]|] eqn:E;
    [|congruence].
  apply rmatch_sound in E. destruct E as (s' & c' & Hd & _).
  pose proof (@rmatch_complete _ _ _ _ _ (derives_extend Hd y) _
                (fun s' cap => Some (s', cap)) None) as Hc.
  destruct (rmatch r (t ++ y) None (fun s' cap => Some (s', cap))) as [[e' c'']|];
    [discriminate|]. exfalso. apply Hc; [discriminate|reflexivity].
Qed.

(** A pattern without match in a text has none in a part of the text. *)
Lemma no_match_sub r c s :
  substring_of c s -> match_all r s = [] -> match_all r c = [].
Proof.
  intros (x & y & ->) Hn.
  destruct (match_all r c) as [|m ms] eqn:E; auto. exfalso.
  assert (Hm : In m (match_all r c)) by (rewrite E; now left).
  apply match_all_from_sound in Hm. destruct Hm as (t & res & Hh & _ & a & ->).
  apply (@match_here_extend r t y); [congruence|].
  apply (match_all_none _ Hn (x ++ a)). now rewrite <- !app_assoc.
Qed.

Lemma nesting_no_title : forall fuel content fullText ds context,
  match_all titleRegex content = [] -> length content < fuel ->
  appends span_only ds (validateNesting fuel content fullText ds context).
Proof.
  induction fuel as [|fuel IH]; intros content fullText ds context Hn Hlen; [lia|].
  rewrite validateNesting_S. unfold title_part. rewrite Hn. simpl app.
  assert (Hrec : forall name ctx m, In m (match_all (pairRegexG name) content) ->
            forall ds', appends span_only ds'
              (descend (pairRegexG name)
                 (fun inner ds0 => validateNesting fuel inner fullText ds0 ctx) m ds')).
  { intros name ctx m Hm ds'. apply descend_appends. intros inner Hi ds0.
    apply match_all_substring in Hm.
    apply IH.
    - apply (@no_match_sub titleRegex inner content); auto.
      eapply substring_of_trans; [apply strictly_inside_substring|]; eauto.
    - apply strictly_inside_length in Hi. apply substring_of_length in Hm. lia. }
  unfold descents.
  destruct (for_matches_appends (P := span_only)
              (descend divRegexG
                 (fun inner ds0 => validateNesting fuel inner fullText ds0
                                     (context ++ ["div"%string])))
              divRegexG content (Hrec "div"%string _)
              (ds ++ span_part fullText content))
    as (n1 & -> & H1).
  simpl.
  destruct (for_matches_appends (P := span_only)
              (descend spanRegexG
                 (fun inner ds0 => validateNesting fuel inner fullText ds0
                                     (context ++ ["span"%string])))
              spanRegexG content (Hrec "span"%string _)
              ((ds ++ span_part fullText content) ++ n1))
    as (n2 & -> & H2).
  exists (span_part fullText content ++ n1 ++ n2).
  split; [now rewrite <- !app_assoc|].
  apply Forall_app; split; [|apply Forall_app; split]; auto.
  apply Forall_forall. intros d Hd. unfold span_part in Hd.
  apply in_map_iff in Hd. destruct Hd as (m & <- & _). reflexivity.
Qed.

(** The diagnostics of one html match, for any property those of its parts
    have. *)
Lemma html_match_appends_P (P : Diagnostic -> Prop) f text m content ds :
  m1 m = Some content ->
  P (count_diag "<head" msg_head_count content text) ->
  P (count_diag "<body" msg_body_count content text) ->
  (forall h, In h (match_all headRegex content) ->
             forall ds', appends P ds' (validateHeadContent h text ds')) ->
  (forall b, In b (match_all bodyRegex content) ->
             forall ds', appends P ds' (validateBodyContent f b text ds')) ->
  appends P ds (html_match f text m ds).
Proof.
  intros Hc P1 P2 Hh Hb. unfold html_match. rewrite Hc.
  rewrite (check_count_app "<body"), (check_count_app "<head"), !check_count_spec.
  set (c1 := if Nat.eqb (count (match_g headRegex content)) 1 then []
             else [count_diag "<head" msg_head_count content text]).
  set (c2 := if Nat.eqb (count (match_g bodyRegex content)) 1 then []
             else [count_diag "<body" msg_body_count content text]).
  assert (Hc1 : Forall P c1).
  { unfold c1. destruct (Nat.eqb (count (match_g headRegex content)) 1);
      repeat (apply Forall_cons || apply Forall_nil); auto. }
  assert (Hc2 : Forall P c2).
  { unfold c2. destruct (Nat.eqb (count (match_g bodyRegex content)) 1);
      repeat (apply Forall_cons || apply Forall_nil); auto. }
  destruct (@when_single_appends P
              (fun h ds0 => validateHeadContent h text ds0) headRegex content
              ((ds ++ c1) ++ c2) Hh) as (hp & -> & Hhp).
  simpl.
  destruct (@when_single_appends P
              (fun b ds0 => validateBodyContent f b text ds0) bodyRegex content
              (((ds ++ c1) ++ c2) ++ hp) Hb) as (bp & -> & Hbp).
  exists (c1 ++ c2 ++ hp ++ bp). split; [now rewrite <- !app_assoc|].
  repeat (apply Forall_app; split); auto.
Qed.

(** X9: rule 5 is applied to body content only.  When the body block of an
    html match holds no title pair, the match gets no diagnostic
    ["<title> can contain only text"], whatever its head block holds: a
    title with markup inside the head is not reported by rule 5. *)
Theorem X9_title_rule_body_only : forall fuel text m content,
  m1 m = Some content -> length content < fuel ->
  (forall b, In b (match_all bodyRegex content) -> match_all titleRegex b = []) ->
  exists out,
    html_match fuel text m [] = Done out /\
    forall d, In d out -> message d <> msg_title.
Proof.
  intros fuel text m content Hc Hlen Hb.
  destruct (@html_match_appends_P (fun d => message d <> msg_title)
              fuel text m content [] Hc) as (out & Hr & Ho).
  - discriminate.
  - discriminate.
  - intros h _ ds'. eapply appends_weaken; [|apply validateHeadContent_appends].
    intros d ->. discriminate.
  - intros b Hin ds'. unfold validateBodyContent. apply appends_bind.
    + rewrite bodyElements_spec. eexists. split; [reflexivity|].
      apply Forall_forall. intros d Hd. apply in_map_iff in Hd.
      destruct Hd as (e & <- & _). discriminate.
    + intros ds0. eapply appends_weaken; [|apply nesting_no_title; auto].
      * intros d ->. discriminate.
      * apply match_all_substring, substring_of_length in Hin. lia.
  - exists out. split; auto. rewrite Forall_forall in Ho. auto.
Qed.

Lemma X9_title_rule_body_only_witness :
  exists out,
    html_match 100 (str "<html><head><title><b>bold</b></title></head><body></body></html>")
      (MkMatch (str "<html><head><title><b>bold</b></title></head><body></body></html>")
         (Some (str "<head><title><b>bold</b></title></head><body></body>")) 0) []
    = Done out /\
    forall d, In d out -> message d <> msg_title.
Proof.
  apply (@X9_title_rule_body_only 100
           (str "<html><head><title><b>bold</b></title></head><body></body></html>")
           (MkMatch (str "<html><head><title><b>bold</b></title></head><body></body></html>")
              (Some (str "<head><title><b>bold</b></title></head><body></body>")) 0)
           (str "<head><title><b>bold</b></title></head><body></body>")).
  - reflexivity.
  - vm_compute. lia.
  - intros b Hb. vm_compute in Hb. destruct Hb as [<-|[]]. vm_compute. reflexivity.
Defined.

(** * Rules 5 and 6, fragment by fragment *)

Lemma flat_map_ext_In (A B : Type) (f g : A -> list B) l :
  (forall x, In x l -> f x = g x) -> flat_map f l = flat_map g l.
Proof.
  induction l as [|x l IH]; intros H; simpl; [reflexivity|].
  rewrite (H x (or_introl eq_refl)), IH; auto. intros y Hy. apply H. now right.
Qed.

Lemma inner_diags_fuel f1 f2 fullText name content m :
  In m (match_all (pairRegexG name) content) ->
  length content <= f1 -> length content <= f2 ->
  inner_diags f1 fullText (pairRegexG name) m
  = inner_diags f2 fullText (pairRegexG name) m.
Proof.
  intros Hm H1 H2. unfold inner_diags.
  destruct (pair_inner name _ _ Hm) as (inner & Hi & Hin). rewrite Hi.
  apply strictly_inside_length in Hin.
  apply match_all_substring, substring_of_length in Hm.
  f_equal. apply validateNesting_fuel; lia.
Qed.

(** One level of [validateNesting], with the recursive calls on the fuel of
    the call. *)
Lemma nesting_levels fuel content fullText ds context :
  length content < fuel ->
  validateNesting fuel content fullText ds context
  = Done (ds
          ++ title_part fullText content
          ++ span_part fullText content
          ++ flat_map (inner_diags fuel fullText divRegexG)
               (match_all divRegexG content)
          ++ flat_map (inner_diags fuel fullText spanRegexG)
               (match_all spanRegexG content)).
Proof.
  intros Hlen. destruct fuel as [|fuel]; [lia|].
  rewrite nesting_order by exact Hlen.
  rewrite (@flat_map_ext_In _ _ (inner_diags (S fuel) fullText divRegexG)
             (inner_diags fuel fullText divRegexG)),
          (@flat_map_ext_In _ _ (inner_diags (S fuel) fullText spanRegexG)
             (inner_diags fuel fullText spanRegexG)); [reflexivity| |].
  - intros m Hm. apply (@inner_diags_fuel _ _ _ "span" content); auto; lia.
  - intros m Hm. apply (@inner_diags_fuel _ _ _ "div" content); auto; lia.
Qed.

(** The diagnostic of a matched pair, for a text that occurs in the
    document: on the line of its first occurrence, from column 0 to its
    length. *)
Lemma pair_diag_at fullText m i msg :
  first_at fullText m i ->
  mkError (line_of fullText (indexOf fullText m)) 0 (len m) msg
  = mkError (lines_before fullText i) 0 (Z.of_nat (length m)) msg.
Proof. intros Hf. now rewrite (first_at_indexOf Hf), line_of_count. Qed.

Lemma first_at_6 s e :
  (exists a b, s = a ++ e ++ b /\ length a = 6) ->
  startsWith s e = false ->
  startsWith (skipn 1 s) e = false ->
  startsWith (skipn 2 s) e = false ->
  startsWith (skipn 3 s) e = false ->
  startsWith (skipn 4 s) e = false ->
  startsWith (skipn 5 s) e = false ->
  first_at s e 6.
Proof.
  intros Hs H0 H1 H2 H3 H4 H5. split; [exact Hs|].
  intros j Hj. do 6 (destruct j as [|j]; [assumption|]). lia.
Qed.

(** ** C5 *)

(** C5, the claim as stated fails: in the body block
    [<body><title><b>bold</b></title></body>] the title pair occurs first
    at offset 6, columns 6 to 32 of line 0; the one diagnostic of the
    nesting validator has the range from column 0 to column 26, which is not
    the place of the title pair. *)
Lemma C5_counterexample :
  first_at bodyTitle titleBold 6 /\
  validateNesting 100 bodyTitle bodyTitle [] []
  = Done [mkError 0 0 26 msg_title] /\
  ~ covers bodyTitle 6 (length titleBold) (mkError 0 0 26 msg_title).
Proof.
  split; [|split].
  - apply first_at_6; try (vm_compute; reflexivity).
    exists (str "<body>"), (str "</body>"). split; reflexivity.
  - vm_compute. reflexivity.
  - unfold covers. vm_compute. discriminate.
Qed.

(** C5: what the nesting validator appends for a fragment is, first, one
    ["<title> can contain only text"] for each title-pair match of the
    fragment whose inner text contains [<] and none for the others, in match
    order, then the rule-6 diagnostics of the fragment, then what the
    recursive calls on the inner texts of its div pairs and span pairs
    report.  So a title pair of a fragment the recursion reaches is reported
    when its inner text contains [<], and every diagnostic with this message
    stems from such a title pair.  The diagnostic lies on the line of the
    first occurrence of the matched text in the full document, from column 0
    to the length of the matched text.  For the fragment
    [<title><b>bold</b></title>] exactly one diagnostic is emitted, that
    one; and every title-pair match has an inner text, strictly inside it,
    on which the test is made. *)
Theorem C5_title_text_only :
  (forall fuel content fullText ds context,
     length content < fuel ->
     let titles :=
       map (title_diag fullText)
         (filter title_violation (match_all titleRegex content)) in
     let deeper :=
       flat_map (inner_diags fuel fullText divRegexG)
         (match_all divRegexG content)
       ++ flat_map (inner_diags fuel fullText spanRegexG)
            (match_all spanRegexG content) in
     validateNesting fuel content fullText ds context
     = Done (ds ++ titles ++ span_part fullText content ++ deeper) /\
     Forall span_only (span_part fullText content) /\
     (forall c m,
        reaches content c ->
        In m (match_all titleRegex c) -> title_violation m = true ->
        In (title_diag fullText m)
           (titles ++ span_part fullText content ++ deeper)) /\
     (forall d,
        In d (titles ++ span_part fullText content ++ deeper) ->
        message d = msg_title ->
        exists c m,
          reaches content c /\ In m (match_all titleRegex c) /\
          title_violation m = true /\ d = title_diag fullText m)) /\
  (forall fullText m i,
     first_at fullText m i ->
     title_diag fullText m
     = MkDiagnostic Error
         (MkRange (MkPosition (lines_before fullText i) 0)
                  (MkPosition (lines_before fullText i) (Z.of_nat (length m))))
         msg_title) /\
  (forall fuel fullText,
     length titleBold < fuel ->
     title_violation titleBold = true /\
     validateNesting fuel titleBold fullText [] []
     = Done [title_diag fullText titleBold] /\
     validateNesting fuel titleBold titleBold [] []
     = Done [mkError 0 0 26 msg_title]) /\
  (forall content titleMatch,
     In titleMatch (match_all titleRegex content) ->
     exists inner,
       inner_of titleRegex titleMatch = Some inner /\
       strictly_inside inner titleMatch /\
       title_violation titleMatch = includes inner (str "<")).
Proof.
  split; [|split; [|split]].
  - intros fuel content fullText ds context Hlen titles deeper.
    pose proof (@nesting_levels fuel content fullText ds context Hlen) as Hv.
    fold deeper in Hv. unfold title_part in Hv. fold titles in Hv.
    split; [exact Hv|]. split; [|split].
    + apply Forall_forall. intros d Hd. unfold span_part in Hd.
      apply in_map_iff in Hd. destruct Hd as (m & <- & _). reflexivity.
    + intros c m Hr Hm Hviol.
      apply (@nesting_reached content c Hr fuel fullText [] context).
      * rewrite (@nesting_levels fuel content fullText [] context Hlen).
        reflexivity.
      * apply in_or_app. left. unfold title_part. apply in_map.
        apply filter_In. auto.
    + intros d Hd Hmsg.
      destruct (@nesting_sources fuel content fullText [] context Hlen)
        as (new & Hr & Hn).
      rewrite (@nesting_levels fuel content fullText [] context Hlen) in Hr.
      injection Hr as Hr. fold deeper in Hr. unfold title_part in Hr.
      fold titles in Hr. rewrite Hr in Hd.
      destruct (Hn d Hd) as (c & m & Hreach & [(Hm & Hv' & ->)|(Hm & Hv' & ->)]).
      * exists c, m. auto.
      * discriminate.
  - intros fullText m i Hf. unfold title_diag. now rewrite (pair_diag_at _ Hf).
  - intros fuel fullText Hlen. split; [vm_compute; reflexivity|].
    assert (H : forall ft, validateNesting fuel titleBold ft [] []
                          = Done [title_diag ft titleBold]).
    { intros ft. destruct fuel as [|fuel]; [inversion Hlen|].
      rewrite validateNesting_S. unfold descents, title_part, span_part, match_g.
      replace (match_all titleRegex titleBold) with [titleBold] by (vm_compute; reflexivity).
      replace (match_all spanRegex titleBold) with (@nil jsstring) by (vm_compute; reflexivity).
      replace (match_all divRegexG titleBold) with (@nil jsstring) by (vm_compute; reflexivity).
      replace (match_all spanRegexG titleBold) with (@nil jsstring) by (vm_compute; reflexivity).
      replace (filter title_violation [titleBold]) with [titleBold] by (vm_compute; reflexivity).
      reflexivity. }
    split; [apply H|]. rewrite H. vm_compute. reflexivity.
  - intros content titleMatch H.
    destruct (pair_inner "title" _ _ H) as (inner & Hi & Hin).
    exists inner. unfold title_violation.
    change titleRegex with (pairRegexG "title"). now rewrite Hi.
Qed.

Lemma C5_title_text_only_witness :
  (validateNesting 100 titleBold titleBold [] []
   = Done ([] ++ map (title_diag titleBold)
                   (filter title_violation (match_all titleRegex titleBold))
              ++ span_part titleBold titleBold
              ++ flat_map (inner_diags 100 titleBold divRegexG)
                   (match_all divRegexG titleBold)
              ++ flat_map (inner_diags 100 titleBold spanRegexG)
                   (match_all spanRegexG titleBold)) /\
   In (title_diag titleBold titleBold)
      (map (title_diag titleBold)
         (filter title_violation (match_all titleRegex titleBold))
       ++ span_part titleBold titleBold
       ++ flat_map (inner_diags 100 titleBold divRegexG)
            (match_all divRegexG titleBold)
       ++ flat_map (inner_diags 100 titleBold spanRegexG)
            (match_all spanRegexG titleBold)) /\
   exists c m,
     reaches titleBold c /\ In m (match_all titleRegex c) /\
     title_violation m = true /\
     mkError 0 0 26 msg_title = title_diag titleBold m) /\
  title_diag bodyTitle titleBold
  = MkDiagnostic Error
      (MkRange (MkPosition (lines_before bodyTitle 6) 0)
               (MkPosition (lines_before bodyTitle 6)
                  (Z.of_nat (length titleBold))))
      msg_title /\
  (title_violation titleBold = true /\
   validateNesting 100 titleBold titleBold [] []
   = Done [title_diag titleBold titleBold] /\
   validateNesting 100 titleBold titleBold [] []
   = Done [mkError 0 0 26 msg_title]) /\
  (exists inner,
     inner_of titleRegex titleBold = Some inner /\
     strictly_inside inner titleBold /\
     title_violation titleBold = includes inner (str "<")).
Proof.
  assert (Hlen : length titleBold < 100) by (vm_compute; lia).
  split; [|split; [|split]].
  - destruct (proj1 C5_title_text_only 100 titleBold titleBold [] [] Hlen)
      as (Hv & _ & Hif & Honly).
    split; [exact Hv|]. split.
    + apply (Hif titleBold titleBold (reaches_here titleBold)).
      * vm_compute. auto.
      * vm_compute. reflexivity.
    + apply (Honly (mkError 0 0 26 msg_title)).
      * apply in_or_app. left. vm_compute. auto.
      * reflexivity.
  - apply (proj1 (proj2 C5_title_text_only) bodyTitle titleBold 6).
    apply first_at_6; try (vm_compute; reflexivity).
    exists (str "<body>"), (str "</body>"). split; reflexivity.
  - apply (proj1 (proj2 (proj2 C5_title_text_only)) 100 titleBold). exact Hlen.
  - apply (proj2 (proj2 (proj2 C5_title_text_only)) titleBold titleBold).
    vm_compute. auto.
Defined.

(** ** C6 *)

(** C6: the nesting validator returns for every fragment, and for every
    span-pair match of a fragment it processes, at whatever depth the
    recursion through div and span content reaches it, the diagnostic
    ["<span> cannot contain <div> elements"] is in the array it returns
    when the inner text of the span contains a div opening tag; the
    diagnostic lies on the line of the first occurrence of the matched text
    in the full document, from column 0 to the length of the matched text;
    for the fragment [<span><div>x</div></span>] exactly one such diagnostic
    is emitted; and every span-pair match has an inner text, strictly inside
    it, on which the test is made. *)
Theorem C6_span_excludes_div :
  (forall fuel content fullText ds context,
     length content < fuel ->
     exists out,
       validateNesting fuel content fullText ds context = Done out /\
       forall c m,
         reaches content c ->
         In m (match_all spanRegex c) -> span_violation m = true ->
         In (span_diag fullText m) out) /\
  (forall fullText m i,
     first_at fullText m i ->
     span_diag fullText m
     = MkDiagnostic Error
         (MkRange (MkPosition (lines_before fullText i) 0)
                  (MkPosition (lines_before fullText i) (Z.of_nat (length m))))
         msg_span) /\
  (forall fuel fullText,
     length spanDiv < fuel ->
     validateNesting fuel spanDiv fullText [] [] = Done [span_diag fullText spanDiv]) /\
  (forall content spanMatch,
     In spanMatch (match_all spanRegex content) ->
     exists inner,
       inner_of spanRegexG spanMatch = Some inner /\
       strictly_inside inner spanMatch /\
       (span_violation spanMatch = true <-> match_all divOpenRegex inner <> [])).
Proof.
  split; [|split; [|split]].
  - intros fuel content fullText ds context Hlen.
    destruct (@validateNesting_appends fuel content fullText ds context Hlen)
      as (new & Hv & _).
    exists (ds ++ new). split; [exact Hv|].
    intros c m Hr Hm Hviol.
    apply (@nesting_reached content c Hr fuel fullText ds context _ Hv).
    apply in_or_app. right. unfold span_part. apply in_map.
    apply filter_In. auto.
  - intros fullText m i Hf. unfold span_diag. now rewrite (pair_diag_at _ Hf).
  - intros fuel fullText Hlen.
    rewrite (@validateNesting_fuel fuel (3 + length spanDiv)) by (auto; lia).
    vm_compute. reflexivity.
  - intros content spanMatch H.
    change spanRegex with (pairRegex "span") in H. rewrite match_all_group in H.
    destruct (pair_inner "span" _ _ H) as (inner & Hi & Hin).
    exists inner. unfold span_violation.
    change spanRegexG with (pairRegexG "span"). rewrite Hi.
    split; [auto|]. split; [auto|].
    destruct (match_all divOpenRegex inner); split; congruence.
Qed.

Lemma C6_span_excludes_div_witness :
  (exists out,
     validateNesting 100 spanDiv spanDiv [] [] = Done out /\
     In (span_diag spanDiv spanDiv) out) /\
  span_diag spanDiv spanDiv
  = MkDiagnostic Error
      (MkRange (MkPosition (lines_before spanDiv 0) 0)
               (MkPosition (lines_before spanDiv 0) (Z.of_nat (length spanDiv))))
      msg_span /\
  validateNesting 100 spanDiv spanDiv [] [] = Done [span_diag spanDiv spanDiv] /\
  (exists inner,
     inner_of spanRegexG spanDiv = Some inner /\
     strictly_inside inner spanDiv /\
     (span_violation spanDiv = true <-> match_all divOpenRegex inner <> [])).
Proof.
  assert (Hlen : length spanDiv < 100) by (vm_compute; lia).
  split; [|split; [|split]].
  - destruct (proj1 C6_span_excludes_div 100 spanDiv spanDiv [] [] Hlen)
      as (out & Hv & Hin).
    exists out. split; [exact Hv|].
    apply (Hin spanDiv spanDiv (reaches_here spanDiv)).
    + vm_compute. auto.
    + vm_compute. reflexivity.
  - apply (proj1 (proj2 C6_span_excludes_div) spanDiv spanDiv 0).
    split; [exists [], []; split; [now rewrite app_nil_r|reflexivity]|].
    intros j Hj. lia.
  - apply (proj1 (proj2 (proj2 C6_span_excludes_div)) 100 spanDiv). exact Hlen.
  - apply (proj2 (proj2 (proj2 C6_span_excludes_div)) spanDiv spanDiv).
    vm_compute. auto.
Defined.
